(** * PaperRL / robojax: PPO core (GAE, buffer assembly, sampler, update loop)

    A shallow embedding of
      - [robojax/agents/ppo/ppo.py]   (gae_advantages, PPO.collect_buffer,
                                       PPO.update_parameters, PPO.train_step,
                                       PPO.train),
      - [robojax/agents/ppo/config.py] (PPOConfig, TimeStep),
      - [robojax/data/sampler.py]      (BufferSampler),
      - [robojax/logger/logger.py]     (Logger: store, get_data, log, reset,
                                       _state_dict, load).

    [ppo.py] imports its loss functions, the environment loops, the model
    classes and [BufferSampler] from modules that are not modelled
    ([robojax.agents.ppo.loss], [robojax.loop], [robojax.models]); the
    sampler it uses has the interface of the class in [data/sampler.py],
    which is the one embedded here, and the rest enters as parameters.

    Conventions.
      - Floating-point arrays are arrays of real numbers ([R]): arithmetic is
        exact, there is no rounding, no NaN and no infinity. Where a
        statement depends on infinities and NaN (the mask of
        [gae_advantages], the mean of an empty selection) the same code is
        read over the values of IEEE 754 arithmetic ([Ieee]) as well.
      - A one-dimensional array is a [list]; a two-dimensional array of shape
        [(time, env)] is a list of rows, one row per time step.
      - An operation that raises in Python/JAX (a shape that does not
        broadcast, an index into an empty axis, a failed unpacking) returns
        [None]. *)

From Stdlib Require Import Reals Lra Lia List Bool ZArith.
From Stdlib Require String Ascii.
Import ListNotations.

Open Scope R_scope.

(** ** Errors as [option] *)

Definition bind {A B : Type} (m : option A) (k : A -> option B) : option B :=
  match m with
  | Some a => k a
  | None => None
  end.

Notation "x <- m ;; k" := (bind m (fun x => k))
  (at level 61, m at next level, right associativity).

Fixpoint mapM {A B : Type} (f : A -> option B) (l : list A) : option (list B) :=
  match l with
  | [] => Some []
  | a :: l' =>
      b <- f a ;;
      bs <- mapM f l' ;;
      Some (b :: bs)
  end.

(** ** The fragment of jax.numpy / jax.lax the code uses *)

Module Jnp.

(** A boolean array promoted to float in an arithmetic expression. *)
Definition of_bool (b : bool) : R := if b then 1 else 0.

(** [a[1:]] and [a[:-1]]. *)
Definition from1 {A : Type} (a : list A) : list A := tl a.
Definition but_last {A : Type} (a : list A) : list A := removelast a.

Fixpoint zip_with {A B C : Type} (f : A -> B -> C) (xs : list A) (ys : list B)
  : list C :=
  match xs, ys with
  | x :: xs', y :: ys' => f x y :: zip_with f xs' ys'
  | _, _ => []
  end.

(** Element-wise binary operation on two one-dimensional arrays, with
    NumPy broadcasting: equal lengths, or one side of length 1. *)
Definition ew2 {A B C : Type} (f : A -> B -> C) (xs : list A) (ys : list B)
  : option (list C) :=
  if Nat.eqb (length xs) (length ys) then Some (zip_with f xs ys)
  else match xs, ys with
       | [x], _ => Some (map (f x) ys)
       | _, [y] => Some (map (fun x => f x y) xs)
       | _, _ => None
       end.

(** [a[i]] for a traced index [i >= 0]: JAX clamps an index that is past
    the end, and raises [IndexError] for an index into an axis of size 0. *)
Definition get {A : Type} (a : list A) (i : nat) : option A :=
  nth_error a (Nat.min i (length a - 1)).

(** The iterations of [jax.lax.scan], for a body that may raise. *)
Fixpoint scan_run {C X Y : Type} (f : C -> X -> option (C * Y)) (init : C)
    (xs : list X) : option (C * list Y) :=
  match xs with
  | [] => Some (init, [])
  | x :: xs' =>
      r <- f init x ;;
      let '(c, y) := r in
      rest <- scan_run f c xs' ;;
      let '(c', ys) := rest in
      Some (c', y :: ys)
  end.

(** [jax.lax.scan f init xs]: the final carry and the stacked outputs. JAX
    traces the body once, on abstract values of the carry and of an element
    of [xs], before anything runs and also when [xs] is empty; what the body
    raises there is raised by the scan. Tracing can only fail on shapes, so
    it is the body at [init] and at [x0], any value of the type of the
    elements. *)
Definition scan {C X Y : Type} (f : C -> X -> option (C * Y)) (init : C)
    (x0 : X) (xs : list X) : option (C * list Y) :=
  _ <- f init x0 ;;
  scan_run f init xs.

(** The scan of a body that does not raise. *)
Fixpoint scan_total {C X Y : Type} (f : C -> X -> C * Y) (init : C)
    (xs : list X) : C * list Y :=
  match xs with
  | [] => (init, [])
  | x :: xs' =>
      let '(c, y) := f init x in
      let '(c', ys) := scan_total f c xs' in
      (c', y :: ys)
  end.

(** What a backward scan computes at index [t] when its step is
    [fun c t => (h t c, h t c)] and [k] steps separate [t] from the
    initial carry [base]. *)
Fixpoint unroll {F : Type} (h : nat -> F -> F) (base : F) (k t : nat) : F :=
  match k with
  | O => base
  | S k' => h t (unroll h base k' (S t))
  end.

(** [jnp.arange(n)]. *)
Definition arange (n : nat) : list nat := seq 0 n.

Definition sum (a : list R) : R := fold_right Rplus 0 a.

(** [a.mean()] and [a.std()] (population standard deviation, ddof = 0) of
    a flattened array that has an element. The mean of an empty array is
    nan, which [R] does not have: [normalize] writes it to no cell, and
    [mean_or_nan] is the mean where it is reported. *)
Definition mean (a : list R) : R := sum a / INR (length a).

Definition var (a : list R) : R :=
  mean (map (fun x => Rsqr (x - mean a)) a).

Definition std (a : list R) : R := sqrt (var a).

(** Flattening of a two-dimensional array. *)
Definition ravel {A : Type} (a : list (list A)) : list A := concat a.

(** Shape of a two-dimensional array along axis 1. *)
Definition ncols {A : Type} (a : list (list A)) : nat :=
  match a with
  | [] => O
  | r :: _ => length r
  end.

Definition has_cols {A : Type} (E : nat) (a : list (list A)) : bool :=
  forallb (fun r => Nat.eqb (length r) E) a.

(** [a.shape == (T, E)]. *)
Definition has_shape {A : Type} (T E : nat) (a : list (list A)) : bool :=
  Nat.eqb (length a) T && has_cols E a.

(** [a[t, e]] for indices in range. *)
Definition at2 (a : list (list R)) (t e : nat) : R := nth e (nth t a []) 0.

(** [a[:, e]]. *)
Definition column {A : Type} (d : A) (a : list (list A)) (e : nat) : list A :=
  map (fun r => nth e r d) a.

(** Stacking per-environment results of length [N] along axis 1. *)
Definition stack_axis1 (N : nat) (cols : list (list R)) : list (list R) :=
  map (fun t => map (fun c => nth t c 0) cols) (seq 0 N).

End Jnp.

(** ** ppo.py: gae_advantages *)

(** The body of [gae_advantages], as [jax.vmap] applies it to one environment
    column: [rewards] and [dones] of length N, [values] of length N + 1. It is
    written once, over the arithmetic it is run with: the type [F] of a float
    and its addition, subtraction, multiplication, the promotion of a boolean
    and the constant [0.0]. With no step ([N = 0]) [deltas] is empty and the
    body of the scan raises when it is traced. *)
Section GaeBody.

Variable F : Type.
Variables fadd fsub fmul : F -> F -> F.
Variable fof_bool : bool -> F.
Variable fzero : F.

Definition gae_advantages_body (rewards : list F) (dones : list bool)
    (values : list F) (gamma gae_lambda : F) : option (list F) :=
  let N := length rewards in
  let not_dones := map negb dones in
  gv <- Some (map (fmul gamma) (Jnp.from1 values)) ;;
  gvn <- Jnp.ew2 (fun x b => fmul x (fof_bool b)) gv not_dones ;;
  value_diffs <- Jnp.ew2 fsub gvn (Jnp.but_last values) ;;
  deltas <- Jnp.ew2 fadd rewards value_diffs ;;
  let body_fun (gae : F) (t : nat) : option (F * F) :=
    d <- Jnp.get deltas t ;;
    nd <- Jnp.get not_dones t ;;
    let gae' := fadd d (fmul (fmul (fmul gamma gae_lambda) (fof_bool nd)) gae) in
    Some (gae', gae') in
  let indices := rev (Jnp.arange N) in
  r <- Jnp.scan body_fun fzero 0%nat indices ;;
  let '(_, advantages) := r in
  Some (rev advantages).

End GaeBody.

(** The body over exact real arithmetic. *)
Definition gae_advantages_env (rewards : list R) (dones : list bool)
    (values : list R) (gamma gae_lambda : R) : option (list R) :=
  gae_advantages_body R Rplus Rminus Rmult Jnp.of_bool 0
    rewards dones values gamma gae_lambda.

(** [gae_advantages] itself: [jax.vmap] with [in_axes = (1, 1, 1, None, None)]
    and [out_axes = 1]. The mapped axis must have the same size in the three
    arrays. [jax.vmap] traces the body once for all columns, so that what
    the body raises on the shape of a column is raised also when there is no
    column: the trace is the body on column 0. *)
Definition gae_advantages (rewards : list (list R)) (dones : list (list bool))
    (values : list (list R)) (gamma gae_lambda : R) : option (list (list R)) :=
  let E := Jnp.ncols values in
  if Jnp.has_cols E rewards && Jnp.has_cols E dones && Jnp.has_cols E values
  then
    _ <- gae_advantages_env (Jnp.column 0 rewards 0) (Jnp.column false dones 0)
                            (Jnp.column 0 values 0) gamma gae_lambda ;;
    cols <- mapM (fun e =>
                    gae_advantages_env (Jnp.column 0 rewards e)
                                       (Jnp.column false dones e)
                                       (Jnp.column 0 values e)
                                       gamma gae_lambda)
                 (seq 0 E) ;;
    Some (Jnp.stack_axis1 (length rewards) cols)
  else None.

(** ** IEEE 754 values

    What the exact reals leave out of a float: the infinities and NaN, and
    with them overflow. A finite float is the real number it stands for (the
    two zeros are one). The rounding of an exact result to a float is a
    parameter [round] of the operations; it may overflow to an infinity. *)

Module Ieee.

Inductive float : Type :=
| Fin (x : R)
| PInf
| NInf
| NaN.

Definition finite (a : float) : Prop :=
  match a with
  | Fin _ => True
  | _ => False
  end.

Definition of_bool (b : bool) : float := if b then Fin 1 else Fin 0.

Section Operations.

Variable round : R -> float.

Definition add (a b : float) : float :=
  match a, b with
  | NaN, _ | _, NaN => NaN
  | PInf, NInf | NInf, PInf => NaN
  | PInf, _ | _, PInf => PInf
  | NInf, _ | _, NInf => NInf
  | Fin x, Fin y => round (x + y)
  end.

Definition sub (a b : float) : float :=
  match a, b with
  | NaN, _ | _, NaN => NaN
  | PInf, PInf | NInf, NInf => NaN
  | PInf, _ | _, NInf => PInf
  | NInf, _ | _, PInf => NInf
  | Fin x, Fin y => round (x - y)
  end.

(** The product of an infinity and the finite [x]: NaN for a zero. *)
Definition scale_inf (positive : bool) (x : R) : float :=
  if Req_dec_T x 0 then NaN
  else if Rlt_dec 0 x then (if positive then PInf else NInf)
  else (if positive then NInf else PInf).

Definition mul (a b : float) : float :=
  match a, b with
  | NaN, _ | _, NaN => NaN
  | PInf, PInf | NInf, NInf => PInf
  | PInf, NInf | NInf, PInf => NInf
  | PInf, Fin x | Fin x, PInf => scale_inf true x
  | NInf, Fin x | Fin x, NInf => scale_inf false x
  | Fin x, Fin y => round (x * y)
  end.

End Operations.

(** What the statements below need of a rounding: [0] is a float, and a
    finite result of rounding is a float, which rounding leaves alone. *)
Definition rounding (round : R -> float) : Prop :=
  round 0 = Fin 0 /\ forall x y, round x = Fin y -> round y = Fin y.

(** The largest finite number of [float32], [(2 - 2^-23) * 2^127]. *)
Definition max32 : R := 340282346638528859811704183484516925440.

(** A rounding that keeps a result in the range of [float32] as it is and
    overflows outside of it. *)
Definition round32 (x : R) : float :=
  if Rlt_dec max32 x then PInf
  else if Rlt_dec x (- max32) then NInf
  else Fin x.

End Ieee.

(** What one backward step of the body computes at index [t], in the
    arithmetic of the body: [deltas[t]], and the new [gae] from the one of
    step [t + 1]. *)
Section GaeStep.

Variable F : Type.
Variables fadd fsub fmul : F -> F -> F.
Variable fof_bool : bool -> F.
Variable d : F.
Variables (rewards : list F) (dones : list bool) (values : list F).
Variables gamma gae_lambda : F.

Definition body_delta (t : nat) : F :=
  fadd (nth t rewards d)
       (fsub (fmul (fmul gamma (nth (S t) values d))
                   (fof_bool (negb (nth t dones false))))
             (nth t values d)).

Definition body_step (t : nat) (gae : F) : F :=
  fadd (body_delta t)
       (fmul (fmul (fmul gamma gae_lambda)
                   (fof_bool (negb (nth t dones false))))
             gae).

End GaeStep.

(** The body of [gae_advantages] over IEEE values. *)
Definition gae_advantages_ieee (round : R -> Ieee.float)
    (rewards : list Ieee.float) (dones : list bool) (values : list Ieee.float)
    (gamma gae_lambda : Ieee.float) : option (list Ieee.float) :=
  gae_advantages_body Ieee.float (Ieee.add round) (Ieee.sub round)
    (Ieee.mul round) Ieee.of_bool (Ieee.Fin 0)
    rewards dones values gamma gae_lambda.

(** ** config.py: PPOConfig and TimeStep *)

Record PPOConfig : Type := mkPPOConfig {
  normalize_advantage : bool;
  gamma : R;
  gae_lambda : R;
  clip_ratio : R;
  ent_coef : R;
  pi_coef : R;
  vf_coef : R;
  dapg_lambda : R;
  dapg_damping : R;
  target_kl : R
}.

(** The keyword arguments [cfg] that [PPO.__init__] unpacks into [PPOConfig]:
    a key that is absent takes the default of the dataclass field. *)
Record PPOConfigArgs : Type := mkPPOConfigArgs {
  arg_normalize_advantage : option bool;
  arg_gamma : option R;
  arg_gae_lambda : option R;
  arg_clip_ratio : option R;
  arg_ent_coef : option R;
  arg_pi_coef : option R;
  arg_vf_coef : option R;
  arg_dapg_lambda : option R;
  arg_dapg_damping : option R;
  arg_target_kl : option R
}.

Definition or_default {A : Type} (o : option A) (d : A) : A :=
  match o with
  | Some a => a
  | None => d
  end.

(** The generated [__init__] of the dataclass: it stores its arguments and
    has no [__post_init__]. *)
Definition PPOConfig_init (a : PPOConfigArgs) : PPOConfig :=
  {| normalize_advantage := or_default (arg_normalize_advantage a) true;
     gamma := or_default (arg_gamma a) 0.99;
     gae_lambda := or_default (arg_gae_lambda a) 0.97;
     clip_ratio := or_default (arg_clip_ratio a) 0.2;
     ent_coef := or_default (arg_ent_coef a) 0.0;
     pi_coef := or_default (arg_pi_coef a) 1.0;
     vf_coef := or_default (arg_vf_coef a) 1.0;
     dapg_lambda := or_default (arg_dapg_lambda a) 0.1;
     dapg_damping := or_default (arg_dapg_damping a) 0.99;
     target_kl := or_default (arg_target_kl a) 0.01 |}.

(** The array shapes a [TimeStep] is used at: the buffer holds arrays of shape
    [(time, env, ...)], a sampled batch holds arrays of shape [(batch, ...)]. *)
Definition arr1 (A : Type) : Type := list A.
Definition arr2 (A : Type) : Type := list (list A).

(** [TimeStep], over the type of an action and of an observation (the
    trailing dimensions of [action] and [env_obs]). *)
Record TimeStep (Act Obs : Type) (arr : Type -> Type) : Type := mkTimeStep {
  log_p : arr R;
  action : arr Act;
  env_obs : arr Obs;
  adv : arr R;
  reward : arr R;
  ret : arr R;
  value : arr R;
  done : arr bool;
  ep_len : arr Z
}.

Arguments mkTimeStep {Act Obs arr}.
Arguments log_p {Act Obs arr}.
Arguments action {Act Obs arr}.
Arguments env_obs {Act Obs arr}.
Arguments adv {Act Obs arr}.
Arguments reward {Act Obs arr}.
Arguments ret {Act Obs arr}.
Arguments value {Act Obs arr}.
Arguments done {Act Obs arr}.
Arguments ep_len {Act Obs arr}.

(** Every field of a buffer has shape [(T, E)] in its two leading
    dimensions: what a rollout of [T] steps over [E] environments returns. *)
Definition buffer_has_shape {Act Obs : Type} (T E : nat)
    (b : TimeStep Act Obs arr2) : bool :=
  Jnp.has_shape T E (log_p b) && Jnp.has_shape T E (action b)
  && Jnp.has_shape T E (env_obs b) && Jnp.has_shape T E (adv b)
  && Jnp.has_shape T E (reward b) && Jnp.has_shape T E (ret b)
  && Jnp.has_shape T E (value b) && Jnp.has_shape T E (done b)
  && Jnp.has_shape T E (ep_len b).

(** ** What the core takes from outside

    [jax.random], [jax.grad] of the two loss functions of
    [robojax/agents/ppo/loss.py], the optimizer step of
    [robojax/models/model.py], [ActorCritic.step] and the element types of
    actions and observations. None of them is part of the code modelled here;
    the core is generic in them. *)
Class Collaborators : Type := {
  PRNGKey : Type;
  (** [jax.random.split(key)] and [jax.random.split(key, num)] *)
  split : PRNGKey -> PRNGKey * PRNGKey;
  split_n : PRNGKey -> nat -> list PRNGKey;
  (** [jax.random.randint(key, shape=(n,), minval, maxval)] *)
  randint : PRNGKey -> nat -> Z -> Z -> list Z;
  Act : Type;
  Obs : Type;
  (** [Model]: parameters, apply function and optimizer state *)
  Model : Type;
  Grads : Type;
  Info : Type;
  (** [jax.grad(actor_loss_fn(clip_ratio, actor.apply_fn, batch),
      has_aux=True)(actor.params)] *)
  actor_loss_grad : R -> Model -> TimeStep Act Obs arr1 -> Grads * Info;
  (** [jax.grad(critic_loss_fn(critic.apply_fn, batch),
      has_aux=True)(critic.params)] *)
  critic_loss_grad : Model -> TimeStep Act Obs arr1 -> Grads * Info;
  (** [model.apply_gradients(grads=grads)] *)
  apply_gradients : Model -> Grads -> Model;
  (** [ac.step(rng_key, actor, critic, obs)] *)
  StepIn : Type;
  StepOut : Type;
  ac_step : PRNGKey -> Model -> Model -> StepIn -> StepOut
}.

(** The environment loop held in [self.loop] ([JaxLoop] or [GymLoop] of
    [robojax/loop/loop.py]): [rollout(rng_keys, apply_fn, steps)] returns the
    collected buffer. A [GymLoop] drives a stateful environment; the state of
    the loop is passed explicitly. *)
Record Loop `{Collaborators} : Type := mkLoop {
  LoopState : Type;
  rollout : LoopState -> list PRNGKey -> (PRNGKey -> StepIn -> StepOut) -> Z
            -> TimeStep Act Obs arr2 * LoopState
}.

(** The fields of [self] the methods read. *)
Record PPO `{Collaborators} : Type := mkPPO {
  jax_env : bool;
  cfg : PPOConfig;
  loop : Loop
}.

(** ** sampler.py: BufferSampler *)

Module Indexing.

(** [a[i]] for an integer array index: a negative index counts from the
    end, an index out of range is clamped; an empty axis has no element. *)
Definition index {A : Type} (a : list A) (i : Z) : option A :=
  let n := Z.of_nat (length a) in
  let j := if (i <? 0)%Z then (i + n)%Z else i in
  nth_error a (Z.to_nat (Z.max 0 (Z.min j (n - 1)))).

(** [a[ts, es]] for two index vectors, which broadcast against each
    other. *)
Definition gather2 {A : Type} (a : list (list A)) (ts es : list Z)
  : option (list A) :=
  ids <- Jnp.ew2 pair ts es ;;
  mapM (fun '(t, e) => row <- index a t ;; index row e) ids.

End Indexing.

Record BufferSampler `{Collaborators} : Type := mkBufferSampler {
  buffer : TimeStep Act Obs arr2;
  buffer_size : nat;
  num_envs : nat
}.

(** [_get_batch_by_ids]: every field of the buffer gathered at the same
    coordinates. The dictionary it builds has the field names of [TimeStep]
    as keys and is turned back into a [TimeStep] by the caller. *)
Definition _get_batch_by_ids `{Collaborators} (self : BufferSampler)
    (batch_ids env_ids : list Z) : option (TimeStep Act Obs arr1) :=
  let b := buffer self in
  f_log_p <- Indexing.gather2 (log_p b) batch_ids env_ids ;;
  f_action <- Indexing.gather2 (action b) batch_ids env_ids ;;
  f_env_obs <- Indexing.gather2 (env_obs b) batch_ids env_ids ;;
  f_adv <- Indexing.gather2 (adv b) batch_ids env_ids ;;
  f_reward <- Indexing.gather2 (reward b) batch_ids env_ids ;;
  f_ret <- Indexing.gather2 (ret b) batch_ids env_ids ;;
  f_value <- Indexing.gather2 (value b) batch_ids env_ids ;;
  f_done <- Indexing.gather2 (done b) batch_ids env_ids ;;
  f_ep_len <- Indexing.gather2 (ep_len b) batch_ids env_ids ;;
  Some (mkTimeStep f_log_p f_action f_env_obs f_adv f_reward f_ret f_value
                   f_done f_ep_len).

Definition sample_random_batch `{Collaborators} (self : BufferSampler)
    (rng_key : PRNGKey) (batch_size : nat) : option (TimeStep Act Obs arr1) :=
  let '(rng_key, batch_ids_rng_key) := split rng_key in
  let batch_ids :=
    randint batch_ids_rng_key batch_size 0 (Z.of_nat (buffer_size self)) in
  let '(rng_key, env_ids_rng_key) := split rng_key in
  let env_ids :=
    randint env_ids_rng_key batch_size 0 (Z.of_nat (num_envs self)) in
  _get_batch_by_ids self batch_ids env_ids.

(** ** ppo.py: class PPO *)

(** [PPO.__init__]: the configuration dictionary goes through [PPOConfig];
    the loop is a [JaxLoop] or a [GymLoop] over [env], according to
    [jax_env]. Neither loop class is modelled; the loop is given. *)
Definition PPO_init `{Collaborators} (env_loop : Loop) (jax_env : bool)
    (cfg : PPOConfigArgs) : PPO :=
  {| jax_env := jax_env; cfg := PPOConfig_init cfg; loop := env_loop |}.

(** [(advantages - advantages.mean()) / (advantages.std() + 1e-8)]: mean and
    standard deviation of the whole array, broadcast as scalars. *)
Definition normalize (advantages : arr2 R) : arr2 R :=
  let m := Jnp.mean (Jnp.ravel advantages) in
  let s := Jnp.std (Jnp.ravel advantages) in
  map (map (fun a => (a - m) / (s + 1e-8))) advantages.

(** [a[-1, :]]: an array without rows has no last row. *)
Definition last_row {A : Type} (a : arr2 A) : option (list A) :=
  match a with
  | [] => None
  | _ :: _ => Some (last a [])
  end.

(** [a + v] for [a] of shape [(N, E)] and [v] of shape [(E,)]. *)
Definition add_row (a : arr2 R) (v : list R) : option (arr2 R) :=
  mapM (fun row => Jnp.ew2 Rplus row v) a.

(** The second half of [collect_buffer] (from the call of [gae_advantages]
    to [buffer.replace]), which works on the buffer the rollout returned. *)
Definition assemble_buffer {Act Obs : Type} (cfg : PPOConfig)
    (buffer : TimeStep Act Obs arr2) : option (TimeStep Act Obs arr2) :=
  advantages <- gae_advantages (Jnp.but_last (reward buffer))
                               (Jnp.but_last (done buffer))
                               (value buffer)
                               (gamma cfg) (gae_lambda cfg) ;;
  let advantages :=
    if normalize_advantage cfg then normalize advantages else advantages in
  bootstrap <- last_row (value buffer) ;;
  returns <- add_row advantages bootstrap ;;
  Some {| adv := advantages;
          ret := returns;
          log_p := Jnp.but_last (log_p buffer);
          action := Jnp.but_last (action buffer);
          env_obs := Jnp.but_last (env_obs buffer);
          done := Jnp.but_last (done buffer);
          ep_len := Jnp.but_last (ep_len buffer);
          (* fields that [buffer.replace] is not given keep their value *)
          reward := reward buffer;
          value := value buffer |}.

(** [collect_buffer]. The result is the assembled buffer (the second
    component of the Python result is the empty dictionary) together with
    the state the loop is left in. When the buffer comes from a [GymLoop] it
    is a dictionary with the keys of [TimeStep] and is converted first. *)
Definition collect_buffer `{Collaborators} (self : PPO)
    (st : LoopState (loop self)) (rng_key : PRNGKey)
    (rollout_steps_per_env : Z) (num_envs : nat)
    (apply_fn : PRNGKey -> StepIn -> StepOut)
    : option (TimeStep Act Obs arr2) * LoopState (loop self) :=
  match split_n rng_key (num_envs + 1) with
  | [] => (None, st)
  | rng_key :: env_rng_keys =>
      let '(buffer, st') :=
        rollout (loop self) st env_rng_keys apply_fn
                (rollout_steps_per_env + 1)%Z in
      (assemble_buffer (cfg self) buffer, st')
  end.

(** [jax.lax.scan(f, init, (), length=n)] for a step that may raise. *)
Fixpoint scan_length {C Y : Type} (f : C -> unit -> option (C * Y)) (init : C)
    (length : nat) : option (C * list Y) :=
  match length with
  | O => Some (init, [])
  | S n =>
      r <- f init tt ;;
      let '(c, y) := r in
      rest <- scan_length f c n ;;
      let '(c', ys) := rest in
      Some (c', y :: ys)
  end.

(** The inner function of [update_parameters]. *)
Definition update_step_fn `{Collaborators} (self : PPO)
    (sampler : BufferSampler) (update_actor update_critic : bool)
    (batch_size : nat) (data : PRNGKey * Model * Model) (unused : unit)
    : option ((PRNGKey * Model * Model) * (option Info * option Info)) :=
  let '(rng_key, actor, critic) := data in
  let '(rng_key, sample_rng_key) := split rng_key in
  batch <- sample_random_batch sampler sample_rng_key batch_size ;;
  let '(new_actor, info_a) :=
    if update_actor then
      let '(grads, info_a) :=
        actor_loss_grad (clip_ratio (cfg self)) actor batch in
      (apply_gradients actor grads, Some info_a)
    else (actor, None) in
  let '(new_critic, info_c) :=
    if update_critic then
      let '(grads, info_c) := critic_loss_grad critic batch in
      (apply_gradients critic grads, Some info_c)
    else (critic, None) in
  Some ((rng_key, new_actor, new_critic), (info_a, info_c)).

Definition update_parameters `{Collaborators} (self : PPO)
    (rng_key : PRNGKey) (actor critic : Model)
    (update_actor update_critic : bool) (update_iters num_envs batch_size : nat)
    (buffer : TimeStep Act Obs arr2)
    : option (Model * Model * list (option Info * option Info)) :=
  let sampler :=
    {| buffer := buffer;
       buffer_size := length (action buffer);
       num_envs := num_envs |} in
  let update_init := (rng_key, actor, critic) in
  r <- scan_length
         (update_step_fn self sampler update_actor update_critic batch_size)
         update_init update_iters ;;
  let '(carry, update_aux) := r in
  let '(_, actor, critic) := carry in
  Some (actor, critic, update_aux).

(** [train_step]: one rollout, then [update_iters] updates of both models. *)
Definition train_step `{Collaborators} (self : PPO)
    (st : LoopState (loop self)) (rng_key : PRNGKey)
    (update_iters : nat) (rollout_steps_per_env : Z) (num_envs : nat)
    (actor critic : Model)
    (apply_fn : PRNGKey -> Model -> Model -> StepIn -> StepOut)
    (batch_size : nat)
    : option (Model * Model
              * (TimeStep Act Obs arr2 * list (option Info * option Info)))
      * LoopState (loop self) :=
  let '(rng_key, buffer_rng_key) := split rng_key in
  let apply_fn_wrapped := fun rng_key obs => apply_fn rng_key actor critic obs in
  let '(collected, st') :=
    collect_buffer self st buffer_rng_key rollout_steps_per_env num_envs
                   apply_fn_wrapped in
  match collected with
  | None => (None, st')
  | Some buffer =>
      match update_parameters self rng_key actor critic true true update_iters
                              num_envs batch_size buffer with
      | None => (None, st')
      | Some (actor, critic, update_aux) =>
          (Some (actor, critic, (buffer, update_aux)), st')
      end
  end.

(** [train]: the epoch loop. [ac.actor] and [ac.critic] are overwritten after
    every epoch; the result lists the pair as it stands after each epoch
    (the statistics of the epoch are only printed). For an environment that
    is not a JAX environment [apply_fn] converts the action to a NumPy array
    of the same value, which the model does not distinguish. *)
Fixpoint train `{Collaborators} (self : PPO) (st : LoopState (loop self))
    (update_iters : nat) (steps_per_epoch : Z) (num_envs : nat)
    (rng_key : PRNGKey) (epochs : nat) (ac : Model * Model) (batch_size : nat)
    : option (list (Model * Model)) :=
  let apply_fn := fun rng_key actor critic obs =>
                    ac_step rng_key actor critic obs in
  match epochs with
  | O => Some []
  | S epochs' =>
      let '(rng_key, train_rng_key) := split rng_key in
      match train_step self st train_rng_key update_iters steps_per_epoch
                       num_envs (fst ac) (snd ac) apply_fn batch_size with
      | (None, _) => None
      | (Some (actor, critic, aux), st') =>
          rest <- train self st' update_iters steps_per_epoch num_envs rng_key
                        epochs' (actor, critic) batch_size ;;
          Some ((actor, critic) :: rest)
      end
  end.

(** ** The seeds of a run

    The same methods once more, each returning in addition the keys it hands
    to a stochastic operation, in the order of the calls: the two keys of
    [jax.random.randint] in [sample_random_batch], and the keys of the
    environments in [collect_buffer]. *)

Definition sample_random_batch_seeded `{Collaborators} (self : BufferSampler)
    (rng_key : PRNGKey) (batch_size : nat)
    : option (TimeStep Act Obs arr1) * list PRNGKey :=
  let '(rng_key, batch_ids_rng_key) := split rng_key in
  let batch_ids :=
    randint batch_ids_rng_key batch_size 0 (Z.of_nat (buffer_size self)) in
  let '(rng_key, env_ids_rng_key) := split rng_key in
  let env_ids :=
    randint env_ids_rng_key batch_size 0 (Z.of_nat (num_envs self)) in
  (_get_batch_by_ids self batch_ids env_ids,
   [batch_ids_rng_key; env_ids_rng_key]).

Definition update_step_fn_seeded `{Collaborators} (self : PPO)
    (sampler : BufferSampler) (update_actor update_critic : bool)
    (batch_size : nat) (data : PRNGKey * Model * Model) (unused : unit)
    : option ((PRNGKey * Model * Model)
              * ((option Info * option Info) * list PRNGKey)) :=
  let '(rng_key, actor, critic) := data in
  let '(rng_key, sample_rng_key) := split rng_key in
  let '(sampled, seeds) :=
    sample_random_batch_seeded sampler sample_rng_key batch_size in
  batch <- sampled ;;
  let '(new_actor, info_a) :=
    if update_actor then
      let '(grads, info_a) :=
        actor_loss_grad (clip_ratio (cfg self)) actor batch in
      (apply_gradients actor grads, Some info_a)
    else (actor, None) in
  let '(new_critic, info_c) :=
    if update_critic then
      let '(grads, info_c) := critic_loss_grad critic batch in
      (apply_gradients critic grads, Some info_c)
    else (critic, None) in
  Some ((rng_key, new_actor, new_critic), ((info_a, info_c), seeds)).

Definition update_parameters_seeded `{Collaborators} (self : PPO)
    (rng_key : PRNGKey) (actor critic : Model)
    (update_actor update_critic : bool) (update_iters num_envs batch_size : nat)
    (buffer : TimeStep Act Obs arr2)
    : option (Model * Model * list (option Info * option Info)
              * list PRNGKey) :=
  let sampler :=
    {| buffer := buffer;
       buffer_size := length (action buffer);
       num_envs := num_envs |} in
  let update_init := (rng_key, actor, critic) in
  r <- scan_length
         (update_step_fn_seeded self sampler update_actor update_critic
            batch_size)
         update_init update_iters ;;
  let '(carry, update_aux) := r in
  let '(_, actor, critic) := carry in
  Some (actor, critic, map fst update_aux, concat (map snd update_aux)).

Definition collect_buffer_seeded `{Collaborators} (self : PPO)
    (st : LoopState (loop self)) (rng_key : PRNGKey)
    (rollout_steps_per_env : Z) (num_envs : nat)
    (apply_fn : PRNGKey -> StepIn -> StepOut)
    : option (TimeStep Act Obs arr2) * LoopState (loop self) * list PRNGKey :=
  match split_n rng_key (num_envs + 1) with
  | [] => (None, st, [])
  | rng_key :: env_rng_keys =>
      let '(buffer, st') :=
        rollout (loop self) st env_rng_keys apply_fn
                (rollout_steps_per_env + 1)%Z in
      (assemble_buffer (cfg self) buffer, st', env_rng_keys)
  end.

Definition train_step_seeded `{Collaborators} (self : PPO)
    (st : LoopState (loop self)) (rng_key : PRNGKey)
    (update_iters : nat) (rollout_steps_per_env : Z) (num_envs : nat)
    (actor critic : Model)
    (apply_fn : PRNGKey -> Model -> Model -> StepIn -> StepOut)
    (batch_size : nat)
    : option (Model * Model
              * (TimeStep Act Obs arr2 * list (option Info * option Info)))
      * LoopState (loop self) * list PRNGKey :=
  let '(rng_key, buffer_rng_key) := split rng_key in
  let apply_fn_wrapped := fun rng_key obs => apply_fn rng_key actor critic obs in
  let '(collected, st', env_seeds) :=
    collect_buffer_seeded self st buffer_rng_key rollout_steps_per_env num_envs
                          apply_fn_wrapped in
  match collected with
  | None => (None, st', env_seeds)
  | Some buffer =>
      match update_parameters_seeded self rng_key actor critic true true
                                     update_iters num_envs batch_size buffer with
      | None => (None, st', env_seeds)
      | Some (actor, critic, update_aux, seeds) =>
          (Some (actor, critic, (buffer, update_aux)), st', env_seeds ++ seeds)
      end
  end.

Fixpoint train_seeded `{Collaborators} (self : PPO) (st : LoopState (loop self))
    (update_iters : nat) (steps_per_epoch : Z) (num_envs : nat)
    (rng_key : PRNGKey) (epochs : nat) (ac : Model * Model) (batch_size : nat)
    : option (list (Model * Model) * list PRNGKey) :=
  let apply_fn := fun rng_key actor critic obs =>
                    ac_step rng_key actor critic obs in
  match epochs with
  | O => Some ([], [])
  | S epochs' =>
      let '(rng_key, train_rng_key) := split rng_key in
      match train_step_seeded self st train_rng_key update_iters
                              steps_per_epoch num_envs (fst ac) (snd ac)
                              apply_fn batch_size with
      | (None, _, _) => None
      | (Some (actor, critic, aux), st', seeds) =>
          rest <- train_seeded self st' update_iters steps_per_epoch num_envs
                               rng_key epochs' (actor, critic) batch_size ;;
          let '(history, later) := rest in
          Some ((actor, critic) :: history, seeds ++ later)
      end
  end.

(** ** A small concrete world

    Keys are paths in the tree of splits, a model is one integer parameter,
    and the environment is a grid world whose loop state counts the steps
    that were rolled out. It serves to run the definitions above. *)

Module Toy.

Definition key : Type := list nat.

Definition key_split (k : key) : key * key := (k ++ [0%nat], k ++ [1%nat]).

Definition key_split_n (k : key) (n : nat) : list key :=
  map (fun i => k ++ [i]) (seq 0 n).

Definition key_randint (k : key) (n : nat) (lo hi : Z) : list Z :=
  map (fun i => (lo + Z.of_nat (i + list_sum k) mod (hi - lo))%Z) (seq 0 n).

#[export] Instance world : Collaborators := {|
  PRNGKey := key;
  split := key_split;
  split_n := key_split_n;
  randint := key_randint;
  Act := nat;
  Obs := nat;
  Model := Z;
  Grads := Z;
  Info := nat;
  actor_loss_grad := fun _ _ batch =>
    (Z.of_nat (length (action batch)), length (action batch));
  critic_loss_grad := fun _ batch =>
    (Z.of_nat (length (env_obs batch)), length (env_obs batch));
  apply_gradients := fun m g => (m - g)%Z;
  StepIn := nat;
  StepOut := nat;
  ac_step := fun _ _ _ obs => obs
|}.

(** A [(T, E)] array with the same cell everywhere. *)
Definition full {A : Type} (T E : nat) (x : A) : arr2 A :=
  repeat (repeat x E) T.

(** A rollout that yields reward [r] and value [v] in every cell and never
    ends an episode. *)
Definition grid_rollout (r v : R) (st : nat) (keys : list key)
    (apply_fn : key -> nat -> nat) (steps : Z)
    : TimeStep nat nat arr2 * nat :=
  let T := Z.to_nat steps in
  let E := length keys in
  ({| log_p := full T E 0;
      action := full T E (apply_fn [] 0%nat);
      env_obs := full T E 0%nat;
      adv := full T E 0;
      reward := full T E r;
      ret := full T E 0;
      value := full T E v;
      done := full T E false;
      ep_len := full T E 0%Z |},
   (st + T)%nat).

Definition grid_loop (r v : R) : Loop :=
  {| LoopState := nat; rollout := grid_rollout r v |}.

(** The same environment behind a loop that keeps no state of its own. *)
Definition plain_loop (r v : R) : Loop :=
  {| LoopState := unit;
     rollout := fun _ keys apply_fn steps =>
                  (fst (grid_rollout r v 0%nat keys apply_fn steps), tt) |}.

(** A 2 x 2 buffer whose cells are numbered, and a sampler over it. *)
Definition numbered_buffer : TimeStep nat nat arr2 :=
  {| log_p := [[0; 1]; [2; 3]];
     action := [[0; 1]; [2; 3]]%nat;
     env_obs := [[0; 1]; [2; 3]]%nat;
     adv := [[0; 1]; [2; 3]];
     reward := [[0; 1]; [2; 3]];
     ret := [[0; 1]; [2; 3]];
     value := [[0; 1]; [2; 3]];
     done := [[false; false]; [false; true]];
     ep_len := [[0; 1]; [2; 3]]%Z |}.

Definition numbered_sampler : BufferSampler :=
  {| buffer := numbered_buffer; buffer_size := 2; num_envs := 2 |}.

(** A [(T, E)] array whose cell [(t, e)] is [f t e]. *)
Definition table {A : Type} (T E : nat) (f : nat -> nat -> A) : arr2 A :=
  map (fun t => map (f t) (seq 0 E)) (seq 0 T).

(** A rollout whose cells differ: the reward at [(t, e)] is [t + e], the
    value is [10 t + e], and every episode lasts two steps. *)
Definition episodic_rollout (st : nat) (keys : list key)
    (apply_fn : key -> nat -> nat) (steps : Z)
    : TimeStep nat nat arr2 * nat :=
  let T := Z.to_nat steps in
  let E := length keys in
  ({| log_p := full T E 0;
      action := full T E (apply_fn [] 0%nat);
      env_obs := table T E (fun t e => (t + e)%nat);
      adv := full T E 0;
      reward := table T E (fun t e => INR (t + e));
      ret := full T E 0;
      value := table T E (fun t e => INR (10 * t + e));
      done := table T E (fun t _ => Nat.odd t);
      ep_len := table T E (fun t _ => Z.of_nat (t mod 2 + 1)) |},
   (st + T)%nat).

Definition episodic_loop : Loop :=
  {| LoopState := nat; rollout := episodic_rollout |}.

Definition episodic_agent (normalize : bool) : PPO :=
  PPO_init episodic_loop true
    (mkPPOConfigArgs (Some normalize) None None None None None None None
                     None None).

Definition agent (normalize : bool) (r v : R) : PPO :=
  PPO_init (grid_loop r v) true
    (mkPPOConfigArgs (Some normalize) None None None None None None None
                     None None).

Definition plain_agent (normalize : bool) (r v : R) : PPO :=
  PPO_init (plain_loop r v) true
    (mkPPOConfigArgs (Some normalize) None None None None None None None
                     None None).

End Toy.

(** ** The advantage estimator as the specification words it

    [delta[t] = rewards[t] + gamma * values[t+1] * (1 - dones[t]) - values[t]]
    and [gae[t] = delta[t] + gamma * lambda * (1 - dones[t]) * gae[t+1]] with
    [gae[N] = 0]. [gae_from k t] is [gae[t]] when [k = N - t] steps remain. *)

Module GaeSpec.

Section Trajectory.

Variables (rewards : list R) (dones : list bool) (values : list R).
Variables (gamma lambda : R).

Definition not_done (t : nat) : R := 1 - Jnp.of_bool (nth t dones false).

Definition delta (t : nat) : R :=
  nth t rewards 0 + gamma * nth (S t) values 0 * not_done t - nth t values 0.

Fixpoint gae_from (k t : nat) : R :=
  match k with
  | O => 0
  | S k' => delta t + gamma * lambda * not_done t * gae_from k' (S t)
  end.

Definition gae (t : nat) : R := gae_from (length rewards - t) t.

Definition advantages : list R := map gae (seq 0 (length rewards)).

End Trajectory.

(** The discounted sum of the [k] rewards from step [t] on:
    [rewards[t] + gamma * rewards[t+1] + ... + gamma^(k-1) * rewards[t+k-1]]. *)
Fixpoint discounted (gamma : R) (rewards : list R) (k t : nat) : R :=
  match k with
  | O => 0
  | S k' => nth t rewards 0 + gamma * discounted gamma rewards k' (S t)
  end.

(** The same recursion on every environment column of arrays of shape
    [(N, E)] (and [(N + 1, E)] for the values), stacked back to [(N, E)]. *)
Definition advantages2 (rewards : list (list R)) (dones : list (list bool))
    (values : list (list R)) (gamma lambda : R) (N E : nat) : list (list R) :=
  Jnp.stack_axis1 N
    (map (fun e =>
            advantages (Jnp.column 0 rewards e) (Jnp.column false dones e)
                       (Jnp.column 0 values e) gamma lambda)
         (seq 0 E)).

End GaeSpec.

(** ** Vocabulary of the statements about the sampler and the update loop *)

(** [a[t, e]] for coordinates in range. *)
Definition cell {A : Type} (a : arr2 A) (te : Z * Z) : option A :=
  row <- nth_error a (Z.to_nat (fst te)) ;;
  nth_error row (Z.to_nat (snd te)).

(** [out] lists the cells of [a] at the coordinates [ids], in order. *)
Definition picks {A : Type} (a : arr2 A) (ids : list (Z * Z)) (out : list A)
  : Prop :=
  Forall2 (fun te x => cell a te = Some x) ids out.

(** Every field of [batch] lists the cells of the same field of [b] at the
    coordinates [ids]. *)
Definition batch_picks {Act Obs : Type} (b : TimeStep Act Obs arr2)
    (ids : list (Z * Z)) (batch : TimeStep Act Obs arr1) : Prop :=
  (picks (log_p b) ids (log_p batch) /\ picks (action b) ids (action batch)
   /\ picks (env_obs b) ids (env_obs batch))
  /\ (picks (adv b) ids (adv batch) /\ picks (reward b) ids (reward batch)
      /\ picks (ret b) ids (ret batch))
  /\ (picks (value b) ids (value batch) /\ picks (done b) ids (done batch)
      /\ picks (ep_len b) ids (ep_len batch)).

(** Every field of a batch has leading dimension [k]. *)
Definition batch_length {Act Obs : Type} (batch : TimeStep Act Obs arr1)
    (k : nat) : Prop :=
  (length (log_p batch) = k /\ length (action batch) = k
   /\ length (env_obs batch) = k)
  /\ (length (adv batch) = k /\ length (reward batch) = k
      /\ length (ret batch) = k)
  /\ (length (value batch) = k /\ length (done batch) = k
      /\ length (ep_len batch) = k).

(** The array [a] has at least [T] rows, all of [E] columns. *)
Definition covers {A : Type} (T E : nat) (a : arr2 A) : bool :=
  Nat.leb T (length a) && Jnp.has_cols E a.

(** The sampler was built with a [buffer_size] and a [num_envs] that its
    buffer covers, and both are positive. *)
Definition sampler_covers `{Collaborators} (self : BufferSampler) : bool :=
  let T := buffer_size self in
  let E := num_envs self in
  let b := buffer self in
  Nat.ltb 0 T && Nat.ltb 0 E
  && covers T E (log_p b) && covers T E (action b) && covers T E (env_obs b)
  && covers T E (adv b) && covers T E (reward b) && covers T E (ret b)
  && covers T E (value b) && covers T E (done b) && covers T E (ep_len b).

(** What [jax.random.randint] promises: [n] draws, each in
    [[minval, maxval)] when that interval is not empty. *)
Definition randint_contract `{Collaborators} : Prop :=
  forall key n lo hi,
    length (randint key n lo hi) = n
    /\ ((lo < hi)%Z -> Forall (fun x => (lo <= x < hi)%Z) (randint key n lo hi)).

(** One inner step of the update loop, from the carry [s] to the carry
    [s']: the key is split, the batch is sampled with the second half, and
    each model that is to be updated takes a gradient step at its current
    parameters on that batch. *)
Definition inner_step `{Collaborators} (self : PPO) (sampler : BufferSampler)
    (update_actor update_critic : bool) (batch_size : nat)
    (s s' : PRNGKey * Model * Model) : Prop :=
  let '(rng_key, actor, critic) := s in
  exists batch,
    sample_random_batch sampler (snd (split rng_key)) batch_size = Some batch
    /\ s' = (fst (split rng_key),
             if update_actor
             then apply_gradients actor
                    (fst (actor_loss_grad (clip_ratio (cfg self)) actor batch))
             else actor,
             if update_critic
             then apply_gradients critic (fst (critic_loss_grad critic batch))
             else critic).

(** [n] inner steps in sequence, each from the carry the previous one
    produced. *)
Inductive inner_steps `{Collaborators} (self : PPO) (sampler : BufferSampler)
    (update_actor update_critic : bool) (batch_size : nat)
  : nat -> PRNGKey * Model * Model -> PRNGKey * Model * Model -> Prop :=
| inner_steps_done : forall s,
    inner_steps self sampler update_actor update_critic batch_size O s s
| inner_steps_next : forall n s s' s'',
    inner_step self sampler update_actor update_critic batch_size s s' ->
    inner_steps self sampler update_actor update_critic batch_size n s' s'' ->
    inner_steps self sampler update_actor update_critic batch_size (S n) s s''.

(** Two loops behave identically from two states related by [same]: the
    same rollout request returns the same buffer and leaves them in related
    states again. *)
Definition same_behavior `{Collaborators} (l1 l2 : Loop)
    (same : LoopState l1 -> LoopState l2 -> Prop) : Prop :=
  forall s1 s2 keys apply_fn steps,
    same s1 s2 ->
    fst (rollout l1 s1 keys apply_fn steps)
    = fst (rollout l2 s2 keys apply_fn steps)
    /\ same (snd (rollout l1 s1 keys apply_fn steps))
            (snd (rollout l2 s2 keys apply_fn steps)).

(** One step from a key to a key split off it: the first or the second half
    of [jax.random.split(key)], or key [i] of [jax.random.split(key, num)]. *)
Inductive hop : Type :=
| Half (second : bool)
| Nth (num i : nat).

Definition hop_key `{Collaborators} (k : PRNGKey) (h : hop) : PRNGKey :=
  match h with
  | Half false => fst (split k)
  | Half true => snd (split k)
  | Nth num i => nth i (split_n k num) k
  end.

(** The key split off [root] along a path of hops. *)
Definition derive `{Collaborators} (root : PRNGKey) (path : list hop)
  : PRNGKey :=
  fold_left hop_key path root.

(** Every path of [paths] goes through [p]. *)
Definition below (p : list hop) (paths : list (list hop)) : Prop :=
  Forall (fun path => exists q, path = p ++ q) paths.

(** [jax.random.split(key, num)] returns [num] keys. *)
Definition split_n_contract `{Collaborators} : Prop :=
  forall k n, length (split_n k n) = n.

(** The loop returns, for a rollout of [n + 1] steps over [E] keys, a buffer
    of shape [(n + 1, E)]. *)
Definition rollout_shape `{Collaborators} (l : Loop) (n E : nat) : Prop :=
  forall st keys apply_fn,
    length keys = E ->
    buffer_has_shape (S n) E
      (fst (rollout l st keys apply_fn (Z.of_nat n + 1)%Z)) = true.

(** ** ppo.py: the statistics [train] prints after an epoch *)

(** [a[mask]] for a boolean mask of the shape of [a]: the selected cells in
    row-major order. A mask of another shape raises. *)
Fixpoint mask_row {A : Type} (row : list A) (mask : list bool)
  : option (list A) :=
  match row, mask with
  | [], [] => Some []
  | x :: row', m :: mask' =>
      rest <- mask_row row' mask' ;;
      Some (if m then x :: rest else rest)
  | _, _ => None
  end.

Fixpoint mask_select {A : Type} (a : arr2 A) (mask : arr2 bool)
  : option (list A) :=
  match a, mask with
  | [], [] => Some []
  | row :: a', m :: mask' =>
      sel <- mask_row row m ;;
      rest <- mask_select a' mask' ;;
      Some (sel ++ rest)
  | _, _ => None
  end.

(** [a.mean()] of a NumPy selection: nan when nothing was selected. *)
Definition mean_or_nan (a : list R) : Ieee.float :=
  match a with
  | [] => Ieee.NaN
  | _ :: _ => Ieee.Fin (Jnp.mean a)
  end.

(** The dictionary [info] of [train]: [ep_lens] and [ep_rets], the means of
    [buffer.ep_len] and of [buffer.ret] over the cells where [buffer.done]
    holds, computed on the buffer [train_step] returned. *)
Definition epoch_info {Act Obs : Type} (buffer : TimeStep Act Obs arr2)
  : option (Ieee.float * Ieee.float) :=
  let episode_ends := done buffer in
  lens <- mask_select (ep_len buffer) episode_ends ;;
  rets <- mask_select (ret buffer) episode_ends ;;
  Some (mean_or_nan (map IZR lens), mean_or_nan rets).

(** ** logger.py: class Logger

    The logger keeps the values it is given in dictionaries, which remember
    the order of insertion, and talks to the outside (the checkpoint
    callback [save_fn], the terminal, TensorBoard, wandb, the warning
    machinery) through calls that are recorded here as a list of events.
    Stored values are scalars, as the docstring of [store] has it. The
    constructor, [save_config], [close], [print] and [pretty_print_table]
    only act on the file system and the terminal and are not modelled. *)

Module LoggerPy.

Import String Ascii.

(** A Python [dict] with string keys: the entries in insertion order,
    without repeated keys. *)
Definition dict (V : Type) : Type := list (string * V).

Fixpoint dget {V : Type} (k : string) (d : dict V) : option V :=
  match d with
  | [] => None
  | (k', v) :: d' => if String.eqb k k' then Some v else dget k d'
  end.

(** [d[k] = v]: an existing key keeps its place, a new key goes last. *)
Fixpoint dset {V : Type} (k : string) (v : V) (d : dict V) : dict V :=
  match d with
  | [] => [(k, v)]
  | (k', v') :: d' =>
      if String.eqb k k' then (k, v) :: d' else (k', v') :: dset k v d'
  end.

Definition keys {V : Type} (d : dict V) : list string := map fst d.

Inductive exn : Type := KeyError | AttributeError | TypeError | ValueError.

Inductive result (A : Type) : Type :=
| Returned (a : A)
| Raised (e : exn).

Arguments Returned {A} a.
Arguments Raised {A} e.

(** What is stored under a tag and a key: the list that [append=True]
    builds, or the value that [append=False] puts. *)
Inductive stored : Type :=
| Many (vals : list R)
| One (v : R).

Record BestStat : Type := mkBestStat { val : R; step : Z }.

(** The attributes of the logger that its methods use after construction.
    [save_fn] is [None] or a callable, which may itself raise. *)
Record Logger : Type := mkLogger {
  wandb : bool;
  tensorboard : bool;
  start_step : Z;
  last_log_step : Z;
  model_path : string;
  data : dict (dict stored);
  stats : dict R;
  best_stats : dict BestStat;
  best_stats_cfg : dict Z;
  save_fn : option (string -> option exn)
}.

Definition with_data (self : Logger) (d : dict (dict stored)) : Logger :=
  mkLogger (wandb self) (tensorboard self) (start_step self)
           (last_log_step self) (model_path self) d (stats self)
           (best_stats self) (best_stats_cfg self) (save_fn self).

(** [self.data[tag]] on the [defaultdict]: a missing tag is inserted with an
    empty dictionary. *)
Definition touch (tag : string) (d : dict (dict stored))
  : dict (dict stored) * dict stored :=
  match dget tag d with
  | Some entries => (d, entries)
  | None => (dset tag [] d, [])
  end.

(** The loop of [store] over [kwargs.items()]. Appending to a value that is
    not a list raises [AttributeError]; what was stored before that stays. *)
Fixpoint store_items (tag : string) (append : bool) (kwargs : list (string * R))
    (d : dict (dict stored)) : dict (dict stored) * result unit :=
  match kwargs with
  | [] => (d, Returned tt)
  | (k, v) :: rest =>
      let '(d, entries) := touch tag d in
      if append then
        match dget k entries with
        | Some (Many vals) =>
            store_items tag append rest
              (dset tag (dset k (Many (vals ++ [v])) entries) d)
        | Some (One _) => (d, Raised AttributeError)
        | None =>
            store_items tag append rest
              (dset tag (dset k (Many [v]) entries) d)
        end
      else
        store_items tag append rest (dset tag (dset k (One v) entries) d)
  end.

Definition store (self : Logger) (tag : string) (append : bool)
    (kwargs : list (string * R)) : Logger * result unit :=
  let '(d, r) := store_items tag append kwargs (data self) in
  (with_data self d, r).

(** [get_data()]: one dictionary with the keys [tag/k]. *)
Definition flatten (d : dict (dict stored)) : dict stored :=
  fold_left
    (fun data_dict '(tag, entries) =>
       fold_left
         (fun data_dict '(k, v) => dset (tag ++ "/" ++ k) v data_dict)
         entries data_dict)
    d [].

(** [get_data(tag)]: all the data when [tag] is [None], the dictionary of
    the tag otherwise. *)
Definition get_data (self : Logger) (tag : option string)
  : Logger * dict stored :=
  match tag with
  | None => (self, flatten (data self))
  | Some t =>
      let '(d, entries) := touch t (data self) in
      (with_data self d, entries)
  end.

(** What [log] does outside the logger. *)
Inductive event : Type :=
| Warned (step last : Z)
| Saved (path : string)
| Printed (name : string) (step : Z) (scalar : R)
| TbScalar (name : string) (scalar : R) (global_step : Z)
| WbLog (key_vals : dict R) (global_step : Z).

Definition Rltb (a b : R) : bool := if Rlt_dec a b then true else false.

(** [name.replace("/", "_")]. *)
Fixpoint replace_slash (s : string) : string :=
  match s with
  | EmptyString => EmptyString
  | String c s' =>
      String (if Ascii.eqb c "/"%char then "_"%char else c) (replace_slash s')
  end.

Definition starts_with_slash (s : string) : bool :=
  match s with
  | String c _ => Ascii.eqb c "/"%char
  | EmptyString => false
  end.

Fixpoint ends_with_slash (s : string) : bool :=
  match s with
  | EmptyString => false
  | String c EmptyString => Ascii.eqb c "/"%char
  | String _ s' => ends_with_slash s'
  end.

(** [os.path.join(a, b)] on a POSIX system. *)
Definition osp_join (a b : string) : string :=
  if starts_with_slash b then b
  else if String.eqb a "" || ends_with_slash a then a ++ b
  else a ++ "/" ++ b.

(** [np.min] and [np.max], which raise on an empty array. *)
Definition np_min (vals : list R) : option R :=
  match vals with
  | [] => None
  | x :: xs => Some (fold_left Rmin xs x)
  end.

Definition np_max (vals : list R) : option R :=
  match vals with
  | [] => None
  | x :: xs => Some (fold_left Rmax xs x)
  end.

(** The dictionary [key_vals] that [log] builds for one key of one tag. The
    stored values are floats, read as exact reals: the sum does not round,
    and a list of Python integers, which NumPy would add up as [int64], is
    not represented. *)
Definition key_vals_of (tag k : string) (v : stored) : result (dict R) :=
  match v with
  | Many vals =>
      let n := INR (List.length vals) in
      let vals_sum := Jnp.sum vals in
      let avg := vals_sum / n in
      let sum_sq := Jnp.sum (map (fun x => (x - avg) ^ 2) vals) in
      let std := sqrt (sum_sq / n) in
      match np_min vals, np_max vals with
      | Some minv, Some maxv =>
          Returned [((tag ++ "/" ++ k ++ "_avg")%string, avg);
                    ((tag ++ "/" ++ k ++ "_std")%string, std);
                    ((tag ++ "/" ++ k ++ "_min")%string, minv);
                    ((tag ++ "/" ++ k ++ "_max")%string, maxv)]
      | _, _ => Raised ValueError
      end
  | One x => Returned [((tag ++ "/" ++ k)%string, x)]
  end.

(** What [log] changes while it runs, and the events so far. *)
Record LogState : Type := mkLogState {
  ls_best : dict BestStat;
  ls_stats : dict R;
  ls_events : list event
}.

Definition emit (s : LogState) (e : event) : LogState :=
  mkLogState (ls_best s) (ls_stats s) (ls_events s ++ [e]).

(** [(sort_order == 1 and prev_val < scalar) or
     (sort_order == -1 and prev_val > scalar)]. *)
Definition improves (sort_order : Z) (prev_val scalar : R) : bool :=
  (Z.eqb sort_order 1 && Rltb prev_val scalar)
  || (Z.eqb sort_order (-1) && Rltb scalar prev_val).

(** The body of the loop over [key_vals.items()], up to the call of
    [save_fn]: the best value is recorded before the checkpoint is saved. *)
Definition track_best (self : Logger) (step : Z) (s : LogState)
    (name : string) (scalar : R) : LogState * result unit :=
  match dget name (best_stats_cfg self) with
  | None => (s, Returned tt)
  | Some sort_order =>
      let update_val :=
        match dget name (ls_best s) with
        | None => true
        | Some prev => improves sort_order (val prev) scalar
        end in
      if update_val then
        let s :=
          mkLogState (dset name (mkBestStat scalar step) (ls_best s))
                     (ls_stats s) (ls_events s) in
        let path :=
          osp_join (model_path self)
                   ("best_" ++ replace_slash name ++ "_ckpt.jx") in
        match save_fn self with
        | None => (s, Raised TypeError)
        | Some f =>
            let s := emit s (Saved path) in
            match f path with
            | Some e => (s, Raised e)
            | None => (emit s (Printed name step scalar), Returned tt)
            end
        end
      else (s, Returned tt)
  end.

Definition log_scalar (self : Logger) (step : Z) (local_only : bool)
    (s : LogState) (item : string * R) : LogState * result unit :=
  let '(name, scalar) := item in
  let '(s, r) := track_best self step s name scalar in
  match r with
  | Raised e => (s, Raised e)
  | Returned _ =>
      let s :=
        if tensorboard self && negb local_only
        then emit s (TbScalar name scalar (start_step self + step)%Z)
        else s in
      (mkLogState (ls_best s) (dset name scalar (ls_stats s)) (ls_events s),
       Returned tt)
  end.

Fixpoint log_scalars (self : Logger) (step : Z) (local_only : bool)
    (s : LogState) (items : dict R) : LogState * result unit :=
  match items with
  | [] => (s, Returned tt)
  | item :: items' =>
      let '(s, r) := log_scalar self step local_only s item in
      match r with
      | Raised e => (s, Raised e)
      | Returned _ => log_scalars self step local_only s items'
      end
  end.

(** The body of the loop over [data_dict.items()]. *)
Definition log_entry (self : Logger) (step : Z) (local_only : bool)
    (tag : string) (s : LogState) (entry : string * stored)
  : LogState * result unit :=
  let '(k, v) := entry in
  match key_vals_of tag k v with
  | Raised e => (s, Raised e)
  | Returned key_vals =>
      let '(s, r) := log_scalars self step local_only s key_vals in
      match r with
      | Raised e => (s, Raised e)
      | Returned _ =>
          (if wandb self && negb local_only
           then emit s (WbLog key_vals (start_step self + step)%Z)
           else s,
           Returned tt)
      end
  end.

Fixpoint log_entries (self : Logger) (step : Z) (local_only : bool)
    (tag : string) (s : LogState) (entries : dict stored)
  : LogState * result unit :=
  match entries with
  | [] => (s, Returned tt)
  | entry :: entries' =>
      let '(s, r) := log_entry self step local_only tag s entry in
      match r with
      | Raised e => (s, Raised e)
      | Returned _ => log_entries self step local_only tag s entries'
      end
  end.

(** The loop over [self.data.keys()]. *)
Fixpoint log_tags (self : Logger) (step : Z) (local_only : bool)
    (s : LogState) (d : dict (dict stored)) : LogState * result unit :=
  match d with
  | [] => (s, Returned tt)
  | (tag, entries) :: d' =>
      let '(s, r) := log_entries self step local_only tag s entries in
      match r with
      | Raised e => (s, Raised e)
      | Returned _ => log_tags self step local_only s d'
      end
  end.

(** [log(step, local_only)]: the logger afterwards, the events in order, and
    the dictionary [self.stats] it returns unless something raised. *)
Definition log (self : Logger) (step : Z) (local_only : bool)
  : Logger * list event * result (dict R) :=
  let warned :=
    if (step <? last_log_step self)%Z
    then [Warned step (last_log_step self)] else [] in
  let '(s, r) :=
    log_tags self step local_only
             (mkLogState (best_stats self) (stats self) warned) (data self) in
  let self' :=
    mkLogger (wandb self) (tensorboard self) (start_step self) step
             (model_path self) (data self) (ls_stats s) (ls_best s)
             (best_stats_cfg self) (save_fn self) in
  (self', ls_events s,
   match r with
   | Raised e => Raised e
   | Returned _ => Returned (ls_stats s)
   end).

Definition reset (self : Logger) : Logger :=
  mkLogger (wandb self) (tensorboard self) (start_step self)
           (last_log_step self) (model_path self) [] []
           (best_stats self) (best_stats_cfg self) (save_fn self).

(** The dictionary [_state_dict] returns and [load] reads; a key may be
    missing from what [load] is given. *)
Record StateDict : Type := mkStateDict {
  sd_best_stats : option (dict BestStat);
  sd_last_log_step : option Z
}.

Definition _state_dict (self : Logger) : StateDict :=
  mkStateDict (Some (best_stats self)) (Some (last_log_step self)).

Definition load (self : Logger) (d : StateDict) : Logger * result unit :=
  match sd_best_stats d with
  | None => (self, Raised KeyError)
  | Some best =>
      let self :=
        mkLogger (wandb self) (tensorboard self) (start_step self)
                 (last_log_step self) (model_path self) (data self)
                 (stats self) best (best_stats_cfg self) (save_fn self) in
      match sd_last_log_step d with
      | None => (self, Raised KeyError)
      | Some last =>
          (mkLogger (wandb self) (tensorboard self) (start_step self) last
                    (model_path self) (data self) (stats self)
                    (best_stats self) (best_stats_cfg self) (save_fn self),
           Returned tt)
      end
  end.

(** The attributes [__init__] sets: [start_step] and [last_log_step] are 0,
    the paths are joined from [workspace] and [exp_name], and [data],
    [stats] and [best_stats] are empty. (The directories it creates and the
    external loggers it starts are not represented.) *)
Definition init_attributes (wandb tensorboard : bool)
    (workspace exp_name : string) (best_stats_cfg : dict Z)
    (save_fn : option (string -> option exn)) : Logger :=
  let exp_path := osp_join workspace exp_name in
  mkLogger wandb tensorboard 0 0 (osp_join exp_path "models") [] [] []
           best_stats_cfg save_fn.

(** *** Vocabulary of the statements about the logger *)

(** [self.data[tag][k]], without the side effect of the [defaultdict]. *)
Definition lookup2 (tag k : string) (d : dict (dict stored)) : option stored :=
  match dget tag d with
  | Some entries => dget k entries
  | None => None
  end.

(** No key occurs twice, here and in the inner dictionaries. *)
Definition wf_data (d : dict (dict stored)) : Prop :=
  NoDup (keys d)
  /\ forall tag entries, In (tag, entries) d -> NoDup (keys entries).

Fixpoint has_slash (s : string) : bool :=
  match s with
  | EmptyString => false
  | String c s' => Ascii.eqb c "/"%char || has_slash s'
  end.

(** Every list that is stored has an element. *)
Definition lists_nonempty (d : dict (dict stored)) : Prop :=
  forall tag entries k, In (tag, entries) d -> ~ In (k, Many []) entries.

(** [b] is at least as good as [x] for the order [sort_order]: logging [x]
    would not replace [b]. *)
Definition covers_value (sort_order : Z) (b : BestStat) (x : R) : Prop :=
  improves sort_order (val b) x = false.

(** Every statistic in [stats] that [best_stats_cfg] tracks has a recorded
    best that is at least as good. *)
Definition best_covers_stats (cfg : dict Z) (best : dict BestStat)
    (stats : dict R) : Prop :=
  forall name sort_order x,
    dget name cfg = Some sort_order ->
    dget name stats = Some x ->
    exists b, dget name best = Some b /\ covers_value sort_order b x.

(** The list stored under a key, empty when the key is not there. *)
Definition previous (tag k : string) (d : dict (dict stored)) : list R :=
  match lookup2 tag k d with
  | Some (Many vals) => vals
  | _ => []
  end.

(** [self.data[tag][k] = v], with the insertion of a missing tag. *)
Definition put (tag k : string) (v : stored) (d : dict (dict stored))
  : dict (dict stored) :=
  dset tag (dset k v (snd (touch tag d))) (fst (touch tag d)).

(** The named scalars [log] goes through, in order, for data whose lists
    all have an element. *)
Definition items_of (tag : string) (entry : string * stored) : dict R :=
  match key_vals_of tag (fst entry) (snd entry) with
  | Returned key_vals => key_vals
  | Raised _ => []
  end.

Definition all_items (d : dict (dict stored)) : dict R :=
  flat_map (fun te => flat_map (items_of (fst te)) (snd te)) d.

(** Every entry of the data has its [key_vals]: no list is empty. *)
Definition entries_ok (d : dict (dict stored)) : Prop :=
  forall tag entries k v,
    In (tag, entries) d -> In (k, v) entries ->
    exists key_vals, key_vals_of tag k v = Returned key_vals.

(** If the scalar of [item] is tracked, the recorded best covers it. *)
Definition covered (cfg : dict Z) (best : dict BestStat) (item : string * R)
  : Prop :=
  forall so, dget (fst item) cfg = Some so ->
    exists b, dget (fst item) best = Some b /\ covers_value so b (snd item).

(** The scalar of [item] is tracked by [best_stats_cfg]. *)
Definition tracked (cfg : dict Z) (item : string * R) : bool :=
  match dget (fst item) cfg with
  | Some _ => true
  | None => false
  end.

(** One of the [items] is recorded as a best value of [step]. *)
Definition recorded (step : Z) (s : LogState) (items : dict R) : Prop :=
  exists name x,
    In (name, x) items
    /\ dget name (ls_best s) = Some (mkBestStat x step).

Definition is_save (e : event) : bool :=
  match e with
  | Saved _ => true
  | _ => false
  end.

Definition is_external (e : event) : bool :=
  match e with
  | TbScalar _ _ _ | WbLog _ _ => true
  | _ => false
  end.

(** [stats[name] = scalar] for each of the [items], in order. *)
Definition write_items (items : dict R) (st : dict R) : dict R :=
  fold_left (fun st item => dset (fst item) (snd item) st) items st.

(** The four statistics of a list that holds the one value [snd kv]. *)
Definition once_stats (tag : string) (kv : string * R) : dict R :=
  [((tag ++ "/" ++ fst kv ++ "_avg")%string, snd kv);
   ((tag ++ "/" ++ fst kv ++ "_std")%string, 0);
   ((tag ++ "/" ++ fst kv ++ "_min")%string, snd kv);
   ((tag ++ "/" ++ fst kv ++ "_max")%string, snd kv)].

End LoggerPy.

(** * Properties *)

(** ** Lists and arrays *)

Lemma zip_with_length {A B C : Type} (f : A -> B -> C) xs ys :
  length (Jnp.zip_with f xs ys) = Nat.min (length xs) (length ys).
Proof.
  revert ys; induction xs as [|x xs IH]; intros [|y ys]; simpl; auto.
Qed.

Lemma zip_with_nth {A B C : Type} (f : A -> B -> C) xs ys dx dy d t :
  (t < length xs)%nat -> (t < length ys)%nat ->
  nth t (Jnp.zip_with f xs ys) d = f (nth t xs dx) (nth t ys dy).
Proof.
  revert ys t; induction xs as [|x xs IH]; intros [|y ys] [|t] Hx Hy;
    simpl in *; try lia; auto.
  apply IH; lia.
Qed.

Lemma ew2_same_length {A B C : Type} (f : A -> B -> C) xs ys :
  length xs = length ys -> Jnp.ew2 f xs ys = Some (Jnp.zip_with f xs ys).
Proof.
  intros E. unfold Jnp.ew2. rewrite E, Nat.eqb_refl. reflexivity.
Qed.

Lemma nth_tl {A : Type} (l : list A) d t : nth t (tl l) d = nth (S t) l d.
Proof. destruct l; simpl; auto. destruct t; auto. Qed.

Lemma nth_removelast {A : Type} (l : list A) d t :
  (S t < length l)%nat -> nth t (removelast l) d = nth t l d.
Proof.
  revert t; induction l as [|a l IH]; intros t Ht; simpl in *; [lia|].
  destruct l as [|b l]; simpl in *; [lia|].
  destruct t; auto. apply IH. simpl. lia.
Qed.

Lemma removelast_length {A : Type} (l : list A) :
  length (removelast l) = (length l - 1)%nat.
Proof.
  induction l as [|a l IH]; simpl; auto.
  destruct l; simpl in *; auto. rewrite IH. lia.
Qed.

Lemma get_nonempty {A : Type} (d : A) a t :
  (0 < length a)%nat ->
  Jnp.get a t = Some (nth (Nat.min t (length a - 1)) a d).
Proof. intros Ha. unfold Jnp.get. apply nth_error_nth'. lia. Qed.

Lemma get_empty {A : Type} (t : nat) : Jnp.get (@nil A) t = None.
Proof. unfold Jnp.get. destruct (Nat.min t _); reflexivity. Qed.

Lemma scan_run_of_total {C X Y : Type} (f : C -> X -> option (C * Y))
    (g : C -> X -> C * Y) xs :
  (forall c x, f c x = Some (g c x)) ->
  forall init, Jnp.scan_run f init xs = Some (Jnp.scan_total g init xs).
Proof.
  intros Hfg. induction xs as [|x xs IH]; intros init; [reflexivity|].
  cbn [Jnp.scan_run Jnp.scan_total]. rewrite Hfg. cbn [bind].
  destruct (g init x) as [c y]. rewrite IH. cbn [bind].
  destruct (Jnp.scan_total g c xs) as [c' ys]. reflexivity.
Qed.

(** A scan whose body raises nowhere runs the body over [xs]. *)
Lemma scan_of_total {C X Y : Type} (f : C -> X -> option (C * Y))
    (g : C -> X -> C * Y) init x0 xs :
  (forall c x, f c x = Some (g c x)) ->
  Jnp.scan f init x0 xs = Some (Jnp.scan_total g init xs).
Proof.
  intros Hfg. unfold Jnp.scan. rewrite Hfg. cbn [bind].
  apply scan_run_of_total. exact Hfg.
Qed.

Lemma of_bool_negb b : Jnp.of_bool (negb b) = 1 - Jnp.of_bool b.
Proof. destruct b; simpl; lra. Qed.

(** ** The backward scan of [gae_advantages] *)

Section BackwardScan.

(** One step of the recursion, at index [t] and with the carry [c]. *)
Context {F : Type}.
Variable h : nat -> F -> F.

Lemma unroll_shift m c j t :
    (t + j = m)%nat -> Jnp.unroll h (h m c) j t = Jnp.unroll h c (S j) t.
Proof.
    revert t; induction j as [|j IH]; intros t E; simpl.
    - replace t with m by lia. reflexivity.
    - f_equal. rewrite IH by lia. reflexivity.
Qed.

Lemma scan_backward n c :
    rev (snd (Jnp.scan_total (fun c t => (h t c, h t c)) c (rev (seq 0 n))))
    = map (fun t => Jnp.unroll h c (n - t) t) (seq 0 n).
Proof.
    revert c; induction n as [|m IH]; intros c; [reflexivity|].
    rewrite seq_S, rev_app_distr. simpl rev. simpl app.
    cbn [Jnp.scan_total].
    specialize (IH (h m c)).
    destruct (Jnp.scan_total _ (h m c) (rev (seq 0 m))) as [c' ys].
    cbn [snd] in *. simpl rev.
    rewrite IH, map_app. f_equal.
    - apply map_ext_in. intros t Ht. apply in_seq in Ht.
      replace (S m - t)%nat with (S (m - t)) by lia.
      apply unroll_shift. lia.
    - cbn [map Nat.add]. replace (S m - m)%nat with 1%nat by lia.
      reflexivity.
Qed.

End BackwardScan.

Lemma nth_map_in {A B : Type} (f : A -> B) l d d' t :
  (t < length l)%nat -> nth t (map f l) d = f (nth t l d').
Proof.
  intros Ht. rewrite (nth_indep _ d (f d')) by (rewrite length_map; lia).
  apply map_nth.
Qed.

(** ** gae_advantages on one environment *)

Section GaeEnv.

Variables (rewards : list R) (dones : list bool) (values : list R).
Variables (gamma lambda : R).

Hypothesis dones_shape : length dones = length rewards.
Hypothesis values_shape : length values = S (length rewards).
Hypothesis steps : (0 < length rewards)%nat.

Lemma tl_values_length : length (tl values) = length rewards.
Proof. destruct values; simpl in *; lia. Qed.

(** The array [deltas] of the code holds [delta[t]] of the specification. *)
Lemma deltas_nth t :
  (t < length rewards)%nat ->
  nth t
    (Jnp.zip_with Rplus rewards
       (Jnp.zip_with Rminus
          (Jnp.zip_with (fun x b => x * Jnp.of_bool b)
             (map (Rmult gamma) (Jnp.from1 values)) (map negb dones))
          (Jnp.but_last values))) 0
  = GaeSpec.delta rewards dones values gamma t.
Proof.
  intros Ht. unfold Jnp.from1, Jnp.but_last.
  pose proof tl_values_length as Htl.
  rewrite (zip_with_nth Rplus _ _ 0 0);
    [| lia | rewrite !zip_with_length, !length_map, removelast_length; lia].
  rewrite (zip_with_nth Rminus _ _ 0 0);
    [| rewrite !zip_with_length, !length_map; lia
     | rewrite removelast_length; lia].
  rewrite (zip_with_nth _ _ _ 0 false);
    [| rewrite length_map; lia | rewrite length_map; lia].
  rewrite nth_removelast by lia.
  rewrite (nth_map_in (Rmult gamma) _ 0 0) by lia.
  rewrite (nth_map_in negb _ false false) by lia.
  rewrite nth_tl, of_bool_negb.
  unfold GaeSpec.delta, GaeSpec.not_done. ring.
Qed.

Lemma gae_env_computes :
  gae_advantages_env rewards dones values gamma lambda
  = Some (GaeSpec.advantages rewards dones values gamma lambda).
Proof.
  pose proof tl_values_length as Htl.
  unfold gae_advantages_env, gae_advantages_body. cbn [bind].
  rewrite ew2_same_length by (unfold Jnp.from1; rewrite !length_map; lia).
  cbn [bind].
  rewrite ew2_same_length
    by (unfold Jnp.from1, Jnp.but_last;
        rewrite zip_with_length, !length_map, removelast_length; lia).
  cbn [bind].
  rewrite ew2_same_length
    by (unfold Jnp.from1, Jnp.but_last;
        rewrite !zip_with_length, !length_map, removelast_length; lia).
  cbn [bind]. cbv zeta.
  set (deltas := Jnp.zip_with Rplus rewards _).
  set (not_dones := map negb dones).
  assert (Ld : length deltas = length rewards).
  { unfold deltas, Jnp.from1, Jnp.but_last.
    rewrite !zip_with_length, !length_map, removelast_length. lia. }
  assert (Ln : length not_dones = length rewards)
    by (unfold not_dones; rewrite length_map; lia).
  set (h := fun (t : nat) (c : R) =>
              nth (Nat.min t (length deltas - 1)) deltas 0
              + gamma * lambda
                * Jnp.of_bool
                    (nth (Nat.min t (length not_dones - 1)) not_dones false)
                * c).
  rewrite (scan_of_total _ (fun c t => (h t c, h t c)))
    by (intros c t;
        rewrite (get_nonempty 0 deltas), (get_nonempty false not_dones) by lia;
        reflexivity).
  cbn [bind].
  pose proof (scan_backward h (length rewards) 0) as Hs.
  unfold Jnp.arange.
  destruct (Jnp.scan_total _ 0 (rev (seq 0 (length rewards)))) as [c' ys].
  cbn [snd] in Hs. rewrite Hs. f_equal.
  unfold GaeSpec.advantages. apply map_ext_in. intros t Ht.
  apply in_seq in Ht. unfold GaeSpec.gae.
  assert (G : forall k u, (u + k = length rewards)%nat ->
            Jnp.unroll h 0 k u
            = GaeSpec.gae_from rewards dones values gamma lambda k u).
  { induction k as [|k IH]; intros u Hu; [reflexivity|].
    cbn [Jnp.unroll GaeSpec.gae_from]. rewrite IH by lia.
    unfold h. rewrite !Nat.min_l by lia.
    unfold deltas. rewrite deltas_nth by lia.
    unfold not_dones. rewrite (nth_map_in negb _ false false) by lia.
    rewrite of_bool_negb. reflexivity. }
  apply G. lia.
Qed.

End GaeEnv.

(** The same in any arithmetic: with N >= 1 steps the body returns, and
    entry [t] of the result is N - t backward steps from the initial carry. *)
Section GaeBodyComputes.

Variable F : Type.
Variables fadd fsub fmul : F -> F -> F.
Variable fof_bool : bool -> F.
Variables fzero d : F.
Variables (rewards : list F) (dones : list bool) (values : list F).
Variables gamma lambda : F.

Hypothesis dones_shape : length dones = length rewards.
Hypothesis values_shape : length values = S (length rewards).
Hypothesis steps : (0 < length rewards)%nat.

Lemma body_deltas_nth t :
  (t < length rewards)%nat ->
  nth t
    (Jnp.zip_with fadd rewards
       (Jnp.zip_with fsub
          (Jnp.zip_with (fun x b => fmul x (fof_bool b))
             (map (fmul gamma) (Jnp.from1 values)) (map negb dones))
          (Jnp.but_last values))) d
  = body_delta F fadd fsub fmul fof_bool d rewards dones values gamma t.
Proof.
  intros Ht. unfold Jnp.from1, Jnp.but_last, body_delta.
  assert (Htl : length (tl values) = length rewards)
    by (destruct values; simpl in *; lia).
  rewrite (zip_with_nth fadd _ _ d d);
    [| lia | rewrite !zip_with_length, !length_map, removelast_length; lia].
  rewrite (zip_with_nth fsub _ _ d d);
    [| rewrite !zip_with_length, !length_map; lia
     | rewrite removelast_length; lia].
  rewrite (zip_with_nth _ _ _ d false);
    [| rewrite length_map; lia | rewrite length_map; lia].
  rewrite nth_removelast by lia.
  rewrite (nth_map_in (fmul gamma) _ d d) by lia.
  rewrite (nth_map_in negb _ false false) by lia.
  rewrite nth_tl. reflexivity.
Qed.

Lemma gae_body_computes :
  gae_advantages_body F fadd fsub fmul fof_bool fzero
    rewards dones values gamma lambda
  = Some (map (fun t =>
                 Jnp.unroll
                   (body_step F fadd fsub fmul fof_bool d rewards dones values
                      gamma lambda)
                   fzero (length rewards - t) t)
              (seq 0 (length rewards))).
Proof.
  assert (Htl : length (tl values) = length rewards)
    by (destruct values; simpl in *; lia).
  unfold gae_advantages_body. cbn [bind].
  rewrite ew2_same_length by (unfold Jnp.from1; rewrite !length_map; lia).
  cbn [bind].
  rewrite ew2_same_length
    by (unfold Jnp.from1, Jnp.but_last;
        rewrite zip_with_length, !length_map, removelast_length; lia).
  cbn [bind].
  rewrite ew2_same_length
    by (unfold Jnp.from1, Jnp.but_last;
        rewrite !zip_with_length, !length_map, removelast_length; lia).
  cbn [bind]. cbv zeta.
  set (deltas := Jnp.zip_with fadd rewards _).
  set (not_dones := map negb dones).
  assert (Ld : length deltas = length rewards).
  { unfold deltas, Jnp.from1, Jnp.but_last.
    rewrite !zip_with_length, !length_map, removelast_length. lia. }
  assert (Ln : length not_dones = length rewards)
    by (unfold not_dones; rewrite length_map; lia).
  set (h := fun (t : nat) (c : F) =>
              fadd (nth (Nat.min t (length deltas - 1)) deltas d)
                (fmul
                   (fmul (fmul gamma lambda)
                      (fof_bool
                         (nth (Nat.min t (length not_dones - 1)) not_dones
                            false)))
                   c)).
  rewrite (scan_of_total _ (fun c t => (h t c, h t c)))
    by (intros c t;
        rewrite (get_nonempty d deltas), (get_nonempty false not_dones) by lia;
        reflexivity).
  cbn [bind].
  pose proof (scan_backward h (length rewards) fzero) as Hs.
  unfold Jnp.arange.
  destruct (Jnp.scan_total _ fzero (rev (seq 0 (length rewards)))) as [c' ys].
  cbn [snd] in Hs. rewrite Hs. f_equal.
  apply map_ext_in. intros t Ht. apply in_seq in Ht.
  assert (G : forall k u c, (u + k <= length rewards)%nat ->
            Jnp.unroll h c k u
            = Jnp.unroll
                (body_step F fadd fsub fmul fof_bool d rewards dones values
                   gamma lambda) c k u).
  { induction k as [|k IH]; intros u c Hu; [reflexivity|].
    cbn [Jnp.unroll]. rewrite IH by lia.
    unfold h, body_step. rewrite !Nat.min_l by lia.
    unfold deltas. rewrite body_deltas_nth by lia.
    unfold not_dones. rewrite (nth_map_in negb _ false false) by lia.
    reflexivity. }
  apply G. lia.
Qed.

End GaeBodyComputes.

(** With no step the call raises: [deltas] is empty, and tracing the body of
    the scan indexes it. *)
Lemma gae_env_no_step dones values gamma lambda :
  gae_advantages_env [] dones values gamma lambda = None.
Proof.
  unfold gae_advantages_env, gae_advantages_body. cbn [bind].
  destruct (Jnp.ew2 (fun x b => x * Jnp.of_bool b) _ _) as [gvn|];
    [|reflexivity].
  cbn [bind].
  destruct (Jnp.ew2 Rminus _ _) as [value_diffs|]; [|reflexivity]. cbn [bind].
  destruct (Jnp.ew2 Rplus [] value_diffs) as [deltas|] eqn:Hd; [|reflexivity].
  cbn [bind].
  assert (deltas = []) as ->.
  { unfold Jnp.ew2 in Hd. destruct value_diffs as [|x [|y l]];
      cbn in Hd; congruence. }
  unfold Jnp.scan. rewrite get_empty. reflexivity.
Qed.

Lemma spec_gae_step rewards dones values gamma lambda t :
  (t < length rewards)%nat ->
  GaeSpec.gae rewards dones values gamma lambda t
  = GaeSpec.delta rewards dones values gamma t
    + gamma * lambda * GaeSpec.not_done dones t
      * GaeSpec.gae rewards dones values gamma lambda (S t).
Proof.
  intros Ht. unfold GaeSpec.gae.
  replace (length rewards - t)%nat with (S (length rewards - S t)) by lia.
  reflexivity.
Qed.

Lemma spec_advantages_nth rewards dones values gamma lambda t :
  (t <= length rewards)%nat ->
  nth t (GaeSpec.advantages rewards dones values gamma lambda) 0
  = GaeSpec.gae rewards dones values gamma lambda t.
Proof.
  intros Ht. unfold GaeSpec.advantages.
  destruct (Nat.eq_dec t (length rewards)) as [->|Hne].
  - rewrite nth_overflow by (rewrite length_map, length_seq; lia).
    unfold GaeSpec.gae. rewrite Nat.sub_diag. reflexivity.
  - rewrite (nth_map_in _ _ 0 O) by (rewrite length_seq; lia).
    rewrite seq_nth by lia. reflexivity.
Qed.

Lemma firstn_eq_nth {A : Type} (l1 l2 : list A) d n t :
  firstn n l1 = firstn n l2 -> (t < n)%nat -> nth t l1 d = nth t l2 d.
Proof.
  intros E Ht.
  assert (H : forall l : list A, nth t l d = nth t (firstn n l) d).
  { intros l. rewrite nth_firstn.
    destruct (Nat.ltb_spec t n); [reflexivity | lia]. }
  rewrite (H l1), (H l2), E. reflexivity.
Qed.

(** The hand-computed sequence of the specification: with [gamma = 1],
    [lambda = 1] and no termination, rewards [1, 1, 1] and values
    [0, 0, 0, 0] give the advantages [3, 2, 1]. *)
Example gae_monte_carlo :
  exists a0 a1 a2,
    gae_advantages_env [1; 1; 1] [false; false; false] [0; 0; 0; 0] 1 1
    = Some [a0; a1; a2]
    /\ a0 = 3 /\ a1 = 2 /\ a2 = 1.
Proof.
  do 3 eexists. split; [reflexivity|].
  unfold Jnp.of_bool; simpl. repeat split; lra.
Qed.

(** C2. On one environment, with [rewards] and [dones] of length N >= 1 and
    [values] of length N + 1, [gae_advantages] returns N advantages that obey
    the backward recursion
    [gae[t] = delta[t] + gamma * lambda * (1 - dones[t]) * gae[t+1]] with
    [gae[N] = 0] and
    [delta[t] = rewards[t] + gamma * values[t+1] * (1 - dones[t]) - values[t]]. *)
Theorem gae_advantages_backward_recursion
    (rewards : list R) (dones : list bool) (values : list R)
    (gamma lambda : R) :
  (0 < length rewards)%nat ->
  length dones = length rewards ->
  length values = S (length rewards) ->
  exists advantages,
    gae_advantages_env rewards dones values gamma lambda = Some advantages
    /\ length advantages = length rewards
    /\ nth (length rewards) advantages 0 = 0
    /\ forall t, (t < length rewards)%nat ->
         nth t advantages 0
         = (nth t rewards 0
            + gamma * nth (S t) values 0 * (1 - Jnp.of_bool (nth t dones false))
            - nth t values 0)
           + gamma * lambda * (1 - Jnp.of_bool (nth t dones false))
             * nth (S t) advantages 0.
Proof.
  intros HN Hd Hv.
  exists (GaeSpec.advantages rewards dones values gamma lambda).
  split; [apply gae_env_computes; assumption|].
  split; [unfold GaeSpec.advantages; rewrite length_map, length_seq; reflexivity|].
  split.
  - rewrite spec_advantages_nth by lia. unfold GaeSpec.gae.
    rewrite Nat.sub_diag. reflexivity.
  - intros t Ht. rewrite !spec_advantages_nth by lia.
    rewrite spec_gae_step by lia. reflexivity.
Qed.

Lemma gae_advantages_backward_recursion_witness :
  exists advantages,
    gae_advantages_env [1; 2; 3] [false; true; false] [4; 5; 6; 7] 0.99 0.97
    = Some advantages
    /\ length advantages = 3%nat
    /\ nth 3 advantages 0 = 0
    /\ forall t, (t < 3)%nat ->
         nth t advantages 0
         = (nth t [1; 2; 3] 0
            + 0.99 * nth (S t) [4; 5; 6; 7] 0
              * (1 - Jnp.of_bool (nth t [false; true; false] false))
            - nth t [4; 5; 6; 7] 0)
           + 0.99 * 0.97 * (1 - Jnp.of_bool (nth t [false; true; false] false))
             * nth (S t) advantages 0.
Proof.
  apply (gae_advantages_backward_recursion
           [1; 2; 3] [false; true; false] [4; 5; 6; 7] 0.99 0.97);
    [simpl; lia | reflexivity | reflexivity].
Defined.

(** ** The mask at a terminal step, over IEEE values *)

Section IeeeMask.

Variable round : R -> Ieee.float.
Hypothesis round_ok : Ieee.rounding round.

Lemma ieee_mul_zero_r a :
  Ieee.finite a -> Ieee.mul round a (Ieee.Fin 0) = Ieee.Fin 0.
Proof.
  destruct a as [x| | |]; cbn; try contradiction. intros _.
  rewrite Rmult_0_r. apply round_ok.
Qed.

Lemma ieee_mul_zero_l a :
  Ieee.finite a -> Ieee.mul round (Ieee.Fin 0) a = Ieee.Fin 0.
Proof.
  destruct a as [x| | |]; cbn; try contradiction. intros _.
  rewrite Rmult_0_l. apply round_ok.
Qed.

(** Adding zero to the result of an addition changes nothing: the result
    is a float already. *)
Lemma ieee_add_zero_r a b :
  Ieee.add round (Ieee.add round a b) (Ieee.Fin 0) = Ieee.add round a b.
Proof.
  destruct round_ok as [_ Hidem].
  destruct (Ieee.add round a b) as [z| | |] eqn:E; try reflexivity.
  cbn. rewrite Rplus_0_r.
  destruct a as [x| | |], b as [y| | |]; cbn in E; try discriminate.
  apply (Hidem _ _ E).
Qed.

(** At a terminal step whose later values are finite, the step keeps
    [rewards[t] + (0 - values[t])] whatever the later values are. *)
Lemma body_step_at_done rewards dones values gamma lambda t next :
  nth t dones false = true ->
  Ieee.finite (Ieee.mul round gamma lambda) ->
  Ieee.finite (Ieee.mul round gamma (nth (S t) values Ieee.NaN)) ->
  Ieee.finite next ->
  body_step Ieee.float (Ieee.add round) (Ieee.sub round) (Ieee.mul round)
    Ieee.of_bool Ieee.NaN rewards dones values gamma lambda t next
  = Ieee.add round (nth t rewards Ieee.NaN)
      (Ieee.sub round (Ieee.Fin 0) (nth t values Ieee.NaN)).
Proof.
  intros Hdone Hgl Hgv Hnext. unfold body_step, body_delta.
  rewrite Hdone. cbn [negb Ieee.of_bool].
  rewrite (ieee_mul_zero_r _ Hgv), (ieee_mul_zero_r _ Hgl).
  rewrite (ieee_mul_zero_l _ Hnext). apply ieee_add_zero_r.
Qed.

End IeeeMask.

Lemma unrolled_nth {F : Type} (h : nat -> F -> F) (base : F) N t :
  (t <= N)%nat ->
  nth t (map (fun u => Jnp.unroll h base (N - u) u) (seq 0 N)) base
  = Jnp.unroll h base (N - t) t.
Proof.
  intros Ht. destruct (Nat.eq_dec t N) as [->|Hne].
  - rewrite nth_overflow by (rewrite length_map, length_seq; lia).
    rewrite Nat.sub_diag. reflexivity.
  - rewrite (nth_map_in _ _ base O) by (rewrite length_seq; lia).
    rewrite seq_nth by lia. reflexivity.
Qed.

(** On finite values, and with results that are kept as they are, the body
    over IEEE values is the body over the reals. *)
Lemma gae_ieee_exact rewards dones values gamma lambda :
  (0 < length rewards)%nat ->
  length dones = length rewards ->
  length values = S (length rewards) ->
  gae_advantages_ieee Ieee.Fin (map Ieee.Fin rewards) dones
    (map Ieee.Fin values) (Ieee.Fin gamma) (Ieee.Fin lambda)
  = option_map (map Ieee.Fin)
      (gae_advantages_env rewards dones values gamma lambda).
Proof.
  intros HN Hd Hv. unfold gae_advantages_ieee, gae_advantages_env.
  rewrite (gae_body_computes _ _ _ _ _ (Ieee.Fin 0) Ieee.NaN
             (map Ieee.Fin rewards))
    by (rewrite ?length_map; assumption).
  rewrite (gae_body_computes _ _ _ _ _ 0 0 rewards) by assumption.
  cbn [option_map]. f_equal. rewrite length_map, map_map.
  apply map_ext_in. intros t Ht. apply in_seq in Ht.
  assert (G : forall k u, (u + k = length rewards)%nat ->
            Jnp.unroll
              (body_step Ieee.float (Ieee.add Ieee.Fin) (Ieee.sub Ieee.Fin)
                 (Ieee.mul Ieee.Fin) Ieee.of_bool Ieee.NaN
                 (map Ieee.Fin rewards) dones (map Ieee.Fin values)
                 (Ieee.Fin gamma) (Ieee.Fin lambda))
              (Ieee.Fin 0) k u
            = Ieee.Fin
                (Jnp.unroll
                   (body_step R Rplus Rminus Rmult Jnp.of_bool 0 rewards dones
                      values gamma lambda) 0 k u)).
  { induction k as [|k IH]; intros u Hu; [reflexivity|].
    cbn [Jnp.unroll]. rewrite IH by lia. unfold body_step, body_delta.
    rewrite (nth_map_in Ieee.Fin rewards _ 0) by lia.
    rewrite !(nth_map_in Ieee.Fin values _ 0) by lia.
    destruct (nth u dones false); reflexivity. }
  apply G. lia.
Qed.

Lemma round32_in_range x :
  - Ieee.max32 <= x <= Ieee.max32 -> Ieee.round32 x = Ieee.Fin x.
Proof.
  intros Hx. unfold Ieee.round32.
  destruct (Rlt_dec Ieee.max32 x); [lra|].
  destruct (Rlt_dec x (- Ieee.max32)); [lra|]. reflexivity.
Qed.

Lemma round32_overflow x : Ieee.max32 < x -> Ieee.round32 x = Ieee.PInf.
Proof.
  intros Hx. unfold Ieee.round32.
  destruct (Rlt_dec Ieee.max32 x); [reflexivity | lra].
Qed.

Lemma round32_rounding : Ieee.rounding Ieee.round32.
Proof.
  split.
  - apply round32_in_range. unfold Ieee.max32. lra.
  - intros x y. unfold Ieee.round32.
    destruct (Rlt_dec Ieee.max32 x); [discriminate|].
    destruct (Rlt_dec x (- Ieee.max32)); [discriminate|].
    intros E. injection E as <-.
    destruct (Rlt_dec Ieee.max32 x); [contradiction|].
    destruct (Rlt_dec x (- Ieee.max32)); [contradiction|]. reflexivity.
Qed.

(** Evaluation of the IEEE operations on numbers in the range of
    [float32]. *)
Ltac ieee_eval :=
  repeat first
    [ rewrite round32_in_range by (unfold Ieee.max32; lra)
    | rewrite round32_overflow by (unfold Ieee.max32; lra)
    | progress cbn [Ieee.add Ieee.sub Ieee.mul Ieee.of_bool negb] ].




(** ** Shapes *)

Lemma has_shape_spec {A : Type} T E (a : list (list A)) :
  Jnp.has_shape T E a = true <->
  length a = T /\ forall r, In r a -> length r = E.
Proof.
  unfold Jnp.has_shape, Jnp.has_cols.
  rewrite andb_true_iff, Nat.eqb_eq, forallb_forall.
  split; intros [H1 H2]; split; auto; intros r Hr.
  - apply Nat.eqb_eq, H2, Hr.
  - apply Nat.eqb_eq, H2, Hr.
Qed.

Lemma has_shape_cols {A : Type} T E (a : list (list A)) :
  Jnp.has_shape T E a = true -> Jnp.has_cols E a = true.
Proof. unfold Jnp.has_shape. intros H. apply andb_true_iff in H. tauto. Qed.

Lemma has_shape_length {A : Type} T E (a : list (list A)) :
  Jnp.has_shape T E a = true -> length a = T.
Proof. intros H. apply has_shape_spec in H. tauto. Qed.

Lemma has_shape_row {A : Type} T E (a : list (list A)) t :
  Jnp.has_shape T E a = true -> (t < T)%nat -> length (nth t a []) = E.
Proof.
  intros H Ht. apply has_shape_spec in H. destruct H as [H1 H2].
  apply H2, nth_In. lia.
Qed.

Lemma has_shape_ncols {A : Type} T E (a : list (list A)) :
  Jnp.has_shape (S T) E a = true -> Jnp.ncols a = E.
Proof.
  intros H. apply has_shape_spec in H. destruct H as [H1 H2].
  destruct a as [|r a]; simpl in *; [lia|]. apply H2. auto.
Qed.

Lemma has_shape_but_last {A : Type} T E (a : list (list A)) :
  Jnp.has_shape (S T) E a = true -> Jnp.has_shape T E (Jnp.but_last a) = true.
Proof.
  intros H. apply has_shape_spec in H. destruct H as [H1 H2].
  apply has_shape_spec. unfold Jnp.but_last. split.
  - rewrite removelast_length. lia.
  - intros r Hr. apply H2.
    destruct a as [|x a]; [contradiction|].
    rewrite (app_removelast_last x (l := x :: a)) by discriminate.
    apply in_or_app. auto.
Qed.

Lemma column_length {A : Type} (d : A) a e :
  length (Jnp.column d a e) = length a.
Proof. unfold Jnp.column. apply length_map. Qed.

Lemma mapM_total {A B : Type} (f : A -> option B) (g : A -> B) l :
  (forall x, In x l -> f x = Some (g x)) -> mapM f l = Some (map g l).
Proof.
  induction l as [|a l IH]; intros Hf; [reflexivity|].
  simpl. rewrite Hf by (left; reflexivity). cbn [bind].
  rewrite IH by (intros x Hx; apply Hf; right; exact Hx). reflexivity.
Qed.

(** ** gae_advantages over all environments *)

(** The advantages of environment [e], by the recursion of the
    specification on column [e] of the three arrays. *)
Lemma gae_advantages_computes rewards dones values gamma lambda N E :
  (0 < N)%nat ->
  Jnp.has_shape N E rewards = true ->
  Jnp.has_shape N E dones = true ->
  Jnp.has_shape (S N) E values = true ->
  gae_advantages rewards dones values gamma lambda
  = Some (GaeSpec.advantages2 rewards dones values gamma lambda N E).
Proof.
  intros HN Hr Hd Hv. unfold gae_advantages, GaeSpec.advantages2.
  rewrite (has_shape_ncols _ _ _ Hv).
  rewrite (has_shape_cols _ _ _ Hr), (has_shape_cols _ _ _ Hd),
    (has_shape_cols _ _ _ Hv).
  cbn [andb].
  assert (Hcol : forall e,
            gae_advantages_env (Jnp.column 0 rewards e)
              (Jnp.column false dones e) (Jnp.column 0 values e) gamma lambda
            = Some (GaeSpec.advantages (Jnp.column 0 rewards e)
                      (Jnp.column false dones e) (Jnp.column 0 values e)
                      gamma lambda)).
  { intros e. apply gae_env_computes; rewrite !column_length;
      rewrite (has_shape_length _ _ _ Hr);
      rewrite ?(has_shape_length _ _ _ Hd), ?(has_shape_length _ _ _ Hv);
      auto. }
  rewrite Hcol. cbn [bind].
  rewrite (mapM_total _
             (fun e =>
                GaeSpec.advantages (Jnp.column 0 rewards e)
                  (Jnp.column false dones e) (Jnp.column 0 values e)
                  gamma lambda))
    by (intros e _; apply Hcol).
  cbn [bind]. rewrite (has_shape_length _ _ _ Hr). reflexivity.
Qed.

(** Without a step [gae_advantages] raises, whatever the number of
    environments. *)
Lemma gae_advantages_no_step dones values gamma lambda :
  gae_advantages [] dones values gamma lambda = None.
Proof.
  unfold gae_advantages.
  destruct (Jnp.has_cols _ [] && _ && _); [|reflexivity].
  cbn [Jnp.column map]. rewrite gae_env_no_step. reflexivity.
Qed.

Lemma stack_axis1_shape N cols :
  Jnp.has_shape N (length cols) (Jnp.stack_axis1 N cols) = true.
Proof.
  apply has_shape_spec. unfold Jnp.stack_axis1. split.
  - rewrite length_map, length_seq. reflexivity.
  - intros r Hr. apply in_map_iff in Hr. destruct Hr as [t [<- _]].
    apply length_map.
Qed.

Lemma advantages2_shape rewards dones values gamma lambda N E :
  Jnp.has_shape N E (GaeSpec.advantages2 rewards dones values gamma lambda N E)
  = true.
Proof.
  unfold GaeSpec.advantages2.
  set (cols := map _ (seq 0 E)).
  replace E with (length cols) at 1
    by (unfold cols; rewrite length_map, length_seq; reflexivity).
  apply stack_axis1_shape.
Qed.

(** ** collect_buffer after the rollout *)

Lemma normalize_shape a N E :
  Jnp.has_shape N E a = true -> Jnp.has_shape N E (normalize a) = true.
Proof.
  intros H. apply has_shape_spec in H. destruct H as [H1 H2].
  apply has_shape_spec. unfold normalize. split.
  - rewrite length_map. exact H1.
  - intros r Hr. apply in_map_iff in Hr. destruct Hr as [r0 [<- Hr0]].
    rewrite length_map. apply H2, Hr0.
Qed.

Lemma last_is_nth {A : Type} (l : list A) d :
  last l d = nth (length l - 1) l d.
Proof.
  induction l as [|a l IH]; [reflexivity|].
  destruct l as [|b l]; [reflexivity|].
  change (last (a :: b :: l) d) with (last (b :: l) d). rewrite IH.
  simpl. rewrite Nat.sub_0_r. reflexivity.
Qed.

Lemma last_row_shape {A : Type} (a : arr2 A) T E :
  Jnp.has_shape (S T) E a = true ->
  last_row a = Some (nth T a []) /\ length (nth T a []) = E.
Proof.
  intros H. split.
  - pose proof (has_shape_length _ _ _ H) as L.
    destruct a as [|r a]; [discriminate|]. unfold last_row. f_equal.
    rewrite last_is_nth, L. f_equal. lia.
  - apply (has_shape_row _ _ _ _ H). lia.
Qed.

Lemma add_row_computes a v N E :
  Jnp.has_shape N E a = true -> length v = E ->
  add_row a v = Some (map (fun row => Jnp.zip_with Rplus row v) a).
Proof.
  intros H Hv. apply has_shape_spec in H. destruct H as [_ H].
  unfold add_row. apply mapM_total. intros r Hr.
  apply ew2_same_length. rewrite (H r Hr). auto.
Qed.

(** The advantages [collect_buffer] stores for a buffer [b] that a rollout
    of N + 1 steps over E environments returned. *)
Lemma assemble_buffer_computes {Act Obs : Type} cfg
    (b : TimeStep Act Obs arr2) N E :
  (0 < N)%nat ->
  Jnp.has_shape (S N) E (reward b) = true ->
  Jnp.has_shape (S N) E (done b) = true ->
  Jnp.has_shape (S N) E (value b) = true ->
  let raw :=
    GaeSpec.advantages2 (Jnp.but_last (reward b)) (Jnp.but_last (done b))
      (value b) (gamma cfg) (gae_lambda cfg) N E in
  let advantages := if normalize_advantage cfg then normalize raw else raw in
  assemble_buffer cfg b
  = Some {| adv := advantages;
            ret := map (fun row => Jnp.zip_with Rplus row (nth N (value b) []))
                       advantages;
            log_p := Jnp.but_last (log_p b);
            action := Jnp.but_last (action b);
            env_obs := Jnp.but_last (env_obs b);
            done := Jnp.but_last (done b);
            ep_len := Jnp.but_last (ep_len b);
            reward := reward b;
            value := value b |}.
Proof.
  intros HN Hr Hd Hv raw advantages. unfold assemble_buffer.
  rewrite (gae_advantages_computes _ _ _ _ _ N E)
    by auto using has_shape_but_last.
  cbn [bind]. fold raw. fold advantages.
  destruct (last_row_shape _ _ _ Hv) as [-> Hlen]. cbn [bind].
  assert (Hs : Jnp.has_shape N E advantages = true).
  { unfold advantages. destruct (normalize_advantage cfg).
    - apply normalize_shape, advantages2_shape.
    - apply advantages2_shape. }
  rewrite (add_row_computes _ _ N E Hs Hlen). reflexivity.
Qed.

Lemma at2_add_row a v N E t e :
  Jnp.has_shape N E a = true -> length v = E ->
  (t < N)%nat -> (e < E)%nat ->
  Jnp.at2 (map (fun row => Jnp.zip_with Rplus row v) a) t e
  = Jnp.at2 a t e + nth e v 0.
Proof.
  intros Ha Hv Ht He. unfold Jnp.at2.
  rewrite (nth_map_in _ _ [] []) by (rewrite (has_shape_length _ _ _ Ha); lia).
  apply zip_with_nth; [rewrite (has_shape_row _ _ _ _ Ha Ht)|]; lia.
Qed.

Lemma buffer_has_shape_fields {Act Obs : Type} T E (b : TimeStep Act Obs arr2) :
  buffer_has_shape T E b = true ->
  (Jnp.has_shape T E (log_p b) = true /\ Jnp.has_shape T E (action b) = true
   /\ Jnp.has_shape T E (env_obs b) = true)
  /\ (Jnp.has_shape T E (adv b) = true /\ Jnp.has_shape T E (reward b) = true
      /\ Jnp.has_shape T E (ret b) = true)
  /\ (Jnp.has_shape T E (value b) = true /\ Jnp.has_shape T E (done b) = true
      /\ Jnp.has_shape T E (ep_len b) = true).
Proof.
  unfold buffer_has_shape. rewrite !andb_true_iff. tauto.
Qed.

Section CollectBuffer.

Context `{Collaborators}.

Variables (self : PPO) (st st' : LoopState (loop self)).
Variables (rng_key k0 : PRNGKey) (env_rng_keys : list PRNGKey).
Variables (n num_envs E : nat) (apply_fn : PRNGKey -> StepIn -> StepOut).
Variable raw : TimeStep Act Obs arr2.

(** The keys are split, the loop rolls out [n + 1] steps and returns [raw],
    whose fields all have shape [(n + 1, E)]. *)
Hypothesis keys_split : split_n rng_key (num_envs + 1) = k0 :: env_rng_keys.
Hypothesis rolled_out :
  rollout (loop self) st env_rng_keys apply_fn (Z.of_nat n + 1)%Z = (raw, st').
Hypothesis raw_shape : buffer_has_shape (S n) E raw = true.

Lemma collect_buffer_computes :
  collect_buffer self st rng_key (Z.of_nat n) num_envs apply_fn
  = (assemble_buffer (cfg self) raw, st').
Proof.
  unfold collect_buffer. rewrite keys_split, rolled_out. reflexivity.
Qed.

End CollectBuffer.

(** C1. After a rollout of N + 1 >= 2 steps, the buffer [collect_buffer]
    returns holds in [adv] the array [gae_advantages] computed (the backward
    recursion on every environment column), normalized when normalization is
    on, and [ret[t, e] = adv[t, e] + value[N, e]] for all [t < N] and
    [e < E], where row [N] of [value] is the bootstrap row: the same final
    value at every time step. *)
Theorem collect_buffer_return_identity `{Collaborators}
    (self : PPO) (st st' : LoopState (loop self))
    (rng_key k0 : PRNGKey) (env_rng_keys : list PRNGKey)
    (n num_envs E : nat) (apply_fn : PRNGKey -> StepIn -> StepOut)
    (raw : TimeStep Act Obs arr2) :
  split_n rng_key (num_envs + 1) = k0 :: env_rng_keys ->
  rollout (loop self) st env_rng_keys apply_fn (Z.of_nat n + 1)%Z = (raw, st') ->
  buffer_has_shape (S n) E raw = true ->
  (0 < n)%nat ->
  exists gae buf,
    gae_advantages (Jnp.but_last (reward raw)) (Jnp.but_last (done raw))
      (value raw) (gamma (cfg self)) (gae_lambda (cfg self)) = Some gae
    /\ gae = GaeSpec.advantages2 (Jnp.but_last (reward raw))
               (Jnp.but_last (done raw)) (value raw) (gamma (cfg self))
               (gae_lambda (cfg self)) n E
    /\ collect_buffer self st rng_key (Z.of_nat n) num_envs apply_fn
       = (Some buf, st')
    /\ adv buf
       = (if normalize_advantage (cfg self)
          then map (map (fun a => (a - Jnp.mean (Jnp.ravel gae))
                                  / (Jnp.std (Jnp.ravel gae) + 1e-8))) gae
          else gae)
    /\ value buf = value raw
    /\ forall t e, (t < n)%nat -> (e < E)%nat ->
         Jnp.at2 (ret buf) t e = Jnp.at2 (adv buf) t e + Jnp.at2 (value raw) n e.
Proof.
  intros Hk Hr Hs Hn.
  destruct (buffer_has_shape_fields _ _ _ Hs)
    as [_ [[_ [Hrew _]] [Hval [Hdone _]]]].
  set (gae := GaeSpec.advantages2 (Jnp.but_last (reward raw))
                (Jnp.but_last (done raw)) (value raw) (gamma (cfg self))
                (gae_lambda (cfg self)) n E).
  exists gae. eexists.
  split; [apply gae_advantages_computes; auto using has_shape_but_last|].
  split; [reflexivity|].
  rewrite (collect_buffer_computes self st st' rng_key k0 env_rng_keys n
             num_envs apply_fn raw Hk Hr).
  rewrite (assemble_buffer_computes (cfg self) raw n E Hn Hrew Hdone Hval).
  fold gae. split; [reflexivity|]. cbn [value ret adv].
  split; [reflexivity|]. split; [reflexivity|]. intros t e Ht He.
  apply (at2_add_row _ _ n E); auto.
  - destruct (normalize_advantage (cfg self)).
    + apply normalize_shape, advantages2_shape.
    + apply advantages2_shape.
  - apply (has_shape_row _ _ _ _ Hval). lia.
Qed.

(** In a rollout whose values differ from step to step, the value added at
    step 0 is the bootstrap value 20 of the last row, not the value 0 of
    step 0. *)
Lemma collect_buffer_return_identity_witness :
  exists gae buf,
    gae_advantages
      (Jnp.but_last (Toy.table 3 2 (fun t e => INR (t + e))))
      (Jnp.but_last (Toy.table 3 2 (fun t _ => Nat.odd t)))
      (Toy.table 3 2 (fun t e => INR (10 * t + e))) 0.99 0.97 = Some gae
    /\ collect_buffer (Toy.episodic_agent true) 0%nat [] 2 2 (fun _ obs => obs)
       = (Some buf, 3%nat)
    /\ adv buf
       = map (map (fun a => (a - Jnp.mean (Jnp.ravel gae))
                            / (Jnp.std (Jnp.ravel gae) + 1e-8))) gae
    /\ Jnp.at2 (value buf) 0 0 = 0
    /\ Jnp.at2 (ret buf) 0 0 = Jnp.at2 (adv buf) 0 0 + 20.
Proof.
  destruct (collect_buffer_return_identity (Toy.episodic_agent true) 0%nat
              3%nat [] [0%nat] [[1%nat]; [2%nat]] 2 2 2 (fun _ obs => obs)
              (fst (Toy.episodic_rollout 0%nat [[1%nat]; [2%nat]]
                      (fun _ obs => obs) 3)))
    as [gae [buf [Hgae [_ [Hbuf [Hadv [Hval Hret]]]]]]];
    try reflexivity; try lia.
  exists gae, buf. split; [exact Hgae|]. split; [exact Hbuf|].
  split; [exact Hadv|]. split.
  - rewrite Hval. reflexivity.
  - rewrite (Hret 0%nat 0%nat) by lia. f_equal.
    change (INR 20 = 20). simpl. lra.
Defined.

(** C4, the claim as stated fails: after a rollout of 2 + 1 steps the
    [reward] field of the returned buffer still has 3 rows, not 2. *)
Lemma collect_buffer_reward_not_trimmed :
  exists buf,
    collect_buffer (Toy.agent true 1 0.5) 0%nat [] 2 2 (fun _ obs => obs)
    = (Some buf, 3%nat)
    /\ length (reward buf) <> 2%nat.
Proof.
  eexists. split; [reflexivity|]. cbn. discriminate.
Qed.

(** C4, as amended. In the buffer [collect_buffer] returns after a rollout of
    [rollout_steps_per_env + 1] steps, with [rollout_steps_per_env >= 1], the
    fields [log_p], [action], [env_obs], [done], [ep_len], [adv] and [ret]
    have time length [rollout_steps_per_env]; [value] and [reward] keep the
    bootstrap row. *)
Theorem collect_buffer_time_lengths `{Collaborators}
    (self : PPO) (st st' : LoopState (loop self))
    (rng_key k0 : PRNGKey) (env_rng_keys : list PRNGKey)
    (n num_envs E : nat) (apply_fn : PRNGKey -> StepIn -> StepOut)
    (raw : TimeStep Act Obs arr2) :
  split_n rng_key (num_envs + 1) = k0 :: env_rng_keys ->
  rollout (loop self) st env_rng_keys apply_fn (Z.of_nat n + 1)%Z = (raw, st') ->
  buffer_has_shape (S n) E raw = true ->
  (0 < n)%nat ->
  exists buf,
    collect_buffer self st rng_key (Z.of_nat n) num_envs apply_fn
    = (Some buf, st')
    /\ (length (log_p buf) = n /\ length (action buf) = n
        /\ length (env_obs buf) = n /\ length (done buf) = n
        /\ length (ep_len buf) = n)
    /\ (length (adv buf) = n /\ length (ret buf) = n)
    /\ (length (value buf) = S n /\ length (reward buf) = S n).
Proof.
  intros Hk Hr Hs Hn.
  rewrite (collect_buffer_computes self st st' rng_key k0 env_rng_keys n
             num_envs apply_fn raw Hk Hr).
  destruct (buffer_has_shape_fields _ _ _ Hs)
    as [[Hlp [Hact Hobs]] [[_ [Hrew _]] [Hval [Hdone Hlen]]]].
  rewrite (assemble_buffer_computes (cfg self) raw n E Hn Hrew Hdone Hval).
  eexists. split; [reflexivity|].
  cbn [log_p action env_obs done ep_len adv ret value reward].
  assert (Ha : forall a : arr2 R,
             Jnp.has_shape n E a = true ->
             length (if normalize_advantage (cfg self) then normalize a else a)
             = n).
  { intros a Ha. destruct (normalize_advantage (cfg self)).
    - apply (has_shape_length _ E), normalize_shape, Ha.
    - apply (has_shape_length _ E), Ha. }
  repeat split;
    try (apply (has_shape_length _ E), has_shape_but_last; assumption);
    try (apply (has_shape_length _ E); assumption).
  - apply Ha, advantages2_shape.
  - rewrite length_map. apply Ha, advantages2_shape.
Qed.

Lemma collect_buffer_time_lengths_witness :
  exists buf,
    collect_buffer (Toy.agent true 1 0.5) 0%nat [] 2 2 (fun _ obs => obs)
    = (Some buf, 3%nat)
    /\ (length (log_p buf) = 2%nat /\ length (action buf) = 2%nat
        /\ length (env_obs buf) = 2%nat /\ length (done buf) = 2%nat
        /\ length (ep_len buf) = 2%nat)
    /\ (length (adv buf) = 2%nat /\ length (ret buf) = 2%nat)
    /\ (length (value buf) = 3%nat /\ length (reward buf) = 3%nat).
Proof.
  apply (collect_buffer_time_lengths (Toy.agent true 1 0.5) 0%nat 3%nat
           [] [0%nat] [[1%nat]; [2%nat]] 2 2 2 (fun _ obs => obs)
           (fst (Toy.grid_rollout 1 0.5 0%nat [[1%nat]; [2%nat]]
                   (fun _ obs => obs) 3)));
    try reflexivity; lia.
Defined.

(** ** Mean and standard deviation *)

Lemma INR_length_pos {A : Type} (l : list A) : l <> [] -> 0 < INR (length l).
Proof.
  intros Hl. apply lt_0_INR. destruct l; [contradiction | simpl; lia].
Qed.

Lemma sum_map_div (g : R -> R) k l :
  Jnp.sum (map (fun x => g x / k) l) = Jnp.sum (map g l) / k.
Proof.
  induction l as [|a l IH]; simpl.
  - unfold Rdiv. ring.
  - rewrite IH. unfold Rdiv. ring.
Qed.

Lemma sum_map_minus m l :
  Jnp.sum (map (fun x => x - m) l) = Jnp.sum l - INR (length l) * m.
Proof.
  induction l as [|a l IH].
  - simpl. ring.
  - change (length (a :: l)) with (S (length l)). rewrite S_INR.
    simpl. rewrite IH. ring.
Qed.

Lemma sum_squares_nonneg (g : R -> R) l :
  0 <= Jnp.sum (map (fun x => Rsqr (g x)) l).
Proof.
  induction l as [|a l IH]; simpl; [lra|].
  pose proof (Rle_0_sqr (g a)). lra.
Qed.

Lemma var_nonneg l : l <> [] -> 0 <= Jnp.var l.
Proof.
  intros Hl. unfold Jnp.var, Jnp.mean. rewrite length_map.
  apply Rmult_le_pos; [apply sum_squares_nonneg|].
  left. apply Rinv_0_lt_compat, INR_length_pos, Hl.
Qed.

Section Standardize.

(** A nonempty sample [l], shifted by its mean and divided by [c > 0]. *)
Variables (l : list R) (c : R).
Hypothesis nonempty : l <> [].
Hypothesis c_pos : 0 < c.

Lemma mean_standardized :
  Jnp.mean (map (fun x => (x - Jnp.mean l) / c) l) = 0.
Proof.
  pose proof (INR_length_pos l nonempty) as Hn.
  unfold Jnp.mean at 1. rewrite length_map.
  rewrite (sum_map_div (fun x => x - Jnp.mean l)), sum_map_minus.
  unfold Jnp.mean. field. split; lra.
Qed.

Lemma var_standardized :
  Jnp.var (map (fun x => (x - Jnp.mean l) / c) l) = Jnp.var l / Rsqr c.
Proof.
  pose proof (INR_length_pos l nonempty) as Hn.
  unfold Jnp.var. rewrite mean_standardized, map_map.
  set (M := Jnp.mean l). unfold Jnp.mean. rewrite !length_map.
  rewrite (map_ext _ (fun x => Rsqr (x - M) / Rsqr c)).
  - rewrite (sum_map_div (fun x => Rsqr (x - M))).
    unfold Rsqr. field. split; lra.
  - intros x. unfold Rsqr. field. lra.
Qed.

Lemma std_standardized :
  Jnp.std (map (fun x => (x - Jnp.mean l) / c) l) = Jnp.std l / c.
Proof.
  unfold Jnp.std. rewrite var_standardized.
  rewrite sqrt_div; [| apply var_nonneg, nonempty | apply Rlt_0_sqr; lra].
  rewrite sqrt_Rsqr by lra. reflexivity.
Qed.

End Standardize.

Lemma std_nonneg l : 0 <= Jnp.std l.
Proof. apply sqrt_pos. Qed.

Lemma sum_repeat a n : Jnp.sum (repeat a n) = INR n * a.
Proof.
  induction n as [|n IH]; [simpl; ring|].
  rewrite S_INR. simpl. rewrite IH. ring.
Qed.

(** A sample whose elements are all equal has standard deviation 0. *)
Lemma std_repeat a n : Jnp.std (repeat a (S n)) = 0.
Proof.
  assert (Hn : 0 < INR (S n)) by (apply lt_0_INR; lia).
  assert (Hm : Jnp.mean (repeat a (S n)) = a).
  { unfold Jnp.mean. rewrite sum_repeat, repeat_length. field. lra. }
  unfold Jnp.std, Jnp.var. rewrite Hm.
  rewrite (map_ext_in _ (fun _ => 0)).
  - unfold Jnp.mean. rewrite length_map, repeat_length.
    replace (map (fun _ : R => 0) (repeat a (S n))) with (repeat 0 (S n)).
    + rewrite sum_repeat. replace (INR (S n) * 0 / INR (S n)) with 0
        by (field; lra). apply sqrt_0.
    + generalize (S n). intros k. induction k as [|k IHk]; simpl;
        [reflexivity | rewrite IHk; reflexivity].
  - intros x Hx. apply repeat_spec in Hx. subst x.
    unfold Rsqr. ring.
Qed.

Lemma ravel_length {A : Type} (a : arr2 A) N E :
  Jnp.has_shape N E a = true -> length (Jnp.ravel a) = (N * E)%nat.
Proof.
  intros H. apply has_shape_spec in H. destruct H as [H1 H2]. subst N.
  unfold Jnp.ravel. induction a as [|r a IH]; [reflexivity|].
  simpl. rewrite length_app, (H2 r) by (left; reflexivity).
  rewrite IH; [reflexivity|].
  intros r' Hr'. apply H2. right. exact Hr'.
Qed.

Lemma ravel_normalize a :
  Jnp.ravel (normalize a)
  = map (fun x => (x - Jnp.mean (Jnp.ravel a))
                  / (Jnp.std (Jnp.ravel a) + 1e-8)) (Jnp.ravel a).
Proof.
  unfold normalize, Jnp.ravel. symmetry. apply concat_map.
Qed.




(** ** The sampler *)

Lemma index_in_range {A : Type} (a : list A) (i : Z) :
  (0 <= i < Z.of_nat (length a))%Z ->
  Indexing.index a i = nth_error a (Z.to_nat i).
Proof.
  intros Hi. unfold Indexing.index.
  destruct (Z.ltb_spec i 0); [lia|].
  rewrite Z.min_l, Z.max_r by lia. reflexivity.
Qed.

Lemma zip_with_pair_In {A B : Type} (xs : list A) (ys : list B) p :
  In p (Jnp.zip_with pair xs ys) -> In (fst p) xs /\ In (snd p) ys.
Proof.
  revert ys; induction xs as [|x xs IH]; intros [|y ys] Hp; simpl in *;
    try contradiction.
  destruct Hp as [<- | Hp]; [simpl; auto|].
  destruct (IH _ Hp). auto.
Qed.

Lemma mapM_Forall2 {A B : Type} (f : A -> option B) (P : A -> B -> Prop) l :
  (forall x, In x l -> exists y, f x = Some y /\ P x y) ->
  exists out, mapM f l = Some out /\ Forall2 P l out.
Proof.
  induction l as [|a l IH]; intros Hf.
  - exists []. split; [reflexivity | constructor].
  - destruct (Hf a (or_introl eq_refl)) as [y [Hy HP]].
    destruct IH as [out [Ho HF]]; [intros x Hx; apply Hf; right; exact Hx|].
    exists (y :: out). split.
    + simpl. rewrite Hy. cbn [bind]. rewrite Ho. reflexivity.
    + constructor; assumption.
Qed.

Lemma covers_spec {A : Type} T E (a : arr2 A) :
  covers T E a = true ->
  (T <= length a)%nat /\ forall r, In r a -> length r = E.
Proof.
  unfold covers, Jnp.has_cols.
  rewrite andb_true_iff, Nat.leb_le, forallb_forall.
  intros [H1 H2]. split; auto. intros r Hr. apply Nat.eqb_eq, H2, Hr.
Qed.

Lemma cell_in_range {A : Type} T E (a : arr2 A) te :
  covers T E a = true ->
  (0 <= fst te < Z.of_nat T)%Z -> (0 <= snd te < Z.of_nat E)%Z ->
  exists x,
    cell a te = Some x
    /\ (row <- Indexing.index a (fst te) ;; Indexing.index row (snd te))
       = Some x.
Proof.
  intros Hc Ht He. apply covers_spec in Hc. destruct Hc as [HT HE].
  unfold cell. rewrite index_in_range by lia.
  destruct (nth_error a (Z.to_nat (fst te))) as [row|] eqn:Hrow.
  - cbn [bind]. apply nth_error_In in Hrow. apply HE in Hrow.
    rewrite index_in_range by lia.
    destruct (nth_error row (Z.to_nat (snd te))) as [x|] eqn:Hx.
    + exists x. auto.
    + apply nth_error_None in Hx. lia.
  - apply nth_error_None in Hrow. lia.
Qed.

Lemma gather2_picks {A : Type} T E (a : arr2 A) ts es :
  covers T E a = true ->
  length ts = length es ->
  Forall (fun t => (0 <= t < Z.of_nat T)%Z) ts ->
  Forall (fun e => (0 <= e < Z.of_nat E)%Z) es ->
  exists out,
    Indexing.gather2 a ts es = Some out
    /\ picks a (Jnp.zip_with pair ts es) out.
Proof.
  intros Hc Hlen Hts Hes. unfold Indexing.gather2, picks.
  rewrite ew2_same_length by exact Hlen. cbn [bind].
  rewrite Forall_forall in Hts, Hes.
  apply mapM_Forall2.
  intros [t e] Hin. apply zip_with_pair_In in Hin. destruct Hin as [H1 H2].
  destruct (cell_in_range T E a (t, e) Hc (Hts _ H1) (Hes _ H2))
    as [x [Hcell Hx]].
  exists x. auto.
Qed.

Lemma picks_length {A : Type} (a : arr2 A) ids out :
  picks a ids out -> length out = length ids.
Proof. intros H. symmetry. exact (Forall2_length H). Qed.

Lemma toy_randint_contract : @randint_contract Toy.world.
Proof.
  intros key n lo hi. cbn. unfold Toy.key_randint. split.
  - rewrite length_map, length_seq. reflexivity.
  - intros Hlt. apply Forall_forall. intros x Hx.
    apply in_map_iff in Hx. destruct Hx as [i [<- _]].
    pose proof (Z.mod_pos_bound (Z.of_nat (i + list_sum key)) (hi - lo)).
    lia.
Qed.

(** [_get_batch_by_ids] at coordinates in range. *)
Lemma get_batch_by_ids_picks `{Collaborators}
    (self : BufferSampler) (batch_ids env_ids : list Z) :
  sampler_covers self = true ->
  length batch_ids = length env_ids ->
  Forall (fun t => (0 <= t < Z.of_nat (buffer_size self))%Z) batch_ids ->
  Forall (fun e => (0 <= e < Z.of_nat (num_envs self))%Z) env_ids ->
  exists batch,
    _get_batch_by_ids self batch_ids env_ids = Some batch
    /\ batch_picks (buffer self) (Jnp.zip_with pair batch_ids env_ids) batch.
Proof.
  intros Hcov Hlen Rt Re.
  unfold sampler_covers in Hcov. rewrite !andb_true_iff in Hcov.
  destruct Hcov as [[[[[[[[[[HT HE] C1] C2] C3] C4] C5] C6] C7] C8] C9].
  unfold _get_batch_by_ids.
  destruct (gather2_picks _ _ _ _ _ C1 Hlen Rt Re) as [o1 [-> P1]].
  destruct (gather2_picks _ _ _ _ _ C2 Hlen Rt Re) as [o2 [-> P2]].
  destruct (gather2_picks _ _ _ _ _ C3 Hlen Rt Re) as [o3 [-> P3]].
  destruct (gather2_picks _ _ _ _ _ C4 Hlen Rt Re) as [o4 [-> P4]].
  destruct (gather2_picks _ _ _ _ _ C5 Hlen Rt Re) as [o5 [-> P5]].
  destruct (gather2_picks _ _ _ _ _ C6 Hlen Rt Re) as [o6 [-> P6]].
  destruct (gather2_picks _ _ _ _ _ C7 Hlen Rt Re) as [o7 [-> P7]].
  destruct (gather2_picks _ _ _ _ _ C8 Hlen Rt Re) as [o8 [-> P8]].
  destruct (gather2_picks _ _ _ _ _ C9 Hlen Rt Re) as [o9 [-> P9]].
  cbn [bind]. eexists. split; [reflexivity|].
  unfold batch_picks.
  cbn [log_p action env_obs adv reward ret value done ep_len]. tauto.
Qed.

Lemma batch_picks_length {Act Obs : Type} (b : TimeStep Act Obs arr2) ids
    (batch : TimeStep Act Obs arr1) :
  batch_picks b ids batch -> batch_length batch (length ids).
Proof.
  unfold batch_picks, batch_length.
  intros [[P1 [P2 P3]] [[P4 [P5 P6]] [P7 [P8 P9]]]].
  repeat split; eapply picks_length; eassumption.
Qed.

Lemma positive_ranges `{Collaborators} (self : BufferSampler) :
  sampler_covers self = true ->
  (0 < Z.of_nat (buffer_size self))%Z /\ (0 < Z.of_nat (num_envs self))%Z.
Proof.
  unfold sampler_covers. rewrite !andb_true_iff, !Nat.ltb_lt. lia.
Qed.

(** C5. [sample_random_batch] makes two calls of [jax.random.randint], with
    two keys split off the key it is given: [batch_size] time indices in
    [[0, buffer_size)] and [batch_size] environment indices in
    [[0, num_envs)]. Nothing is done to the draws (no permutation, no
    removal of repeats): every field of the batch is the field of the buffer
    gathered at these [batch_size] coordinate pairs, in order, and so has
    leading dimension [batch_size]. *)
Theorem sample_random_batch_draws `{Collaborators}
    (self : BufferSampler) (rng_key : PRNGKey) (batch_size : nat) :
  randint_contract ->
  sampler_covers self = true ->
  let batch_ids :=
    randint (snd (split rng_key)) batch_size 0 (Z.of_nat (buffer_size self)) in
  let env_ids :=
    randint (snd (split (fst (split rng_key)))) batch_size 0
            (Z.of_nat (num_envs self)) in
  (length batch_ids = batch_size /\ length env_ids = batch_size)
  /\ Forall (fun t => (0 <= t < Z.of_nat (buffer_size self))%Z) batch_ids
  /\ Forall (fun e => (0 <= e < Z.of_nat (num_envs self))%Z) env_ids
  /\ exists batch,
       sample_random_batch self rng_key batch_size = Some batch
       /\ batch_picks (buffer self) (Jnp.zip_with pair batch_ids env_ids) batch
       /\ batch_length batch batch_size.
Proof.
  intros Hrand Hcov batch_ids env_ids.
  destruct (positive_ranges self Hcov) as [HT HE].
  destruct (Hrand (snd (split rng_key)) batch_size 0%Z
              (Z.of_nat (buffer_size self))) as [Lt Rt].
  destruct (Hrand (snd (split (fst (split rng_key)))) batch_size 0%Z
              (Z.of_nat (num_envs self))) as [Le Re].
  specialize (Rt HT). specialize (Re HE).
  fold batch_ids in Lt, Rt. fold env_ids in Le, Re.
  split; [split; assumption|]. split; [exact Rt|]. split; [exact Re|].
  assert (Hlen : length batch_ids = length env_ids) by congruence.
  destruct (get_batch_by_ids_picks self batch_ids env_ids Hcov Hlen Rt Re)
    as [batch [Hbatch Hpicks]].
  exists batch. split; [|split; [exact Hpicks|]].
  - unfold sample_random_batch.
    destruct (split rng_key) as [k1 ids_key]. cbn [fst snd] in *.
    destruct (split k1) as [k2 env_key]. cbn [fst snd] in *.
    exact Hbatch.
  - replace batch_size
      with (length (Jnp.zip_with pair batch_ids env_ids))
      by (rewrite zip_with_length; lia).
    apply (batch_picks_length _ _ _ Hpicks).
Qed.

Lemma sample_random_batch_draws_witness :
  let batch_ids := Toy.key_randint [1%nat] 4 0 2 in
  let env_ids := Toy.key_randint [0%nat; 1%nat] 4 0 2 in
  (length batch_ids = 4%nat /\ length env_ids = 4%nat)
  /\ Forall (fun t => (0 <= t < 2)%Z) batch_ids
  /\ Forall (fun e => (0 <= e < 2)%Z) env_ids
  /\ exists batch,
       sample_random_batch Toy.numbered_sampler [] 4 = Some batch
       /\ batch_picks Toy.numbered_buffer (Jnp.zip_with pair batch_ids env_ids)
            batch
       /\ batch_length batch 4.
Proof.
  apply (sample_random_batch_draws Toy.numbered_sampler [] 4).
  - exact toy_randint_contract.
  - reflexivity.
Defined.

(** Sampling is with replacement: a batch of 4 drawn from the numbered
    buffer visits two cells twice and two cells never. *)
Example sample_random_batch_repeats :
  exists batch,
    sample_random_batch Toy.numbered_sampler [] 4 = Some batch
    /\ ep_len batch = [3; 0; 3; 0]%Z.
Proof. eexists. split; reflexivity. Qed.

(** ** The update loop *)

Section UpdateLoop.

Context `{Collaborators}.

Variables (self : PPO) (sampler : BufferSampler).
Variables (update_actor update_critic : bool) (batch_size : nat).

(** A step of the scan that does not raise is an inner step. *)
Lemma update_step_fn_inner s s' y :
  update_step_fn self sampler update_actor update_critic batch_size s tt
  = Some (s', y) ->
  inner_step self sampler update_actor update_critic batch_size s s'.
Proof.
  destruct s as [[rng_key actor] critic]. unfold update_step_fn, inner_step.
  destruct (split rng_key) as [k sk]. cbn [fst snd].
  destruct (sample_random_batch sampler sk batch_size) as [batch|];
    [|discriminate].
  cbn [bind]. intros E. exists batch. split; [reflexivity|].
  destruct update_actor, update_critic;
    try destruct (actor_loss_grad _ actor batch) as [ga ia];
    try destruct (critic_loss_grad critic batch) as [gc ic];
    cbn [fst] in *; congruence.
Qed.

(** It raises only if the sampler does. *)
Lemma update_step_fn_returns s :
  (forall key, exists batch,
      sample_random_batch sampler key batch_size = Some batch) ->
  exists s' y,
    update_step_fn self sampler update_actor update_critic batch_size s tt
    = Some (s', y).
Proof.
  intros Hs. destruct s as [[rng_key actor] critic]. unfold update_step_fn.
  destruct (split rng_key) as [k sk].
  destruct (Hs sk) as [batch ->]. cbn [bind].
  destruct update_actor, update_critic;
    try destruct (actor_loss_grad _ actor batch) as [ga ia];
    try destruct (critic_loss_grad critic batch) as [gc ic];
    eauto.
Qed.

Lemma scan_inner_steps n : forall init final aux,
  scan_length
    (update_step_fn self sampler update_actor update_critic batch_size)
    init n = Some (final, aux) ->
  inner_steps self sampler update_actor update_critic batch_size n init final
  /\ length aux = n.
Proof.
  induction n as [|n IH]; intros init final aux; cbn [scan_length].
  - intros E. injection E as <- <-. split; [constructor | reflexivity].
  - destruct (update_step_fn self sampler update_actor update_critic
                batch_size init tt) as [[c y]|] eqn:Hstep; [|discriminate].
    cbn [bind].
    destruct (scan_length _ c n) as [[c' ys]|] eqn:Hrest; [|discriminate].
    cbn [bind]. intros E. injection E as <- <-.
    destruct (IH _ _ _ Hrest) as [Hsteps Hlen]. split.
    + econstructor; [apply (update_step_fn_inner _ _ _ Hstep) | exact Hsteps].
    + simpl. rewrite Hlen. reflexivity.
Qed.

Lemma scan_returns n : forall init,
  (forall key, exists batch,
      sample_random_batch sampler key batch_size = Some batch) ->
  exists final aux,
    scan_length
      (update_step_fn self sampler update_actor update_critic batch_size)
      init n = Some (final, aux).
Proof.
  induction n as [|n IH]; intros init Hs; cbn [scan_length].
  - eauto.
  - destruct (update_step_fn_returns init Hs) as [c [y ->]]. cbn [bind].
    destruct (IH c Hs) as [final [aux ->]]. cbn [bind]. eauto.
Qed.

(** A model whose flag is off goes through any number of inner steps
    unchanged. *)
Lemma inner_steps_frame n s s' :
  inner_steps self sampler update_actor update_critic batch_size n s s' ->
  (update_actor = false -> snd (fst s') = snd (fst s))
  /\ (update_critic = false -> snd s' = snd s).
Proof.
  induction 1 as [s | n s s1 s2 Hstep _ IH]; [split; reflexivity|].
  destruct s as [[rng_key actor] critic]. unfold inner_step in Hstep.
  destruct Hstep as [batch [_ ->]]. cbn [fst snd] in *.
  destruct IH as [IHa IHc]. split; intros E.
  - rewrite (IHa E), E. reflexivity.
  - rewrite (IHc E), E. reflexivity.
Qed.

End UpdateLoop.

Lemma update_parameters_scan `{Collaborators} (self : PPO)
    rng_key actor critic update_actor update_critic update_iters num_envs
    batch_size buffer actor' critic' update_aux :
  update_parameters self rng_key actor critic update_actor update_critic
    update_iters num_envs batch_size buffer
  = Some (actor', critic', update_aux) ->
  exists rng_key',
    scan_length
      (update_step_fn self
         {| buffer := buffer; buffer_size := length (action buffer);
            num_envs := num_envs |}
         update_actor update_critic batch_size)
      (rng_key, actor, critic) update_iters
    = Some ((rng_key', actor', critic'), update_aux).
Proof.
  unfold update_parameters.
  destruct (scan_length _ _ update_iters) as [[[[k a] c] aux]|];
    [|discriminate].
  cbn [bind]. intros E. injection E as <- <- <-. eauto.
Qed.

Lemma update_parameters_of_scan `{Collaborators} (self : PPO)
    rng_key actor critic update_actor update_critic update_iters num_envs
    batch_size buffer rng_key' actor' critic' update_aux :
  scan_length
    (update_step_fn self
       {| buffer := buffer; buffer_size := length (action buffer);
          num_envs := num_envs |}
       update_actor update_critic batch_size)
    (rng_key, actor, critic) update_iters
  = Some ((rng_key', actor', critic'), update_aux) ->
  update_parameters self rng_key actor critic update_actor update_critic
    update_iters num_envs batch_size buffer
  = Some (actor', critic', update_aux).
Proof.
  intros E. unfold update_parameters. rewrite E. reflexivity.
Qed.

Lemma sampling_succeeds `{Collaborators} (sampler : BufferSampler) batch_size :
  randint_contract ->
  sampler_covers sampler = true ->
  forall key, exists batch,
    sample_random_batch sampler key batch_size = Some batch.
Proof.
  intros Hrand Hcov key. unfold sample_random_batch.
  destruct (positive_ranges sampler Hcov) as [HT HE].
  destruct (split key) as [k1 ids_key]. destruct (split k1) as [k2 env_key].
  destruct (Hrand ids_key batch_size 0%Z (Z.of_nat (buffer_size sampler)))
    as [Lt Rt].
  destruct (Hrand env_key batch_size 0%Z (Z.of_nat (num_envs sampler)))
    as [Le Re].
  destruct (get_batch_by_ids_picks sampler _ _ Hcov
              (eq_trans Lt (eq_sym Le)) (Rt HT) (Re HE)) as [batch [Hb _]].
  exists batch. exact Hb.
Qed.

(** C7. [update_parameters] runs [update_iters] inner steps in sequence.
    Each step splits the key it received, samples its own minibatch with the
    half that was split off, and takes its gradients at the actor and critic
    the step before it produced; the result is the carry of the last step. *)
Theorem update_parameters_sequential `{Collaborators} (self : PPO)
    (rng_key : PRNGKey) (actor critic : Model)
    (update_actor update_critic : bool)
    (update_iters num_envs batch_size : nat) (buffer : TimeStep Act Obs arr2) :
  randint_contract ->
  sampler_covers {| buffer := buffer; buffer_size := length (action buffer);
                    num_envs := num_envs |} = true ->
  exists rng_key' actor' critic' update_aux,
    update_parameters self rng_key actor critic update_actor update_critic
      update_iters num_envs batch_size buffer
    = Some (actor', critic', update_aux)
    /\ length update_aux = update_iters
    /\ inner_steps self
         {| buffer := buffer; buffer_size := length (action buffer);
            num_envs := num_envs |}
         update_actor update_critic batch_size update_iters
         (rng_key, actor, critic) (rng_key', actor', critic').
Proof.
  intros Hrand Hcov.
  destruct (scan_returns self _ update_actor update_critic batch_size
              update_iters (rng_key, actor, critic)
              (sampling_succeeds _ batch_size Hrand Hcov))
    as [[[k a] c] [aux Hscan]].
  exists k, a, c, aux.
  split; [apply (update_parameters_of_scan _ _ _ _ _ _ _ _ _ _ _ _ _ _ Hscan)|].
  destruct (scan_inner_steps _ _ _ _ _ _ _ _ _ Hscan) as [Hsteps Hlen].
  split; assumption.
Qed.

Lemma update_parameters_sequential_witness :
  exists rng_key' actor' critic' update_aux,
    update_parameters (H := Toy.world) (Toy.agent true 1 0.5) [] 10%Z 20%Z
      true true 3 2 4 Toy.numbered_buffer
    = Some (actor', critic', update_aux)
    /\ length update_aux = 3%nat
    /\ inner_steps (Toy.agent true 1 0.5) Toy.numbered_sampler
         true true 4 3 ([], 10%Z, 20%Z) (rng_key', actor', critic').
Proof.
  apply (update_parameters_sequential (Toy.agent true 1 0.5) [] 10%Z 20%Z
           true true 3 2 4 Toy.numbered_buffer).
  - exact toy_randint_contract.
  - reflexivity.
Defined.

(** Three inner steps on batches of 4 in the toy world, where a gradient
    step subtracts the size of the batch from the parameter. *)
Example update_parameters_runs :
  exists update_aux,
    update_parameters (H := Toy.world) (Toy.agent true 1 0.5) [] 10%Z 20%Z
      true true 3 2 4 Toy.numbered_buffer
    = Some ((-2)%Z, 8%Z, update_aux).
Proof. eexists. reflexivity. Qed.

(** C10. [update_parameters] called with [update_actor = false] returns the
    actor it was given, and called with [update_critic = false] returns the
    critic it was given, whatever the key, the buffer, [batch_size] and
    [update_iters]; and it does return when the sampler can index the
    buffer. *)
Theorem update_parameters_frame `{Collaborators} (self : PPO)
    (rng_key : PRNGKey) (actor critic : Model)
    (update_actor update_critic : bool)
    (update_iters num_envs batch_size : nat) (buffer : TimeStep Act Obs arr2) :
  (forall actor' critic' update_aux,
      update_parameters self rng_key actor critic update_actor update_critic
        update_iters num_envs batch_size buffer
      = Some (actor', critic', update_aux) ->
      (update_actor = false -> actor' = actor)
      /\ (update_critic = false -> critic' = critic))
  /\ (randint_contract ->
      sampler_covers {| buffer := buffer; buffer_size := length (action buffer);
                        num_envs := num_envs |} = true ->
      exists actor' critic' update_aux,
        update_parameters self rng_key actor critic update_actor update_critic
          update_iters num_envs batch_size buffer
        = Some (actor', critic', update_aux)).
Proof.
  split.
  - intros actor' critic' update_aux Hup.
    destruct (update_parameters_scan _ _ _ _ _ _ _ _ _ _ _ _ _ Hup)
      as [k Hscan].
    destruct (scan_inner_steps _ _ _ _ _ _ _ _ _ Hscan) as [Hsteps _].
    apply (inner_steps_frame _ _ _ _ _ _ _ _ Hsteps).
  - intros Hrand Hcov.
    destruct (scan_returns self _ update_actor update_critic batch_size
                update_iters (rng_key, actor, critic)
                (sampling_succeeds _ batch_size Hrand Hcov))
      as [[[k a] c] [aux Hscan]].
    exists a, c, aux.
    apply (update_parameters_of_scan _ _ _ _ _ _ _ _ _ _ _ _ _ _ Hscan).
Qed.

Lemma update_parameters_frame_witness :
  exists critic' update_aux,
    update_parameters (H := Toy.world) (Toy.agent true 1 0.5) [] 10%Z 20%Z
      false true 3 2 4 Toy.numbered_buffer
    = Some (10%Z, critic', update_aux).
Proof.
  destruct (update_parameters_frame (Toy.agent true 1 0.5) [] 10%Z 20%Z
              false true 3 2 4 Toy.numbered_buffer) as [Hframe Hret].
  destruct (Hret toy_randint_contract eq_refl) as [a [c [aux Hup]]].
  exists c, aux. rewrite Hup.
  destruct (Hframe a c aux Hup) as [Ha _]. rewrite (Ha eq_refl).
  reflexivity.
Defined.

(** ** No validation of hyperparameters *)

Lemma sample_empty_batch `{Collaborators} (sampler : BufferSampler) :
  randint_contract ->
  forall key, exists batch, sample_random_batch sampler key 0 = Some batch.
Proof.
  intros Hrand key. unfold sample_random_batch.
  destruct (split key) as [k1 ids_key]. destruct (split k1) as [k2 env_key].
  destruct (Hrand ids_key O 0%Z (Z.of_nat (buffer_size sampler))) as [Lt _].
  destruct (Hrand env_key O 0%Z (Z.of_nat (num_envs sampler))) as [Le _].
  apply length_zero_iff_nil in Lt, Le. rewrite Lt, Le.
  eexists. reflexivity.
Qed.

(** C8, the claim as stated fails: a configuration with a negative
    [clip_ratio] is built and keeps it, and [collect_buffer] with
    [rollout_steps_per_env = 0] rolls out before anything is checked: the
    loop has moved from state 0 to state 1 when the call raises, in
    [gae_advantages], which is given no step. *)
Lemma no_configuration_error :
  clip_ratio
    (cfg (PPO_init (Toy.grid_loop 1 0.5) true
            (mkPPOConfigArgs None None None (Some (-1)) None None None None
                             None None)))
  = -1
  /\ collect_buffer (Toy.agent true 1 0.5) 0%nat [] 0 2 (fun _ obs => obs)
     = (None, 1%nat).
Proof.
  split; reflexivity.
Qed.

Lemma but_last_short {A : Type} (a : list A) :
  (length a <= 1)%nat -> Jnp.but_last a = [].
Proof.
  destruct a as [|x [|y a]]; simpl; intros Ha; [reflexivity | reflexivity | lia].
Qed.

(** C8, as amended. The core validates no hyperparameter. [PPOConfig] keeps
    the [clip_ratio] it is given, whatever its sign; [collect_buffer], for
    every [rollout_steps_per_env], first asks the loop for a rollout of
    [rollout_steps_per_env + 1] steps and then works on what the loop
    returned, so that the loop has moved on also when the call raises, as it
    does on a rollout of at most one row; and [update_parameters] with
    [batch_size = 0] returns. *)
Theorem no_hyperparameter_validation `{Collaborators}
    (env_loop : Loop) (is_jax_env : bool) (args : PPOConfigArgs) (c : R)
    (self : PPO) (st st' : LoopState (loop self))
    (rng_key k0 : PRNGKey) (env_rng_keys : list PRNGKey)
    (rollout_steps_per_env : Z) (num_envs : nat)
    (apply_fn : PRNGKey -> StepIn -> StepOut) (raw : TimeStep Act Obs arr2)
    (actor critic : Model) (update_actor update_critic : bool)
    (update_iters : nat) (buffer : TimeStep Act Obs arr2) :
  arg_clip_ratio args = Some c ->
  split_n rng_key (num_envs + 1) = k0 :: env_rng_keys ->
  rollout (loop self) st env_rng_keys apply_fn (rollout_steps_per_env + 1)%Z
  = (raw, st') ->
  randint_contract ->
  clip_ratio (cfg (PPO_init env_loop is_jax_env args)) = c
  /\ collect_buffer self st rng_key rollout_steps_per_env num_envs apply_fn
     = (assemble_buffer (cfg self) raw, st')
  /\ ((length (reward raw) <= 1)%nat ->
      collect_buffer self st rng_key rollout_steps_per_env num_envs apply_fn
      = (None, st'))
  /\ exists actor' critic' update_aux,
       update_parameters self rng_key actor critic update_actor update_critic
         update_iters num_envs 0 buffer
       = Some (actor', critic', update_aux).
Proof.
  intros Hc Hk Hroll Hrand.
  assert (Hcollect :
            collect_buffer self st rng_key rollout_steps_per_env num_envs
              apply_fn
            = (assemble_buffer (cfg self) raw, st')).
  { unfold collect_buffer. rewrite Hk, Hroll. reflexivity. }
  split; [|split; [|split]].
  - cbn. rewrite Hc. reflexivity.
  - exact Hcollect.
  - intros Hshort. rewrite Hcollect. f_equal. unfold assemble_buffer.
    rewrite (but_last_short (reward raw) Hshort).
    rewrite gae_advantages_no_step. reflexivity.
  - destruct (scan_returns self
                {| buffer := buffer; buffer_size := length (action buffer);
                   num_envs := num_envs |}
                update_actor update_critic O
                update_iters (rng_key, actor, critic)
                (sample_empty_batch _ Hrand))
      as [[[k a] cr] [aux Hscan]].
    exists a, cr, aux.
    apply (update_parameters_of_scan _ _ _ _ _ _ _ _ _ _ _ _ _ _ Hscan).
Qed.

Lemma no_hyperparameter_validation_witness :
  clip_ratio
    (cfg (PPO_init (Toy.grid_loop 1 0.5) true
            (mkPPOConfigArgs None None None (Some (-1)) None None None None
                             None None)))
  = -1
  /\ collect_buffer (Toy.agent true 1 0.5) 0%nat [] 0 2 (fun _ obs => obs)
     = (None, 1%nat)
  /\ exists actor' critic' update_aux,
       update_parameters (H := Toy.world) (Toy.agent true 1 0.5) [] 10%Z 20%Z
         true true 3 2 0 Toy.numbered_buffer
       = Some (actor', critic', update_aux).
Proof.
  destruct (no_hyperparameter_validation (Toy.grid_loop 1 0.5) true
              (mkPPOConfigArgs None None None (Some (-1)) None None None None
                               None None)
              (-1) (Toy.agent true 1 0.5) 0%nat 1%nat [] [0%nat]
              [[1%nat]; [2%nat]] 0 2 (fun _ obs => obs)
              (fst (Toy.grid_rollout 1 0.5 0%nat [[1%nat]; [2%nat]]
                      (fun _ obs => obs) 1))
              10%Z 20%Z true true 3 Toy.numbered_buffer)
    as [Hclip [_ [Hraise Hupdate]]];
    try reflexivity; try exact toy_randint_contract.
  split; [exact Hclip|]. split; [|exact Hupdate].
  apply Hraise. simpl. lia.
Defined.

(** ** Determinism of training *)

Lemma scan_length_ext {C Y : Type} (f g : C -> unit -> option (C * Y)) :
  (forall c u, f c u = g c u) ->
  forall n init, scan_length f init n = scan_length g init n.
Proof.
  intros Hfg. induction n as [|n IH]; intros init; [reflexivity|].
  cbn [scan_length]. rewrite Hfg.
  destruct (g init tt) as [[c y]|]; [|reflexivity].
  cbn [bind]. rewrite IH. reflexivity.
Qed.

Section TwoRuns.

Context `{Collaborators}.

Variables self1 self2 : PPO.
Variable same : LoopState (loop self1) -> LoopState (loop self2) -> Prop.

Hypothesis same_cfg : cfg self1 = cfg self2.
Hypothesis same_env : same_behavior (loop self1) (loop self2) same.

Lemma collect_buffer_same st1 st2 rng_key steps num_envs apply_fn :
  same st1 st2 ->
  fst (collect_buffer self1 st1 rng_key steps num_envs apply_fn)
  = fst (collect_buffer self2 st2 rng_key steps num_envs apply_fn)
  /\ same (snd (collect_buffer self1 st1 rng_key steps num_envs apply_fn))
          (snd (collect_buffer self2 st2 rng_key steps num_envs apply_fn)).
Proof.
  intros Hst. unfold collect_buffer.
  destruct (split_n rng_key (num_envs + 1)) as [|k0 keys]; [split; auto|].
  destruct (same_env st1 st2 keys apply_fn (steps + 1)%Z Hst) as [Hb Hs].
  destruct (rollout (loop self1) st1 keys apply_fn (steps + 1)%Z) as [b1 s1].
  destruct (rollout (loop self2) st2 keys apply_fn (steps + 1)%Z) as [b2 s2].
  cbn [fst snd] in *. subst b2. rewrite same_cfg. split; auto.
Qed.

Lemma update_parameters_same rng_key actor critic ua uc update_iters num_envs
    batch_size buffer :
  update_parameters self1 rng_key actor critic ua uc update_iters num_envs
    batch_size buffer
  = update_parameters self2 rng_key actor critic ua uc update_iters num_envs
      batch_size buffer.
Proof.
  unfold update_parameters. f_equal. apply scan_length_ext.
  intros c u. unfold update_step_fn. rewrite same_cfg. reflexivity.
Qed.

Lemma train_step_same st1 st2 rng_key update_iters steps num_envs actor critic
    apply_fn batch_size :
  same st1 st2 ->
  fst (train_step self1 st1 rng_key update_iters steps num_envs actor critic
         apply_fn batch_size)
  = fst (train_step self2 st2 rng_key update_iters steps num_envs actor critic
           apply_fn batch_size)
  /\ same (snd (train_step self1 st1 rng_key update_iters steps num_envs actor
                  critic apply_fn batch_size))
          (snd (train_step self2 st2 rng_key update_iters steps num_envs actor
                  critic apply_fn batch_size)).
Proof.
  intros Hst. unfold train_step.
  destruct (split rng_key) as [k bk].
  destruct (collect_buffer_same st1 st2 bk steps num_envs
              (fun rng_key obs => apply_fn rng_key actor critic obs) Hst)
    as [Hb Hs].
  destruct (collect_buffer self1 st1 bk steps num_envs _) as [c1 s1].
  destruct (collect_buffer self2 st2 bk steps num_envs _) as [c2 s2].
  cbn [fst snd] in *. subst c2.
  destruct c1 as [buffer|]; [|split; auto].
  rewrite update_parameters_same.
  destruct (update_parameters self2 k actor critic true true update_iters
              num_envs batch_size buffer) as [[[a c] aux]|]; split; auto.
Qed.

End TwoRuns.

(** Two runs from the same inputs return the same (or both raise). *)
Lemma train_same_runs `{Collaborators} (self1 self2 : PPO)
    (same : LoopState (loop self1) -> LoopState (loop self2) -> Prop)
    (update_iters : nat) (steps_per_epoch : Z) (num_envs : nat)
    (batch_size : nat) :
  cfg self1 = cfg self2 ->
  same_behavior (loop self1) (loop self2) same ->
  forall epochs st1 st2 rng_key ac,
    same st1 st2 ->
    train self1 st1 update_iters steps_per_epoch num_envs rng_key epochs ac
          batch_size
    = train self2 st2 update_iters steps_per_epoch num_envs rng_key epochs ac
            batch_size.
Proof.
  intros Hcfg Henv.
  induction epochs as [|epochs IH]; intros st1 st2 rng_key ac Hst;
    [reflexivity|].
  cbn [train]. destruct (split rng_key) as [k tk].
  destruct (train_step_same self1 self2 same Hcfg Henv st1 st2 tk
              update_iters steps_per_epoch num_envs (fst ac) (snd ac)
              (fun rng_key actor critic obs => ac_step rng_key actor critic obs)
              batch_size Hst) as [Hr Hs].
  destruct (train_step self1 st1 tk update_iters steps_per_epoch num_envs
              _ _ _ _) as [r1 s1].
  destruct (train_step self2 st2 tk update_iters steps_per_epoch num_envs
              _ _ _ _) as [r2 s2].
  cbn [fst snd] in *. subst r2.
  destruct r1 as [[[actor critic] aux]|]; [|reflexivity].
  rewrite (IH s1 s2 k (actor, critic) Hs). reflexivity.
Qed.

(** ** The seeded run is the run *)

Lemma scan_length_erase {C Y S : Type} (f1 : C -> unit -> option (C * Y))
    (f2 : C -> unit -> option (C * (Y * S))) :
  (forall c, f1 c tt = option_map (fun r => (fst r, fst (snd r))) (f2 c tt)) ->
  forall n c,
    scan_length f1 c n
    = option_map (fun r => (fst r, map fst (snd r))) (scan_length f2 c n).
Proof.
  intros Hf. induction n as [|n IH]; intros c; [reflexivity|].
  cbn [scan_length]. rewrite Hf.
  destruct (f2 c tt) as [[c' [y s]]|]; [|reflexivity].
  cbn [option_map bind fst snd]. rewrite IH.
  destruct (scan_length f2 c' n) as [[c'' ys]|]; reflexivity.
Qed.

Section Erase.

Context `{Collaborators}.

Variable self : PPO.

Lemma sample_random_batch_erase sampler key batch_size :
  fst (sample_random_batch_seeded sampler key batch_size)
  = sample_random_batch sampler key batch_size.
Proof.
  unfold sample_random_batch_seeded, sample_random_batch.
  destruct (split key) as [k1 ids_key]. destruct (split k1) as [k2 env_key].
  reflexivity.
Qed.

Lemma update_step_fn_erase sampler ua uc batch_size c :
  update_step_fn self sampler ua uc batch_size c tt
  = option_map (fun r => (fst r, fst (snd r)))
      (update_step_fn_seeded self sampler ua uc batch_size c tt).
Proof.
  destruct c as [[k actor] critic].
  unfold update_step_fn, update_step_fn_seeded.
  destruct (split k) as [k' sk].
  rewrite <- sample_random_batch_erase.
  destruct (sample_random_batch_seeded sampler sk batch_size)
    as [[batch|] seeds]; [|reflexivity].
  cbn [fst bind].
  destruct ua, uc;
    try destruct (actor_loss_grad _ actor batch) as [ga ia];
    try destruct (critic_loss_grad critic batch) as [gc ic];
    reflexivity.
Qed.

Lemma update_parameters_erase rng_key actor critic ua uc update_iters num_envs
    batch_size buffer :
  update_parameters self rng_key actor critic ua uc update_iters num_envs
    batch_size buffer
  = option_map (fun r => fst r)
      (update_parameters_seeded self rng_key actor critic ua uc update_iters
         num_envs batch_size buffer).
Proof.
  unfold update_parameters, update_parameters_seeded.
  rewrite (scan_length_erase _ _
             (update_step_fn_erase _ ua uc batch_size)).
  destruct (scan_length _ (rng_key, actor, critic) update_iters)
    as [[[[k a] c] ys]|]; reflexivity.
Qed.

Lemma collect_buffer_erase st rng_key steps num_envs apply_fn :
  collect_buffer self st rng_key steps num_envs apply_fn
  = fst (collect_buffer_seeded self st rng_key steps num_envs apply_fn).
Proof.
  unfold collect_buffer, collect_buffer_seeded.
  destruct (split_n rng_key (num_envs + 1)) as [|k0 keys]; [reflexivity|].
  destruct (rollout (loop self) st keys apply_fn (steps + 1)%Z) as [b st'].
  reflexivity.
Qed.

Lemma train_step_erase st rng_key update_iters steps num_envs actor critic
    apply_fn batch_size :
  train_step self st rng_key update_iters steps num_envs actor critic apply_fn
    batch_size
  = fst (train_step_seeded self st rng_key update_iters steps num_envs actor
           critic apply_fn batch_size).
Proof.
  unfold train_step, train_step_seeded.
  destruct (split rng_key) as [k bk].
  rewrite collect_buffer_erase.
  destruct (collect_buffer_seeded self st bk steps num_envs _)
    as [[[buffer|] st'] env_seeds]; [|reflexivity].
  cbn [fst]. rewrite update_parameters_erase.
  destruct (update_parameters_seeded self k actor critic true true update_iters
              num_envs batch_size buffer) as [[[[a c] aux] seeds]|];
    reflexivity.
Qed.

Lemma train_erase update_iters steps num_envs batch_size :
  forall epochs st rng_key ac,
    train self st update_iters steps num_envs rng_key epochs ac batch_size
    = option_map fst
        (train_seeded self st update_iters steps num_envs rng_key epochs ac
           batch_size).
Proof.
  induction epochs as [|epochs IH]; intros st rng_key ac; [reflexivity|].
  cbn [train train_seeded]. destruct (split rng_key) as [k tk].
  rewrite train_step_erase.
  destruct (train_step_seeded self st tk update_iters steps num_envs _ _ _ _)
    as [[[[[a c] aux]|] st'] seeds]; [|reflexivity].
  cbn [fst]. rewrite IH.
  destruct (train_seeded self st' update_iters steps num_envs k epochs (a, c)
              batch_size) as [[history later]|]; reflexivity.
Qed.

End Erase.

(** ** The seeds of a run are split off the root key, each by its own path *)

Lemma nths_of_tail {A : Type} (x d : A) (l : list A) :
  l = map (fun i => nth i (x :: l) d) (seq 1 (length l)).
Proof.
  rewrite <- seq_shift, map_map. cbn [nth].
  apply (nth_ext _ _ d d).
  - rewrite length_map, length_seq. reflexivity.
  - intros t Ht.
    rewrite (nth_map_in _ _ d O) by (rewrite length_seq; exact Ht).
    rewrite seq_nth by exact Ht. reflexivity.
Qed.

Lemma NoDup_map_injective {A B : Type} (f : A -> B) l :
  (forall x y, In x l -> In y l -> f x = f y -> x = y) ->
  NoDup l -> NoDup (map f l).
Proof.
  intros Hinj Hl. induction Hl as [|x l Hx Hl IH]; [constructor|].
  cbn [map]. constructor.
  - intros Hin. apply in_map_iff in Hin. destruct Hin as [y [E Hy]].
    apply Hinj in E; [|right; exact Hy | left; reflexivity].
    subst y. contradiction.
  - apply IH. intros a b Ha Hb. apply Hinj; right; assumption.
Qed.

Lemma below_weaken p q paths : below (p ++ q) paths -> below p paths.
Proof.
  unfold below. apply Forall_impl. intros path [r Hr].
  exists (q ++ r). rewrite Hr, app_assoc. reflexivity.
Qed.

Lemma below_app p a b : below p a -> below p b -> below p (a ++ b).
Proof. intros Ha Hb. apply Forall_app. auto. Qed.

(** Paths through two different hops from the same place are different. *)
Lemma siblings_distinct p (i j : hop) a b :
  i <> j ->
  below (p ++ [i]) a -> below (p ++ [j]) b ->
  NoDup a -> NoDup b ->
  NoDup (a ++ b).
Proof.
  intros Hij Ha Hb Na Nb. apply NoDup_app; auto.
  intros x Hxa Hxb.
  unfold below in Ha, Hb. rewrite Forall_forall in Ha, Hb.
  destruct (Ha x Hxa) as [qa Hqa]. destruct (Hb x Hxb) as [qb Hqb].
  rewrite Hqa, <- !app_assoc in Hqb.
  apply app_inv_head in Hqb. cbn in Hqb. congruence.
Qed.

Section Seeds.

Context `{Collaborators}.

Variable root : PRNGKey.
Hypothesis split_n_length : split_n_contract.

Lemma derive_snoc p h : derive root (p ++ [h]) = hop_key (derive root p) h.
Proof. unfold derive. rewrite fold_left_app. reflexivity. Qed.

Lemma sample_seeds sampler p batch_size :
  exists paths,
    snd (sample_random_batch_seeded sampler (derive root p) batch_size)
    = map (derive root) paths
    /\ below p paths /\ NoDup paths /\ length paths = 2%nat.
Proof.
  exists [p ++ [Half true]; (p ++ [Half false]) ++ [Half true]].
  split; [|split; [|split]].
  - cbn [map]. rewrite !derive_snoc. cbn [hop_key].
    unfold sample_random_batch_seeded.
    destruct (split (derive root p)) as [k1 ids_key]. cbn [fst snd].
    destruct (split k1) as [k2 env_key]. reflexivity.
  - repeat constructor; [exists [Half true] | exists [Half false; Half true]];
      rewrite <- ?app_assoc; reflexivity.
  - repeat constructor.
    + intros [E|[]]. rewrite <- app_assoc in E.
      apply app_inv_head in E. discriminate.
    + intros [].
  - reflexivity.
Qed.

Lemma update_step_seeds self sampler ua uc batch_size k a c c1 y s :
  update_step_fn_seeded self sampler ua uc batch_size (k, a, c) tt
  = Some (c1, (y, s)) ->
  fst (fst c1) = fst (split k)
  /\ s = snd (sample_random_batch_seeded sampler (snd (split k)) batch_size).
Proof.
  unfold update_step_fn_seeded. destruct (split k) as [k' sk]. cbn [fst snd].
  destruct (sample_random_batch_seeded sampler sk batch_size)
    as [[batch|] seeds]; [|discriminate].
  cbn [bind snd].
  destruct ua, uc;
    try destruct (actor_loss_grad _ a batch) as [ga ia];
    try destruct (critic_loss_grad c batch) as [gc ic];
    intros E; injection E as <- _ <-; auto.
Qed.

Lemma scan_seeds self sampler ua uc batch_size :
  forall n p a c final ys,
    scan_length (update_step_fn_seeded self sampler ua uc batch_size)
      (derive root p, a, c) n = Some (final, ys) ->
    exists paths,
      concat (map snd ys) = map (derive root) paths
      /\ below p paths /\ NoDup paths /\ length paths = (2 * n)%nat.
Proof.
  induction n as [|n IH]; intros p a c final ys Hscan.
  - cbn in Hscan. injection Hscan as _ <-. exists [].
    repeat split; constructor.
  - cbn [scan_length] in Hscan.
    destruct (update_step_fn_seeded self sampler ua uc batch_size
                (derive root p, a, c) tt)
      as [[[[k1 a1] c1] [y s]]|] eqn:Estep; [|discriminate].
    cbn [bind] in Hscan.
    destruct (scan_length _ (k1, a1, c1) n) as [[c' ys']|] eqn:Erest;
      [|discriminate].
    cbn [bind] in Hscan. injection Hscan as _ <-.
    destruct (update_step_seeds _ _ _ _ _ _ _ _ _ _ _ Estep) as [Hk1 Hs].
    cbn [fst] in Hk1. subst k1 s.
    change (fst (split (derive root p)))
      with (hop_key (derive root p) (Half false)) in Erest.
    change (snd (split (derive root p)))
      with (hop_key (derive root p) (Half true)).
    rewrite <- derive_snoc in Erest. rewrite <- derive_snoc.
    destruct (IH _ _ _ _ _ Erest) as [later [El [Lb [Ln Ll]]]].
    destruct (sample_seeds sampler (p ++ [Half true]) batch_size)
      as [now [En [Sb [Sn Sl]]]].
    exists (now ++ later). cbn [map concat snd].
    rewrite En, El, map_app. split; [reflexivity|]. split; [|split].
    + apply below_app; [apply (below_weaken _ [Half true]) |
                        apply (below_weaken _ [Half false])]; assumption.
    + apply (siblings_distinct p (Half true) (Half false));
        auto; discriminate.
    + rewrite length_app, Sl, Ll. lia.
Qed.

Lemma collect_seeds self st p steps num_envs apply_fn :
  exists paths,
    snd (collect_buffer_seeded self st (derive root p) steps num_envs apply_fn)
    = map (derive root) paths
    /\ below p paths /\ NoDup paths /\ length paths = num_envs.
Proof.
  exists (map (fun i => p ++ [Nth (num_envs + 1)%nat i]) (seq 1 num_envs)).
  split; [|split; [|split]].
  - unfold collect_buffer_seeded.
    pose proof (split_n_length (derive root p) (num_envs + 1)%nat) as L.
    rewrite map_map.
    rewrite (map_ext _ (fun i =>
                          nth i (split_n (derive root p) (num_envs + 1)%nat)
                              (derive root p)))
      by (intros i; rewrite derive_snoc; reflexivity).
    destruct (split_n (derive root p) (num_envs + 1)%nat) as [|k0 keys];
      [simpl in L; lia|].
    destruct (rollout (loop self) st keys apply_fn (steps + 1)%Z) as [b st'].
    cbn [snd]. assert (Lk : num_envs = length keys) by (simpl in L; lia).
    rewrite Lk. apply nths_of_tail.
  - unfold below. apply Forall_forall. intros path Hin.
    apply in_map_iff in Hin. destruct Hin as [i [<- _]]. eauto.
  - apply NoDup_map_injective; [|apply seq_NoDup].
    intros x y _ _ E. apply app_inv_head in E. congruence.
  - rewrite length_map, length_seq. reflexivity.
Qed.

Lemma train_step_seeds self st p update_iters steps num_envs actor critic
    apply_fn batch_size r st' seeds :
  train_step_seeded self st (derive root p) update_iters steps num_envs actor
    critic apply_fn batch_size = (Some r, st', seeds) ->
  exists paths,
    seeds = map (derive root) paths
    /\ below p paths /\ NoDup paths
    /\ length paths = (num_envs + 2 * update_iters)%nat.
Proof.
  unfold train_step_seeded.
  rewrite (surjective_pairing (split (derive root p))).
  change (fst (split (derive root p)))
    with (hop_key (derive root p) (Half false)).
  change (snd (split (derive root p)))
    with (hop_key (derive root p) (Half true)).
  rewrite <- !derive_snoc.
  destruct (collect_seeds self st (p ++ [Half true]) steps num_envs
              (fun rng_key obs => apply_fn rng_key actor critic obs))
    as [envs [Ee [Cb [Cn Cl]]]].
  destruct (collect_buffer_seeded self st _ steps num_envs _)
    as [[[buffer|] st1] env_seeds]; [|discriminate].
  cbn [snd] in Ee. unfold update_parameters_seeded.
  destruct (scan_length _ (derive root (p ++ [Half false]), actor, critic)
              update_iters)
    as [[[[k' a'] c'] ys]|] eqn:Escan; [|discriminate].
  cbn [bind]. intros E. injection E as _ _ <-.
  destruct (scan_seeds _ _ _ _ _ _ _ _ _ _ _ Escan) as [upd [Eu [Sb [Sn Sl]]]].
  exists (envs ++ upd). rewrite Ee, Eu, map_app.
  split; [reflexivity|]. split; [|split].
  - apply below_app; [apply (below_weaken _ [Half true]) |
                      apply (below_weaken _ [Half false])]; assumption.
  - apply (siblings_distinct p (Half true) (Half false)); auto; discriminate.
  - rewrite length_app, Cl, Sl. reflexivity.
Qed.

(** Every seed of a run is split off the root key, by a path of its own. *)
Lemma train_seeds self update_iters steps num_envs batch_size :
  forall epochs st p ac history seeds,
    train_seeded self st update_iters steps num_envs (derive root p) epochs ac
      batch_size
    = Some (history, seeds) ->
    exists paths,
      seeds = map (derive root) paths
      /\ Forall (fun path => exists q, q <> [] /\ path = p ++ q) paths
      /\ NoDup paths
      /\ length paths = (epochs * (num_envs + 2 * update_iters))%nat
      /\ length history = epochs.
Proof.
  induction epochs as [|epochs IH]; intros st p ac history seeds Htrain.
  - cbn in Htrain. injection Htrain as <- <-. exists [].
    repeat split; constructor.
  - cbn [train_seeded] in Htrain.
    rewrite (surjective_pairing (split (derive root p))) in Htrain.
    change (fst (split (derive root p)))
      with (hop_key (derive root p) (Half false)) in Htrain.
    change (snd (split (derive root p)))
      with (hop_key (derive root p) (Half true)) in Htrain.
    rewrite <- !derive_snoc in Htrain.
    destruct (train_step_seeded self st (derive root (p ++ [Half true]))
                update_iters steps num_envs _ _ _ _)
      as [[[[[a c] aux]|] st'] now] eqn:Estep; [|discriminate].
    destruct (train_seeded self st' update_iters steps num_envs
                (derive root (p ++ [Half false])) epochs (a, c) batch_size)
      as [[h later]|] eqn:Erest; [|discriminate].
    cbn [bind] in Htrain. injection Htrain as <- <-.
    destruct (train_step_seeds _ _ _ _ _ _ _ _ _ _ _ _ _ Estep)
      as [ps [Es [Sb [Sn Sl]]]].
    destruct (IH _ _ _ _ _ Erest) as [pl [El [Lb [Ln [Ll Lh]]]]].
    assert (Lb' : below (p ++ [Half false]) pl).
    { unfold below. revert Lb. apply Forall_impl.
      intros x [q [_ Hq]]. exists q. exact Hq. }
    exists (ps ++ pl). rewrite Es, El, map_app.
    split; [reflexivity|]. split; [|split; [|split]].
    + apply Forall_app. split.
      * revert Sb. apply Forall_impl. intros x [q Hq].
        exists (Half true :: q). split; [discriminate|].
        rewrite Hq, <- app_assoc. reflexivity.
      * revert Lb'. apply Forall_impl. intros x [q Hq].
        exists (Half false :: q). split; [discriminate|].
        rewrite Hq, <- app_assoc. reflexivity.
    + apply (siblings_distinct p (Half true) (Half false));
        auto; discriminate.
    + rewrite length_app, Sl, Ll. cbn [Nat.mul]. reflexivity.
    + cbn [length]. rewrite Lh. reflexivity.
Qed.

End Seeds.

(** ** A run returns *)

Lemma has_shape_covers {A : Type} T T' E (a : arr2 A) :
  Jnp.has_shape T' E a = true -> (T <= T')%nat -> covers T E a = true.
Proof.
  intros Ha HT. unfold covers.
  rewrite (has_shape_length _ _ _ Ha), (has_shape_cols _ _ _ Ha).
  apply andb_true_iff. split; [apply Nat.leb_le; exact HT | reflexivity].
Qed.

Lemma add_bootstrap_shape (a : arr2 R) (v : list R) N E :
  Jnp.has_shape N E a = true -> length v = E ->
  Jnp.has_shape N E (map (fun row => Jnp.zip_with Rplus row v) a) = true.
Proof.
  intros Ha Hv. apply has_shape_spec in Ha. destruct Ha as [H1 H2].
  apply has_shape_spec. split; [rewrite length_map; exact H1|].
  intros r Hr. apply in_map_iff in Hr. destruct Hr as [r0 [<- Hr0]].
  rewrite zip_with_length, (H2 r0 Hr0), Hv. apply Nat.min_id.
Qed.

(** The buffer [collect_buffer] assembles from a rollout of N + 1 >= 2 steps
    over E >= 1 environments can be sampled from. *)
Lemma assemble_buffer_covers `{Collaborators} cfg (b : TimeStep Act Obs arr2)
    n E :
  (0 < n)%nat -> (0 < E)%nat ->
  buffer_has_shape (S n) E b = true ->
  exists buf,
    assemble_buffer cfg b = Some buf
    /\ sampler_covers {| buffer := buf;
                         buffer_size := length (action buf);
                         num_envs := E |} = true.
Proof.
  intros Hn HE Hs.
  destruct (buffer_has_shape_fields _ _ _ Hs)
    as [[Hlp [Hact Hobs]] [[_ [Hrew _]] [Hval [Hdone Hlen]]]].
  rewrite (assemble_buffer_computes cfg b n E Hn Hrew Hdone Hval).
  eexists. split; [reflexivity|].
  set (advantages := if normalize_advantage cfg then _ else _).
  assert (Hadv : Jnp.has_shape n E advantages = true).
  { unfold advantages. destruct (normalize_advantage cfg).
    - apply normalize_shape, advantages2_shape.
    - apply advantages2_shape. }
  unfold sampler_covers.
  cbn [buffer buffer_size num_envs log_p action env_obs adv reward ret value
       done ep_len].
  rewrite (has_shape_length _ _ _ (has_shape_but_last _ _ _ Hact)).
  rewrite !andb_true_iff.
  repeat split;
    try (apply Nat.ltb_lt; assumption);
    try (apply (has_shape_covers n n); [|lia]; apply has_shape_but_last;
         assumption);
    try (apply (has_shape_covers n (S n)); [assumption | lia]).
  - apply (has_shape_covers n n); [exact Hadv | lia].
  - apply (has_shape_covers n n); [|lia].
    apply add_bootstrap_shape; [exact Hadv|].
    apply (has_shape_row _ _ _ _ Hval). lia.
Qed.

Section Returns.

Context `{Collaborators}.

Variable self : PPO.
Variables n E update_iters batch_size : nat.
Hypothesis split_n_length : split_n_contract.
Hypothesis draws : randint_contract.
Hypothesis shaped : rollout_shape (loop self) n E.
Hypothesis steps : (0 < n)%nat.
Hypothesis envs : (0 < E)%nat.

Lemma train_step_seeded_returns st key actor critic apply_fn :
  exists r st' seeds,
    train_step_seeded self st key update_iters (Z.of_nat n) E actor
      critic apply_fn batch_size
    = (Some r, st', seeds).
Proof.
  unfold train_step_seeded. destruct (split key) as [k bk].
  unfold collect_buffer_seeded.
  pose proof (split_n_length bk (E + 1)%nat) as L.
  destruct (split_n bk (E + 1)) as [|k0 keys]; [simpl in L; lia|].
  assert (Lk : length keys = E) by (simpl in L; lia).
  pose proof (shaped st keys
                (fun rng_key obs => apply_fn rng_key actor critic obs) Lk)
    as Hshape.
  destruct (rollout (loop self) st keys _ (Z.of_nat n + 1)%Z) as [raw st1].
  cbn [fst] in Hshape.
  destruct (assemble_buffer_covers (cfg self) raw n E steps envs Hshape)
    as [buf [-> Hcov]].
  destruct (scan_returns self
              {| buffer := buf; buffer_size := length (action buf);
                 num_envs := E |}
              true true batch_size update_iters (k, actor, critic)
              (sampling_succeeds _ batch_size draws Hcov))
    as [[[k' a'] c'] [aux Hscan]].
  pose proof (update_parameters_of_scan _ _ _ _ _ _ _ _ _ _ _ _ _ _ Hscan)
    as Hup.
  rewrite update_parameters_erase in Hup.
  destruct (update_parameters_seeded self k actor critic true true update_iters
              E batch_size buf) as [[[[a2 c2] aux2] seeds]|];
    [|discriminate].
  eauto.
Qed.

Lemma train_seeded_returns :
  forall epochs st key ac,
    exists history seeds,
      train_seeded self st update_iters (Z.of_nat n) E key epochs ac
        batch_size
      = Some (history, seeds).
Proof.
  induction epochs as [|epochs IH]; intros st key ac; [cbn; eauto|].
  cbn [train_seeded]. destruct (split key) as [k tk].
  destruct (train_step_seeded_returns st tk (fst ac) (snd ac)
              (fun rng_key actor critic obs => ac_step rng_key actor critic obs))
    as [[[a c] aux] [st' [seeds ->]]].
  destruct (IH st' k (a, c)) as [history [later ->]].
  cbn [bind]. eauto.
Qed.

End Returns.

(** C9. Two runs of [train] with the same root key, the same configuration,
    the same initial models and environments that behave identically return,
    and return the same sequence of actor and critic, one pair per epoch.
    Every key that reaches a stochastic operation in the run (the keys of
    the environments in every epoch and the two keys of
    [jax.random.randint] in every inner step) is split off the root key,
    along a path of its own that is not empty: no two operations are given
    the key of the same path and none is given the root key, so that the
    seeds are distinct when [jax.random.split] makes no two of these keys
    collide. The rollouts have N + 1 >= 2 steps over one environment or
    more, and [randint] and [split] keep their contracts. *)
Theorem train_deterministic `{Collaborators} (self1 self2 : PPO)
    (same : LoopState (loop self1) -> LoopState (loop self2) -> Prop)
    (st1 : LoopState (loop self1)) (st2 : LoopState (loop self2))
    (update_iters n num_envs : nat)
    (rng_key : PRNGKey) (epochs : nat) (ac : Model * Model) (batch_size : nat) :
  cfg self1 = cfg self2 ->
  same_behavior (loop self1) (loop self2) same ->
  same st1 st2 ->
  split_n_contract ->
  randint_contract ->
  rollout_shape (loop self1) n num_envs ->
  (0 < n)%nat -> (0 < num_envs)%nat ->
  exists history seeds paths,
    train self1 st1 update_iters (Z.of_nat n) num_envs rng_key epochs ac
          batch_size = Some history
    /\ train self2 st2 update_iters (Z.of_nat n) num_envs rng_key epochs ac
             batch_size = Some history
    /\ length history = epochs
    /\ train_seeded self1 st1 update_iters (Z.of_nat n) num_envs rng_key epochs
         ac batch_size = Some (history, seeds)
    /\ seeds = map (derive rng_key) paths
    /\ length paths = (epochs * (num_envs + 2 * update_iters))%nat
    /\ NoDup paths
    /\ Forall (fun path => path <> []) paths
    /\ ((forall p q, In p paths -> In q paths ->
                     derive rng_key p = derive rng_key q -> p = q) ->
        NoDup seeds).
Proof.
  intros Hcfg Henv Hst Hsplit Hrand Hshape Hn HE.
  destruct (train_seeded_returns self1 n num_envs update_iters batch_size
              Hsplit Hrand Hshape Hn HE epochs st1 rng_key ac)
    as [history [seeds Hrun]].
  destruct (train_seeds rng_key Hsplit self1 update_iters (Z.of_nat n) num_envs
              batch_size epochs st1 [] ac history seeds Hrun)
    as [paths [Hseeds [Hbelow [Hdistinct [Hcount Hlength]]]]].
  assert (Hfirst : train self1 st1 update_iters (Z.of_nat n) num_envs rng_key
                     epochs ac batch_size = Some history).
  { rewrite train_erase, Hrun. reflexivity. }
  exists history, seeds, paths. split; [exact Hfirst|]. split.
  - rewrite <- Hfirst. symmetry.
    apply (train_same_runs self1 self2 same); assumption.
  - repeat split; try assumption.
    + revert Hbelow. apply Forall_impl. intros path [q [Hq ->]]. exact Hq.
    + intros Hfree. rewrite Hseeds.
      apply NoDup_map_injective; assumption.
Qed.

Lemma toy_split_n_contract : @split_n_contract Toy.world.
Proof.
  intros k m. cbn. unfold Toy.key_split_n.
  rewrite length_map, length_seq. reflexivity.
Qed.

(** Two epochs in the toy world, whose keys are the paths themselves: the 16
    seeds of the run are pairwise distinct. *)
Lemma train_deterministic_witness :
  exists history seeds,
    train (Toy.agent true 1 0.5) 0%nat 3 2 2 [] 2 (10%Z, 20%Z) 4
    = Some history
    /\ train (Toy.plain_agent true 1 0.5) tt 3 2 2 [] 2 (10%Z, 20%Z) 4
       = Some history
    /\ length history = 2%nat
    /\ train_seeded (Toy.agent true 1 0.5) 0%nat 3 2 2 [] 2 (10%Z, 20%Z) 4
       = Some (history, seeds)
    /\ length seeds = 16%nat
    /\ NoDup seeds.
Proof.
  destruct (train_deterministic (Toy.agent true 1 0.5)
              (Toy.plain_agent true 1 0.5) (fun _ _ => True) 0%nat tt
              3 2 2 [] 2 (10%Z, 20%Z) 4)
    as [history [seeds [paths [H1 [H2 [Hl [Hrun [Hs [Hc _]]]]]]]]].
  - reflexivity.
  - intros s1 s2 keys apply_fn steps _. split; [reflexivity | exact I].
  - exact I.
  - exact toy_split_n_contract.
  - exact toy_randint_contract.
  - intros st [|a [|b [|c keys]]] apply_fn L; try discriminate. reflexivity.
  - lia.
  - lia.
  - exists history, seeds. split; [exact H1|]. split; [exact H2|].
    split; [exact Hl|]. split; [exact Hrun|].
    split; [rewrite Hs, length_map; exact Hc|].
    assert (Hseeds :
              option_map snd
                (train_seeded (Toy.agent true 1 0.5) 0%nat 3 2 2 [] 2
                   (10%Z, 20%Z) 4)
              = Some
                  [[1; 1; 1]; [1; 1; 2]; [1; 0; 1; 1]; [1; 0; 1; 0; 1];
                   [1; 0; 0; 1; 1]; [1; 0; 0; 1; 0; 1]; [1; 0; 0; 0; 1; 1];
                   [1; 0; 0; 0; 1; 0; 1]; [0; 1; 1; 1]; [0; 1; 1; 2];
                   [0; 1; 0; 1; 1]; [0; 1; 0; 1; 0; 1]; [0; 1; 0; 0; 1; 1];
                   [0; 1; 0; 0; 1; 0; 1]; [0; 1; 0; 0; 0; 1; 1];
                   [0; 1; 0; 0; 0; 1; 0; 1]]%nat)
      by reflexivity.
    change (Z.of_nat 2) with 2%Z in Hrun.
    rewrite Hrun in Hseeds. cbn [option_map snd] in Hseeds.
    injection Hseeds as ->.
    repeat (constructor; [cbn [In]; intuition discriminate|]).
    constructor.
Defined.

(** Two epochs in the toy world: the run returns, with the models after
    each epoch. *)
Example train_runs :
  train (Toy.agent true 1 0.5) 0%nat 3 2 2 [] 2 (10%Z, 20%Z) 4
  = Some [((-2)%Z, 8%Z); ((-14)%Z, (-4)%Z)].
Proof. reflexivity. Qed.

(** * Further properties of the PPO core *)

(** ** The advantage estimator *)



Lemma gae_from_monte_carlo rewards dones values gamma :
  length dones = length rewards ->
  forallb negb dones = true ->
  forall k t, (t + k = length rewards)%nat ->
    GaeSpec.gae_from rewards dones values gamma 1 k t
    = GaeSpec.discounted gamma rewards k t
      + gamma ^ k * nth (length rewards) values 0 - nth t values 0.
Proof.
  intros Hd Hnone. induction k as [|k IH]; intros t Ht.
  - replace t with (length rewards) by lia. simpl. ring.
  - cbn [GaeSpec.gae_from GaeSpec.discounted]. rewrite IH by lia.
    unfold GaeSpec.delta, GaeSpec.not_done.
    assert (Hdt : nth t dones false = false).
    { rewrite forallb_forall in Hnone.
      specialize (Hnone (nth t dones false) ltac:(apply nth_In; lia)).
      destruct (nth t dones false); [discriminate | reflexivity]. }
    rewrite Hdt. simpl. ring.
Qed.



(** X4. Without the bootstrap value the call raises: if [values] has as many
    entries as [dones] (three or more) instead of one more, [values[1:]]
    does not broadcast against [not_dones]. *)
Theorem gae_missing_bootstrap_raises
    (rewards : list R) (dones : list bool) (values : list R)
    (gamma lambda : R) :
  length dones = length values ->
  (3 <= length values)%nat ->
  gae_advantages_env rewards dones values gamma lambda = None.
Proof.
  intros Hd Hn. unfold gae_advantages_env, gae_advantages_body. cbn [bind].
  destruct values as [|v0 [|v1 [|v2 values]]]; simpl in Hn; try lia.
  destruct dones as [|d0 [|d1 [|d2 dones]]]; simpl in Hd; try lia.
  unfold Jnp.ew2 at 1. cbn [Jnp.from1 tl map length].
  destruct (Nat.eqb_spec (S (S (length (map (Rmult gamma) values))))
              (S (S (S (length (map negb dones)))))) as [E|_].
  - rewrite !length_map in E. lia.
  - reflexivity.
Qed.

Lemma gae_missing_bootstrap_raises_witness :
  gae_advantages_env [1; 2; 3] [false; false; false] [4; 5; 6] 0.99 0.97
  = None.
Proof.
  apply (gae_missing_bootstrap_raises [1; 2; 3] [false; false; false]
           [4; 5; 6] 0.99 0.97); simpl; lia.
Defined.

(** ** Normalization and return targets *)

Lemma sum_map_plus c l :
  Jnp.sum (map (fun x => x + c) l) = Jnp.sum l + INR (length l) * c.
Proof.
  induction l as [|a l IH].
  - simpl. ring.
  - change (length (a :: l)) with (S (length l)). rewrite S_INR.
    simpl. rewrite IH. ring.
Qed.

Lemma mean_shift c l :
  l <> [] -> Jnp.mean (map (fun x => x + c) l) = Jnp.mean l + c.
Proof.
  intros Hl. pose proof (INR_length_pos l Hl) as Hn.
  unfold Jnp.mean. rewrite length_map, sum_map_plus. field. lra.
Qed.

Lemma std_shift c l :
  l <> [] -> Jnp.std (map (fun x => x + c) l) = Jnp.std l.
Proof.
  intros Hl. unfold Jnp.std, Jnp.var. rewrite mean_shift by exact Hl.
  rewrite map_map. f_equal. unfold Jnp.mean at 1 3. rewrite !length_map.
  f_equal. f_equal. apply map_ext. intros x. f_equal. ring.
Qed.

Lemma ravel_nil_rows {A B : Type} (f : A -> B) (a : arr2 A) :
  Jnp.ravel a = [] -> map (map f) a = map (fun _ => []) a.
Proof.
  unfold Jnp.ravel. induction a as [|r a IH]; intros H; [reflexivity|].
  simpl in H. apply app_eq_nil in H. destruct H as [-> H].
  simpl. rewrite IH by exact H. reflexivity.
Qed.

(** X5. The normalization ignores a constant offset: adding the same [c] to
    every advantage leaves the normalized advantages unchanged. *)
Theorem normalize_shift_invariant (advantages : arr2 R) (c : R) :
  normalize (map (map (fun x => x + c)) advantages) = normalize advantages.
Proof.
  destruct (list_eq_dec Req_dec_T (Jnp.ravel advantages) []) as [Hnil|Hne].
  - unfold normalize.
    rewrite (ravel_nil_rows (fun x => x + c) advantages Hnil).
    rewrite map_map. cbn [map]. symmetry.
    apply ravel_nil_rows. exact Hnil.
  - unfold normalize.
    replace (Jnp.ravel (map (map (fun x => x + c)) advantages))
      with (map (fun x => x + c) (Jnp.ravel advantages))
      by (unfold Jnp.ravel; apply concat_map).
    rewrite mean_shift, std_shift by exact Hne.
    rewrite map_map. apply map_ext. intros row. rewrite map_map.
    apply map_ext. intros x. f_equal. ring.
Qed.

Lemma sum_app l1 l2 : Jnp.sum (l1 ++ l2) = Jnp.sum l1 + Jnp.sum l2.
Proof. induction l1 as [|a l1 IH]; simpl; [ring | rewrite IH; ring]. Qed.

Lemma sum_zip_with_plus row v :
  length row = length v ->
  Jnp.sum (Jnp.zip_with Rplus row v) = Jnp.sum row + Jnp.sum v.
Proof.
  revert v; induction row as [|x row IH]; intros [|y v] H; simpl in *;
    try discriminate; [ring|].
  rewrite IH by congruence. ring.
Qed.

Lemma sum_ravel_add_row a v N E :
  Jnp.has_shape N E a = true -> length v = E ->
  Jnp.sum (Jnp.ravel (map (fun row => Jnp.zip_with Rplus row v) a))
  = Jnp.sum (Jnp.ravel a) + INR N * Jnp.sum v.
Proof.
  intros H Hv. apply has_shape_spec in H. destruct H as [H1 H2]. subst N.
  unfold Jnp.ravel. induction a as [|r a IH].
  - simpl. ring.
  - change (length (r :: a)) with (S (length a)). rewrite S_INR.
    simpl. rewrite !sum_app, IH by (intros r' Hr'; apply H2; right; exact Hr').
    rewrite sum_zip_with_plus by (rewrite (H2 r) by (left; reflexivity); auto).
    ring.
Qed.

Lemma ravel_add_row_length a v N E :
  Jnp.has_shape N E a = true -> length v = E ->
  length (Jnp.ravel (map (fun row => Jnp.zip_with Rplus row v) a))
  = (N * E)%nat.
Proof.
  intros H Hv. apply (ravel_length _ N E).
  apply has_shape_spec in H. destruct H as [H1 H2].
  apply has_shape_spec. split; [rewrite length_map; exact H1|].
  intros r Hr. apply in_map_iff in Hr. destruct Hr as [r0 [<- Hr0]].
  rewrite zip_with_length, (H2 r0 Hr0), Hv. apply Nat.min_id.
Qed.



(** ** The update loop and the epoch statistics *)

Lemma scan_length_related {C1 C2 Y1 Y2 : Type}
    (f1 : C1 -> unit -> option (C1 * Y1)) (f2 : C2 -> unit -> option (C2 * Y2))
    (rel : C1 -> C2 -> Prop) :
  (forall c1 c2, rel c1 c2 ->
     match f1 c1 tt, f2 c2 tt with
     | Some (c1', _), Some (c2', _) => rel c1' c2'
     | None, None => True
     | _, _ => False
     end) ->
  forall n c1 c2, rel c1 c2 ->
    match scan_length f1 c1 n, scan_length f2 c2 n with
    | Some (c1', _), Some (c2', _) => rel c1' c2'
    | None, None => True
    | _, _ => False
    end.
Proof.
  intros Hstep. induction n as [|n IH]; intros c1 c2 Hrel; [exact Hrel|].
  cbn [scan_length]. specialize (Hstep c1 c2 Hrel).
  destruct (f1 c1 tt) as [[c1' y1]|], (f2 c2 tt) as [[c2' y2]|];
    cbn [bind]; try contradiction; [|exact I].
  specialize (IH c1' c2' Hstep).
  destruct (scan_length f1 c1' n) as [[d1 ys1]|],
           (scan_length f2 c2' n) as [[d2 ys2]|];
    cbn [bind]; try contradiction; auto.
Qed.

(** X7. The two models are updated independently of each other: the actor
    [update_parameters] returns is the same whatever critic it is given and
    whether or not the critic is updated, and the critic it returns is the
    same whatever actor it is given and whether or not the actor is updated
    (and the call raises in the one case exactly when it does in the
    other). *)
Theorem update_parameters_models_independent `{Collaborators} (self : PPO)
    (rng_key : PRNGKey) (actor actor2 critic critic2 : Model)
    (update_actor update_actor2 update_critic update_critic2 : bool)
    (update_iters num_envs batch_size : nat) (buffer : TimeStep Act Obs arr2) :
  option_map (fun r => fst (fst r))
    (update_parameters self rng_key actor critic update_actor update_critic
       update_iters num_envs batch_size buffer)
  = option_map (fun r => fst (fst r))
      (update_parameters self rng_key actor critic2 update_actor update_critic2
         update_iters num_envs batch_size buffer)
  /\ option_map (fun r => snd (fst r))
       (update_parameters self rng_key actor critic update_actor update_critic
          update_iters num_envs batch_size buffer)
     = option_map (fun r => snd (fst r))
         (update_parameters self rng_key actor2 critic update_actor2
            update_critic update_iters num_envs batch_size buffer).
Proof.
  set (sampler := {| buffer := buffer; buffer_size := length (action buffer);
                     num_envs := num_envs |}).
  split.
  - pose proof (scan_length_related
                  (update_step_fn self sampler update_actor update_critic
                     batch_size)
                  (update_step_fn self sampler update_actor update_critic2
                     batch_size)
                  (fun s1 s2 => fst s1 = fst s2)) as Hscan.
    unfold update_parameters. fold sampler.
    specialize (Hscan
      ltac:(intros [[k a] c] [[k2 a2] c2] E; cbn [fst] in E;
            injection E as <- <-; unfold update_step_fn;
            destruct (split k) as [k' sk];
            destruct (sample_random_batch sampler sk batch_size) as [b|];
            cbn [bind]; [|exact I];
            destruct update_actor, update_critic, update_critic2;
            try destruct (actor_loss_grad _ a b);
            try destruct (critic_loss_grad c b);
            try destruct (critic_loss_grad c2 b); reflexivity)
      update_iters (rng_key, actor, critic) (rng_key, actor, critic2)
      eq_refl).
    destruct (scan_length _ (rng_key, actor, critic) update_iters)
      as [[[[k1 a1] c1] aux1]|],
             (scan_length _ (rng_key, actor, critic2) update_iters)
      as [[[[k2 a2] c2] aux2]|];
      cbn [bind option_map fst snd] in *; try contradiction;
      [congruence | reflexivity].
  - pose proof (scan_length_related
                  (update_step_fn self sampler update_actor update_critic
                     batch_size)
                  (update_step_fn self sampler update_actor2 update_critic
                     batch_size)
                  (fun s1 s2 => fst (fst s1) = fst (fst s2) /\ snd s1 = snd s2))
      as Hscan.
    unfold update_parameters. fold sampler.
    specialize (Hscan
      ltac:(intros [[k a] c] [[k2 a2] c2] [E1 E2]; cbn [fst snd] in E1, E2;
            subst k2 c2; unfold update_step_fn;
            destruct (split k) as [k' sk];
            destruct (sample_random_batch sampler sk batch_size) as [b|];
            cbn [bind]; [|exact I];
            destruct update_actor, update_actor2, update_critic;
            try destruct (actor_loss_grad _ a b);
            try destruct (actor_loss_grad _ a2 b);
            try destruct (critic_loss_grad c b); split; reflexivity)
      update_iters (rng_key, actor, critic) (rng_key, actor2, critic)
      (conj eq_refl eq_refl)).
    destruct (scan_length _ (rng_key, actor, critic) update_iters)
      as [[[[k1 a1] c1] aux1]|],
             (scan_length _ (rng_key, actor2, critic) update_iters)
      as [[[[k2 a2] c2] aux2]|];
      cbn [bind option_map fst snd] in *; try contradiction;
      [destruct Hscan; congruence | reflexivity].
Qed.

(** X8. The first epochs do not depend on how many follow: when [train]
    returns for [m + n] epochs, it returns for [m] epochs too, with the first
    [m] pairs of the longer run. *)
Theorem train_prefix `{Collaborators} (self : PPO) (m n : nat) :
  forall (st : LoopState (loop self)) (update_iters : nat)
         (steps_per_epoch : Z) (num_envs : nat) (rng_key : PRNGKey)
         (ac : Model * Model) (batch_size : nat) (history : list (Model * Model)),
    train self st update_iters steps_per_epoch num_envs rng_key (m + n) ac
          batch_size = Some history ->
    train self st update_iters steps_per_epoch num_envs rng_key m ac batch_size
    = Some (firstn m history).
Proof.
  induction m as [|m IH];
    intros st update_iters steps_per_epoch num_envs rng_key ac batch_size
           history Hrun; [reflexivity|].
  change (S m + n)%nat with (S (m + n)) in Hrun. cbn [train] in *.
  destruct (split rng_key) as [k tk].
  destruct (train_step self st tk update_iters steps_per_epoch num_envs
              (fst ac) (snd ac) _ batch_size) as [[[[actor critic] aux]|] st1];
    [|discriminate].
  destruct (train self st1 update_iters steps_per_epoch num_envs k (m + n)
              (actor, critic) batch_size) as [rest|] eqn:Hrest;
    [|discriminate].
  cbn [bind] in Hrun. injection Hrun as <-.
  rewrite (IH _ _ _ _ _ _ _ _ Hrest). reflexivity.
Qed.

Lemma train_prefix_witness :
  train (Toy.agent true 1 0.5) 0%nat 3 2 2 [] 1 (10%Z, 20%Z) 4
  = Some (firstn 1 [((-2)%Z, 8%Z); ((-14)%Z, (-4)%Z)]).
Proof.
  apply (train_prefix (Toy.agent true 1 0.5) 1 1 0%nat 3 2 2 []
           (10%Z, 20%Z) 4 [((-2)%Z, 8%Z); ((-14)%Z, (-4)%Z)]).
  reflexivity.
Defined.

Lemma mask_row_total {A : Type} (row : list A) (mask : list bool) :
  length row = length mask -> exists sel, mask_row row mask = Some sel.
Proof.
  revert mask; induction row as [|x row IH]; intros [|m mask] H;
    simpl in H; try discriminate.
  - exists []. reflexivity.
  - destruct (IH mask) as [sel Hsel]; [congruence|].
    cbn [mask_row]. rewrite Hsel. cbn [bind]. eauto.
Qed.

Lemma mask_select_total {A : Type} (a : arr2 A) (mask : arr2 bool) T E :
  Jnp.has_shape T E a = true -> Jnp.has_shape T E mask = true ->
  exists sel, mask_select a mask = Some sel.
Proof.
  intros Ha Hm. apply has_shape_spec in Ha, Hm.
  destruct Ha as [La Ra], Hm as [Lm Rm]. subst T.
  revert mask Lm Rm; induction a as [|row a IH]; intros [|m mask] Lm Rm;
    simpl in Lm; try discriminate.
  - exists []. reflexivity.
  - destruct (mask_row_total row m) as [sel Hsel].
    { rewrite (Ra row), (Rm m) by (left; reflexivity). reflexivity. }
    destruct (IH (fun r Hr => Ra r (or_intror Hr)) mask) as [rest Hrest].
    + congruence.
    + intros r Hr. apply Rm. right. exact Hr.
    + cbn [mask_select]. rewrite Hsel. cbn [bind]. rewrite Hrest.
      cbn [bind]. eauto.
Qed.

Lemma mask_row_length {A B : Type} (row : list A) (row' : list B) mask :
  forall sel sel',
    mask_row row mask = Some sel -> mask_row row' mask = Some sel' ->
    length sel = length sel'.
Proof.
  revert row row'; induction mask as [|m mask IH];
    intros [|x row] [|y row'] sel sel' H1 H2; simpl in H1, H2;
    try discriminate.
  - injection H1 as <-. injection H2 as <-. reflexivity.
  - destruct (mask_row row mask) as [s|] eqn:E1; [|discriminate].
    destruct (mask_row row' mask) as [s'|] eqn:E2; [|discriminate].
    cbn [bind] in H1, H2. injection H1 as <-. injection H2 as <-.
    pose proof (IH _ _ _ _ E1 E2). destruct m; simpl; congruence.
Qed.

(** Two selections by the same mask select equally many cells. *)
Lemma mask_select_length {A B : Type} (a : arr2 A) (b : arr2 B) mask :
  forall sel sel',
    mask_select a mask = Some sel -> mask_select b mask = Some sel' ->
    length sel = length sel'.
Proof.
  revert a b; induction mask as [|m mask IH];
    intros [|r a] [|r' b] sel sel' H1 H2; simpl in H1, H2;
    try discriminate.
  - injection H1 as <-. injection H2 as <-. reflexivity.
  - destruct (mask_row r m) as [s|] eqn:E1; [|discriminate].
    destruct (mask_row r' m) as [s'|] eqn:E2; [|discriminate].
    cbn [bind] in H1, H2.
    destruct (mask_select a mask) as [t|] eqn:F1; [|discriminate].
    destruct (mask_select b mask) as [t'|] eqn:F2; [|discriminate].
    cbn [bind] in H1, H2. injection H1 as <-. injection H2 as <-.
    rewrite !length_app, (mask_row_length _ _ _ _ _ E1 E2),
      (IH _ _ _ _ F1 F2).
    reflexivity.
Qed.

(** X9. The [ep_rets] statistic that [train] prints is not a mean of episode
    returns: [collect_buffer] has overwritten [ret], and the statistic is the
    mean of the return targets [adv[t, e] + value[N, e]] over the cells where
    [done] holds, as [ep_lens] is the mean of [ep_len] over the same cells;
    both are nan when no episode ended. After a rollout of N + 1 >= 2 steps
    the statistics are computed without a shape error. *)
Theorem epoch_info_reads_return_targets `{Collaborators}
    (self : PPO) (st st' : LoopState (loop self))
    (rng_key k0 : PRNGKey) (env_rng_keys : list PRNGKey)
    (n num_envs E : nat) (apply_fn : PRNGKey -> StepIn -> StepOut)
    (raw : TimeStep Act Obs arr2) :
  split_n rng_key (num_envs + 1) = k0 :: env_rng_keys ->
  rollout (loop self) st env_rng_keys apply_fn (Z.of_nat n + 1)%Z = (raw, st') ->
  buffer_has_shape (S n) E raw = true ->
  (0 < n)%nat ->
  exists buf lens targets,
    collect_buffer self st rng_key (Z.of_nat n) num_envs apply_fn
    = (Some buf, st')
    /\ mask_select (Jnp.but_last (ep_len raw)) (Jnp.but_last (done raw))
       = Some lens
    /\ mask_select
         (map (fun row => Jnp.zip_with Rplus row (nth n (value raw) []))
              (adv buf))
         (Jnp.but_last (done raw))
       = Some targets
    /\ length targets = length lens
    /\ epoch_info buf
       = Some (mean_or_nan (map IZR lens), mean_or_nan targets).
Proof.
  intros Hk Hr Hs Hn.
  destruct (buffer_has_shape_fields _ _ _ Hs)
    as [_ [[_ [Hrew _]] [Hval [Hdone Hlen]]]].
  rewrite (collect_buffer_computes self st st' rng_key k0 env_rng_keys n
             num_envs apply_fn raw Hk Hr).
  rewrite (assemble_buffer_computes (cfg self) raw n E Hn Hrew Hdone Hval).
  set (advantages := if normalize_advantage (cfg self) then _ else _).
  assert (Hadv : Jnp.has_shape n E advantages = true).
  { unfold advantages. destruct (normalize_advantage (cfg self)).
    - apply normalize_shape, advantages2_shape.
    - apply advantages2_shape. }
  assert (Hret : Jnp.has_shape n E
                   (map (fun row => Jnp.zip_with Rplus row (nth n (value raw) []))
                        advantages) = true).
  { apply has_shape_spec in Hadv. destruct Hadv as [H1 H2].
    apply has_shape_spec. split; [rewrite length_map; exact H1|].
    intros r Hr0. apply in_map_iff in Hr0. destruct Hr0 as [r0 [<- Hr0]].
    rewrite zip_with_length, (H2 r0 Hr0).
    rewrite (has_shape_row _ _ _ _ Hval) by lia. apply Nat.min_id. }
  destruct (mask_select_total _ _ n E (has_shape_but_last _ _ _ Hlen)
              (has_shape_but_last _ _ _ Hdone)) as [lens Hlens].
  destruct (mask_select_total _ _ n E Hret (has_shape_but_last _ _ _ Hdone))
    as [targets Htargets].
  eexists. exists lens, targets. split; [reflexivity|].
  cbn [adv]. split; [exact Hlens|]. split; [exact Htargets|].
  split; [exact (mask_select_length _ _ _ _ _ Htargets Hlens)|].
  unfold epoch_info. cbn [done ep_len ret].
  rewrite Hlens. cbn [bind]. rewrite Htargets. reflexivity.
Qed.

(** A rollout in which every episode lasts two steps: the two cells of step
    1 are selected, the episode length reported is 2 and the other
    statistic is a number. *)
Lemma epoch_info_reads_return_targets_witness :
  exists buf targets,
    collect_buffer (Toy.episodic_agent true) 0%nat [] 2 2 (fun _ obs => obs)
    = (Some buf, 3%nat)
    /\ mask_select
         (map (fun row =>
                 Jnp.zip_with Rplus row
                   (nth 2 (Toy.table 3 2 (fun t e => INR (10 * t + e))) []))
              (adv buf))
         (Jnp.but_last (Toy.table 3 2 (fun t _ => Nat.odd t)))
       = Some targets
    /\ length targets = 2%nat
    /\ epoch_info buf
       = Some (Ieee.Fin (Jnp.mean [2; 2]), Ieee.Fin (Jnp.mean targets)).
Proof.
  destruct (epoch_info_reads_return_targets (Toy.episodic_agent true)
              0%nat 3%nat [] [0%nat] [[1%nat]; [2%nat]] 2 2 2
              (fun _ obs => obs)
              (fst (Toy.episodic_rollout 0%nat [[1%nat]; [2%nat]]
                      (fun _ obs => obs) 3)))
    as [buf [lens [targets [Hbuf [Hlens [Htargets [Hlen Hinfo]]]]]]];
    try reflexivity; try lia.
  assert (lens = [2; 2]%Z) as -> by (vm_compute in Hlens; congruence).
  exists buf, targets. split; [exact Hbuf|]. split; [exact Htargets|].
  split; [exact Hlen|]. rewrite Hinfo.
  destruct targets as [|t0 targets]; [discriminate|]. reflexivity.
Defined.

(** * Properties of the logger *)

Module LoggerFacts.

Import String Ascii LoggerPy.

(** ** Dictionaries *)

Lemma dget_dset_same {V : Type} k (v : V) d : dget k (dset k v d) = Some v.
Proof.
  induction d as [|[k' v'] d IH]; simpl.
  - rewrite String.eqb_refl. reflexivity.
  - destruct (String.eqb k k') eqn:E; simpl.
    + rewrite String.eqb_refl. reflexivity.
    + rewrite E. exact IH.
Qed.

Lemma dget_dset_other {V : Type} k k' (v : V) d :
  k <> k' -> dget k' (dset k v d) = dget k' d.
Proof.
  intros Hne. induction d as [|[k0 v0] d IH]; simpl.
  - destruct (String.eqb_spec k' k); [congruence | reflexivity].
  - destruct (String.eqb_spec k k0) as [->|Hk]; simpl.
    + destruct (String.eqb_spec k' k0); [congruence | reflexivity].
    + destruct (String.eqb_spec k' k0); [reflexivity | exact IH].
Qed.

Lemma In_dset {V : Type} k (v : V) d k' v' :
  In (k', v') (dset k v d) -> (k' = k /\ v' = v) \/ In (k', v') d.
Proof.
  induction d as [|[k0 v0] d IH]; simpl.
  - intros [E|[]]. injection E as <- <-. auto.
  - destruct (String.eqb k k0); simpl.
    + intros [E|H]; [injection E as <- <-; auto | auto].
    + intros [E|H]; [auto | destruct (IH H); auto].
Qed.

Lemma dget_In {V : Type} k (v : V) d : dget k d = Some v -> In (k, v) d.
Proof.
  induction d as [|[k0 v0] d IH]; simpl; [discriminate|].
  destruct (String.eqb_spec k k0) as [->|Hk].
  - intros E. injection E as ->. auto.
  - auto.
Qed.

Lemma In_dget {V : Type} k (v : V) d :
  NoDup (keys d) -> In (k, v) d -> dget k d = Some v.
Proof.
  induction d as [|[k0 v0] d IH]; simpl; [contradiction|].
  intros Hnd [E|H].
  - injection E as -> ->. rewrite String.eqb_refl. reflexivity.
  - inversion Hnd as [|? ? Hnotin Hnd']; subst.
    destruct (String.eqb_spec k k0) as [->|Hk].
    + exfalso. apply Hnotin. apply (in_map fst) in H. exact H.
    + apply IH; assumption.
Qed.

Lemma dget_None_keys {V : Type} k (d : dict V) :
  dget k d = None <-> ~ In k (keys d).
Proof.
  induction d as [|[k0 v0] d IH]; simpl; [tauto|].
  destruct (String.eqb_spec k k0) as [->|Hk].
  - split; [discriminate | intros H; exfalso; apply H; auto].
  - rewrite IH. split; [intros H [E|H']; [congruence | auto] | tauto].
Qed.

(** ** store and get_data *)

Lemma lookup2_put tag k v d t k' :
  lookup2 t k' (put tag k v d)
  = if String.eqb t tag && String.eqb k' k then Some v else lookup2 t k' d.
Proof.
  unfold put, touch, lookup2.
  destruct (String.eqb_spec t tag) as [->|Ht]; cbn [andb].
  - destruct (dget tag d) as [entries|] eqn:Hd; cbn [fst snd];
      rewrite dget_dset_same.
    + destruct (String.eqb_spec k' k) as [->|Hk].
      * apply dget_dset_same.
      * apply dget_dset_other. congruence.
    + destruct (String.eqb_spec k' k) as [->|Hk].
      * apply dget_dset_same.
      * rewrite dget_dset_other by congruence. reflexivity.
  - destruct (dget tag d) as [entries|] eqn:Hd; cbn [fst snd].
    + rewrite dget_dset_other by congruence. reflexivity.
    + rewrite !dget_dset_other by congruence. reflexivity.
Qed.

Lemma store_items_append_step tag k v rest d :
  store_items tag true ((k, v) :: rest) d
  = match lookup2 tag k d with
    | Some (Many vals) =>
        store_items tag true rest (put tag k (Many (vals ++ [v])) d)
    | Some (One _) => (fst (touch tag d), Raised AttributeError)
    | None => store_items tag true rest (put tag k (Many [v]) d)
    end.
Proof.
  cbn [store_items]. unfold put, lookup2, touch.
  destruct (dget tag d) as [entries|]; cbn [fst snd]; reflexivity.
Qed.

Lemma lookup2_touch tag d t k :
  lookup2 t k (fst (touch tag d)) = lookup2 t k d.
Proof.
  unfold touch, lookup2. destruct (dget tag d) as [entries|] eqn:Hd;
    cbn [fst]; [reflexivity|].
  destruct (String.eqb_spec t tag) as [->|Ht].
  - rewrite dget_dset_same, Hd. reflexivity.
  - rewrite dget_dset_other by congruence. reflexivity.
Qed.

Lemma store_items_appends tag : forall kwargs d,
  NoDup (map fst kwargs) ->
  (forall k v x, In (k, v) kwargs -> lookup2 tag k d <> Some (One x)) ->
  snd (store_items tag true kwargs d) = Returned tt
  /\ (forall k v, In (k, v) kwargs ->
        lookup2 tag k (fst (store_items tag true kwargs d))
        = Some (Many (previous tag k d ++ [v])))
  /\ (forall t k, (t <> tag \/ ~ In k (map fst kwargs)) ->
        lookup2 t k (fst (store_items tag true kwargs d)) = lookup2 t k d).
Proof.
  induction kwargs as [|[k0 v0] rest IH]; intros d Hnd Hlist.
  - cbn [store_items fst snd]. split; [reflexivity|].
    split; [intros k v []| reflexivity].
  - rewrite store_items_append_step.
    inversion Hnd as [|? ? Hnotin Hnd']; subst.
    assert (Hstep : forall s,
              (forall k v x, In (k, v) rest ->
                 lookup2 tag k (put tag k0 s d) <> Some (One x))).
    { intros s k v x Hin. rewrite lookup2_put, String.eqb_refl. cbn [andb].
      destruct (String.eqb_spec k k0) as [->|Hk].
      - exfalso. apply Hnotin. apply (in_map fst) in Hin. exact Hin.
      - apply (Hlist k v x). right. exact Hin. }
    assert (Hgoal : forall s,
              s = Many (previous tag k0 d ++ [v0]) ->
              snd (store_items tag true rest (put tag k0 s d)) = Returned tt
              /\ (forall k v, In (k, v) ((k0, v0) :: rest) ->
                    lookup2 tag k (fst (store_items tag true rest
                                          (put tag k0 s d)))
                    = Some (Many (previous tag k d ++ [v])))
              /\ (forall t k, (t <> tag \/ ~ In k (map fst ((k0, v0) :: rest))) ->
                    lookup2 t k (fst (store_items tag true rest
                                        (put tag k0 s d)))
                    = lookup2 t k d)).
    { intros s Hs. destruct (IH (put tag k0 s d) Hnd' (Hstep s))
        as [Hret [Happ Hframe]].
      split; [exact Hret|]. split.
      - intros k v [E|Hin].
        + injection E as <- <-. rewrite Hframe by (right; exact Hnotin).
          rewrite lookup2_put, !String.eqb_refl. cbn [andb]. congruence.
        + rewrite (Happ k v Hin). unfold previous. rewrite lookup2_put.
          rewrite String.eqb_refl. cbn [andb].
          destruct (String.eqb_spec k k0) as [->|Hk]; [|reflexivity].
          exfalso. apply Hnotin. apply (in_map fst) in Hin. exact Hin.
      - intros t k Hor. rewrite Hframe.
        + rewrite lookup2_put.
          destruct (String.eqb_spec t tag) as [->|Ht]; [|reflexivity].
          destruct (String.eqb_spec k k0) as [->|Hk]; [|reflexivity].
          exfalso. destruct Hor as [Hor|Hor]; [congruence|].
          apply Hor. left. reflexivity.
        + destruct Hor as [Hor|Hor]; [left; exact Hor|].
          right. intros Hin. apply Hor. right. exact Hin. }
    unfold previous in Hgoal.
    destruct (lookup2 tag k0 d) as [[vals|x]|] eqn:Hl.
    + apply Hgoal. reflexivity.
    + exfalso. apply (Hlist k0 v0 x); [left; reflexivity | exact Hl].
    + apply Hgoal. reflexivity.
Qed.

(** X10. [store] with [append=True] appends: when none of the keys holds a
    value that was put with [append=False], the call returns, every key [k]
    of [kwargs] then holds its earlier list followed by the new value, and
    no other key of any tag changes. *)
Theorem store_appends (self : Logger) (tag : string)
    (kwargs : list (string * R)) :
  NoDup (map fst kwargs) ->
  (forall k v x, In (k, v) kwargs ->
     lookup2 tag k (data self) <> Some (One x)) ->
  snd (store self tag true kwargs) = Returned tt
  /\ (forall k v, In (k, v) kwargs ->
        lookup2 tag k (data (fst (store self tag true kwargs)))
        = Some (Many (previous tag k (data self) ++ [v])))
  /\ (forall t k, (t <> tag \/ ~ In k (map fst kwargs)) ->
        lookup2 t k (data (fst (store self tag true kwargs)))
        = lookup2 t k (data self)).
Proof.
  intros Hnd Hlist. unfold store.
  destruct (store_items_appends tag kwargs (data self) Hnd Hlist)
    as [Hret [Happ Hframe]].
  destruct (store_items tag true kwargs (data self)) as [d r].
  cbn [fst snd data with_data] in *. auto.
Qed.

Lemma store_appends_witness :
  let self := init_attributes false true "runs" "ppo" [] None in
  let kwargs := [("loss"%string, 1); ("ep_ret"%string, 2)] in
  snd (store self "train" true kwargs) = Returned tt
  /\ (forall k v, In (k, v) kwargs ->
        lookup2 "train" k (data (fst (store self "train" true kwargs)))
        = Some (Many (previous "train" k (data self) ++ [v])))
  /\ (forall t k, (t <> "train"%string \/ ~ In k (map fst kwargs)) ->
        lookup2 t k (data (fst (store self "train" true kwargs)))
        = lookup2 t k (data self)).
Proof.
  apply (store_appends (init_attributes false true "runs" "ppo" [] None)
           "train" [("loss"%string, 1); ("ep_ret"%string, 2)]).
  - repeat constructor; simpl; intuition discriminate.
  - intros k v x _. discriminate.
Defined.

Lemma store_items_append_to_scalar tag k x : forall kwargs d,
  In k (map fst kwargs) ->
  lookup2 tag k d = Some (One x) ->
  snd (store_items tag true kwargs d) = Raised AttributeError
  /\ lookup2 tag k (fst (store_items tag true kwargs d)) = Some (One x).
Proof.
  induction kwargs as [|[k0 v0] rest IH]; intros d Hin Hone; [contradiction|].
  rewrite store_items_append_step.
  destruct (String.eqb_spec k0 k) as [->|Hk].
  - rewrite Hone. cbn [fst snd]. rewrite lookup2_touch. auto.
  - assert (Hrest : In k (map fst rest))
      by (destruct Hin as [E|H]; [simpl in E; congruence | exact H]).
    assert (Hput : forall s, lookup2 tag k (put tag k0 s d) = Some (One x)).
    { intros s. rewrite lookup2_put, String.eqb_refl. cbn [andb].
      destruct (String.eqb_spec k k0); [congruence | exact Hone]. }
    destruct (lookup2 tag k0 d) as [[vals|y]|].
    + apply IH; [exact Hrest | apply Hput].
    + cbn [fst snd]. rewrite lookup2_touch. auto.
    + apply IH; [exact Hrest | apply Hput].
Qed.

(** X11. Appending to a key that holds a value put with [append=False]
    raises [AttributeError], and the value stays as it was. *)
Theorem store_append_to_scalar_raises (self : Logger) (tag k : string)
    (x : R) (kwargs : list (string * R)) :
  In k (map fst kwargs) ->
  lookup2 tag k (data self) = Some (One x) ->
  snd (store self tag true kwargs) = Raised AttributeError
  /\ lookup2 tag k (data (fst (store self tag true kwargs))) = Some (One x).
Proof.
  intros Hin Hone. unfold store.
  destruct (store_items_append_to_scalar tag k x kwargs (data self) Hin Hone)
    as [Hraise Hkeep].
  destruct (store_items tag true kwargs (data self)) as [d r].
  cbn [fst snd data with_data] in *. auto.
Qed.

Lemma store_append_to_scalar_raises_witness :
  let self :=
    fst (store (init_attributes false true "runs" "ppo" [] None) "train"
               false [("lr"%string, 3)]) in
  snd (store self "train" true [("lr"%string, 4)]) = Raised AttributeError
  /\ lookup2 "train" "lr"
       (data (fst (store self "train" true [("lr"%string, 4)])))
     = Some (One 3).
Proof.
  apply (store_append_to_scalar_raises
           (fst (store (init_attributes false true "runs" "ppo" [] None)
                       "train" false [("lr"%string, 3)]))
           "train" "lr" 3 [("lr"%string, 4)]).
  - left. reflexivity.
  - reflexivity.
Defined.

Lemma In_touch tag d t entries :
  In (t, entries) (fst (touch tag d)) -> entries = [] \/ In (t, entries) d.
Proof.
  unfold touch. destruct (dget tag d); cbn [fst]; [auto|].
  intros H. apply In_dset in H. destruct H as [[_ ->]|H]; auto.
Qed.

Lemma In_snd_touch tag d :
  snd (touch tag d) = [] \/ In (tag, snd (touch tag d)) d.
Proof.
  unfold touch. destruct (dget tag d) as [entries|] eqn:Hd; cbn [snd]; [|auto].
  right. apply dget_In. exact Hd.
Qed.

Lemma put_lists_nonempty tag k v d :
  v <> Many [] -> lists_nonempty d -> lists_nonempty (put tag k v d).
Proof.
  intros Hv Hd t entries k' Hin Hbad. unfold put in Hin.
  apply In_dset in Hin. destruct Hin as [[_ ->]|Hin].
  - apply In_dset in Hbad. destruct Hbad as [[_ E]|Hbad]; [congruence|].
    destruct (In_snd_touch tag d) as [E|Hs].
    + rewrite E in Hbad. contradiction.
    + apply (Hd _ _ _ Hs Hbad).
  - apply In_touch in Hin. destruct Hin as [->|Hin]; [contradiction|].
    apply (Hd _ _ _ Hin Hbad).
Qed.

Lemma touch_lists_nonempty tag d :
  lists_nonempty d -> lists_nonempty (fst (touch tag d)).
Proof.
  intros Hd t entries k Hin Hbad. apply In_touch in Hin.
  destruct Hin as [->|Hin]; [contradiction | apply (Hd _ _ _ Hin Hbad)].
Qed.

Lemma store_items_put tag append k v rest d :
  store_items tag append ((k, v) :: rest) d
  = if append then
      match lookup2 tag k d with
      | Some (Many vals) =>
          store_items tag append rest (put tag k (Many (vals ++ [v])) d)
      | Some (One _) => (fst (touch tag d), Raised AttributeError)
      | None => store_items tag append rest (put tag k (Many [v]) d)
      end
    else store_items tag append rest (put tag k (One v) d).
Proof.
  cbn [store_items]. unfold put, lookup2, touch.
  destruct (dget tag d) as [entries|]; cbn [fst snd]; reflexivity.
Qed.

(** X12. [store] never leaves an empty list behind: if every stored list
    has an element before the call, so it is after, in either mode and
    whether the call returns or raises. *)
Theorem store_keeps_lists_nonempty (self : Logger) (tag : string)
    (append : bool) (kwargs : list (string * R)) :
  lists_nonempty (data self) ->
  lists_nonempty (data (fst (store self tag append kwargs))).
Proof.
  intros Hd. unfold store.
  assert (H : forall d, lists_nonempty d ->
            lists_nonempty (fst (store_items tag append kwargs d))).
  { clear. induction kwargs as [|[k v] rest IH]; intros d Hd; [exact Hd|].
    rewrite store_items_put. destruct append.
    - destruct (lookup2 tag k d) as [[vals|x]|].
      + apply IH, put_lists_nonempty; [|exact Hd].
        intros E. injection E as E. destruct vals; discriminate.
      + cbn [fst]. apply touch_lists_nonempty, Hd.
      + apply IH, put_lists_nonempty; [discriminate | exact Hd].
    - apply IH, put_lists_nonempty; [discriminate | exact Hd]. }
  specialize (H (data self) Hd).
  destruct (store_items tag append kwargs (data self)) as [d r].
  exact H.
Qed.

Lemma store_keeps_lists_nonempty_witness :
  lists_nonempty
    (data (fst (store (init_attributes false true "runs" "ppo" [] None)
                      "train" true [("loss"%string, 1)]))).
Proof.
  apply (store_keeps_lists_nonempty
           (init_attributes false true "runs" "ppo" [] None) "train" true
           [("loss"%string, 1)]).
  intros tag entries k [].
Defined.

(** ** The flat view of the data *)

Lemma append_inj_l (s a b : string) : (s ++ a = s ++ b)%string -> a = b.
Proof.
  induction s as [|c s IH]; simpl; intros H; [exact H|].
  injection H as H. apply IH, H.
Qed.

Lemma slash_split (t1 t2 k1 k2 : string) :
  has_slash t1 = false -> has_slash t2 = false ->
  (t1 ++ "/" ++ k1 = t2 ++ "/" ++ k2)%string -> t1 = t2 /\ k1 = k2.
Proof.
  revert t2; induction t1 as [|c1 t1 IH]; intros [|c2 t2] H1 H2 E;
    simpl in *.
  - injection E as E. auto.
  - injection E as Ec E. subst c2. simpl in H2. discriminate.
  - injection E as Ec E. subst c1. simpl in H1. discriminate.
  - injection E as Ec E. subst c2.
    apply orb_false_iff in H1, H2. destruct H1 as [_ H1], H2 as [_ H2].
    destruct (IH t2 H1 H2 E) as [-> ->]. auto.
Qed.

Lemma inner_get_same (t0 k : string) : forall entries (acc : dict stored),
  NoDup (keys entries) ->
  dget (t0 ++ "/" ++ k)
       (fold_left (fun acc '(k', v) => dset (t0 ++ "/" ++ k') v acc)
                  entries acc)
  = match dget k entries with
    | Some v => Some v
    | None => dget (t0 ++ "/" ++ k) acc
    end.
Proof.
  induction entries as [|[k1 v1] entries IH]; intros acc Hnd; [reflexivity|].
  inversion Hnd as [|? ? Hnotin Hnd']; subst.
  cbn [fold_left dget]. rewrite IH by exact Hnd'.
  destruct (String.eqb_spec k k1) as [->|Hk].
  - apply dget_None_keys in Hnotin. rewrite Hnotin. apply dget_dset_same.
  - destruct (dget k entries); [reflexivity|].
    apply dget_dset_other. intros E. apply append_inj_l in E.
    apply (append_inj_l "/") in E. congruence.
Qed.

Lemma inner_get_other (t0 tag k : string) : forall entries (acc : dict stored),
  has_slash t0 = false -> has_slash tag = false -> t0 <> tag ->
  dget (tag ++ "/" ++ k)
       (fold_left (fun acc '(k', v) => dset (t0 ++ "/" ++ k') v acc)
                  entries acc)
  = dget (tag ++ "/" ++ k) acc.
Proof.
  induction entries as [|[k1 v1] entries IH]; intros acc H0 Ht Hne;
    [reflexivity|].
  cbn [fold_left]. rewrite IH by assumption.
  apply dget_dset_other. intros E.
  destruct (slash_split _ _ _ _ H0 Ht E). contradiction.
Qed.

Lemma flatten_get (tag k : string) : forall d (acc : dict stored),
  wf_data d ->
  (forall t, In t (keys d) -> has_slash t = false) ->
  has_slash tag = false ->
  dget (tag ++ "/" ++ k)
       (fold_left
          (fun data_dict '(t, entries) =>
             fold_left
               (fun data_dict '(k', v) => dset (t ++ "/" ++ k') v data_dict)
               entries data_dict)
          d acc)
  = match lookup2 tag k d with
    | Some v => Some v
    | None => dget (tag ++ "/" ++ k) acc
    end.
Proof.
  induction d as [|[t0 e0] d IH]; intros acc [Hnd Hin] Hslash Htag;
    [reflexivity|].
  inversion Hnd as [|? ? Hnotin Hnd']; subst.
  cbn [fold_left]. rewrite IH.
  - unfold lookup2. cbn [dget].
    destruct (String.eqb_spec tag t0) as [->|Hne].
    + apply dget_None_keys in Hnotin. rewrite Hnotin.
      apply inner_get_same. apply (Hin t0 e0). left. reflexivity.
    + destruct (dget tag d) as [entries|]; [destruct (dget k entries)|];
        try reflexivity;
        apply inner_get_other; try assumption;
        try (apply Hslash; left; reflexivity); congruence.
  - split; [exact Hnd'|]. intros t e He. apply (Hin t e). right. exact He.
  - intros t Ht. apply Hslash. right. exact Ht.
  - exact Htag.
Qed.

(** X13. [get_data()] files each value under [tag/k]: when no tag contains
    a slash, looking [tag/k] up in the flat dictionary gives exactly what is
    stored under [k] in [tag] (and nothing when nothing is stored there). *)
Theorem get_data_flat_lookup (self : Logger) (tag k : string) :
  wf_data (data self) ->
  (forall t, In t (keys (data self)) -> has_slash t = false) ->
  has_slash tag = false ->
  dget (tag ++ "/" ++ k) (snd (get_data self None))
  = lookup2 tag k (data self).
Proof.
  intros Hwf Hslash Htag. cbn [get_data snd]. unfold flatten.
  rewrite (flatten_get tag k (data self) [] Hwf Hslash Htag).
  destruct (lookup2 tag k (data self)); reflexivity.
Qed.

Lemma get_data_flat_lookup_witness :
  let self :=
    mkLogger false true 0 0 "runs/ppo/models"
             [("train"%string, [("loss"%string, Many [1; 2])]);
              ("test"%string, [("loss"%string, One 3)])]
             [] [] [] None in
  dget ("test" ++ "/" ++ "loss") (snd (get_data self None))
  = lookup2 "test" "loss" (data self).
Proof.
  apply (get_data_flat_lookup
           (mkLogger false true 0 0 "runs/ppo/models"
              [("train"%string, [("loss"%string, Many [1; 2])]);
               ("test"%string, [("loss"%string, One 3)])]
              [] [] [] None) "test" "loss").
  - split.
    + repeat constructor; simpl; intuition discriminate.
    + intros t e [E|[E|[]]]; injection E as <- <-;
        repeat constructor; simpl; intuition discriminate.
  - intros t [<-|[<-|[]]]; reflexivity.
  - reflexivity.
Defined.

(** Without the condition on the tags two values can meet under one flat
    key, and the one stored under the later tag is the one returned. *)
Example get_data_flat_collision :
  let self :=
    mkLogger false true 0 0 "runs/ppo/models"
             [("a"%string, [("b/c"%string, One 1)]);
              ("a/b"%string, [("c"%string, One 2)])]
             [] [] [] None in
  snd (get_data self None) = [("a/b/c"%string, One 2)].
Proof. reflexivity. Qed.

(** ** log: what holds after every step of its loops *)

Section LogInvariant.

Variables (self : Logger) (step : Z) (local_only : bool).

(** A property of the running state that every scalar [ok] allows keeps,
    and that the report to wandb keeps. *)
Variable P : LogState -> Prop.
Variable ok : string * R -> Prop.

Hypothesis scalar_keeps :
  forall s item, ok item -> P s ->
    P (fst (log_scalar self step local_only s item)).
Hypothesis wandb_keeps :
  forall s key_vals global_step,
    wandb self && negb local_only = true ->
    P s -> P (emit s (WbLog key_vals global_step)).

Lemma log_scalars_keeps : forall items s,
  (forall item, In item items -> ok item) -> P s ->
  P (fst (log_scalars self step local_only s items)).
Proof.
  induction items as [|item items IH]; intros s Hok HP; [exact HP|].
  cbn [log_scalars].
  pose proof (scalar_keeps s item (Hok item (or_introl eq_refl)) HP) as H1.
  destruct (log_scalar self step local_only s item) as [s1 [u|e]];
    cbn [fst] in *; [|exact H1].
  apply IH; [|exact H1]. intros i Hi. apply Hok. right. exact Hi.
Qed.

Lemma log_entry_keeps tag s entry :
  (forall item, In item (items_of tag entry) -> ok item) -> P s ->
  P (fst (log_entry self step local_only tag s entry)).
Proof.
  intros Hok HP. destruct entry as [k v]. unfold items_of in Hok.
  cbn [fst snd] in Hok. cbn [log_entry].
  destruct (key_vals_of tag k v) as [key_vals|e]; [|exact HP].
  pose proof (log_scalars_keeps key_vals s Hok HP) as H1.
  destruct (log_scalars self step local_only s key_vals) as [s1 [u|e]];
    cbn [fst] in *; [|exact H1].
  pose proof (wandb_keeps s1 key_vals (start_step self + step)%Z) as Hwb.
  destruct (wandb self && negb local_only); [|exact H1].
  apply Hwb; [reflexivity | exact H1].
Qed.

Lemma log_entries_keeps tag : forall entries s,
  (forall item, In item (flat_map (items_of tag) entries) -> ok item) ->
  P s -> P (fst (log_entries self step local_only tag s entries)).
Proof.
  induction entries as [|entry entries IH]; intros s Hok HP; [exact HP|].
  cbn [log_entries].
  assert (H1 : P (fst (log_entry self step local_only tag s entry))).
  { apply log_entry_keeps; [|exact HP].
    intros i Hi. apply Hok. cbn [flat_map]. apply in_or_app. auto. }
  destruct (log_entry self step local_only tag s entry) as [s1 [u|e]];
    cbn [fst] in *; [|exact H1].
  apply IH; [|exact H1].
  intros i Hi. apply Hok. cbn [flat_map]. apply in_or_app. auto.
Qed.

Lemma log_tags_keeps : forall d s,
  (forall item, In item (all_items d) -> ok item) ->
  P s -> P (fst (log_tags self step local_only s d)).
Proof.
  induction d as [|[tag entries] d IH]; intros s Hok HP; [exact HP|].
  cbn [log_tags].
  assert (H1 : P (fst (log_entries self step local_only tag s entries))).
  { apply log_entries_keeps; [|exact HP].
    intros i Hi. apply Hok. unfold all_items. cbn [flat_map fst snd].
    apply in_or_app. auto. }
  destruct (log_entries self step local_only tag s entries) as [s1 [u|e]];
    cbn [fst] in *; [|exact H1].
  apply IH; [|exact H1].
  intros i Hi. apply Hok. unfold all_items. cbn [flat_map].
  apply in_or_app. right. exact Hi.
Qed.

End LogInvariant.

(** The state [log] ends in is the state its loops end in. *)
Lemma log_state (self : Logger) step local_only :
  let s := fst (log_tags self step local_only
                  (mkLogState (best_stats self) (stats self)
                     (if (step <? last_log_step self)%Z
                      then [Warned step (last_log_step self)] else []))
                  (data self)) in
  best_stats (fst (fst (log self step local_only))) = ls_best s
  /\ stats (fst (fst (log self step local_only))) = ls_stats s
  /\ snd (fst (log self step local_only)) = ls_events s.
Proof.
  unfold log. destruct (log_tags self step local_only _ (data self)) as [s r].
  cbn [fst snd best_stats stats]. auto.
Qed.

Lemma Forall_snoc {A : Type} (Q : A -> Prop) l x :
  Forall Q l -> Q x -> Forall Q (l ++ [x]).
Proof. intros Hl Hx. apply Forall_app. split; [exact Hl | auto]. Qed.

(** X14. With [local_only=True], or with both TensorBoard and wandb off,
    [log] sends nothing to TensorBoard or wandb. *)
Theorem log_local_only_is_local (self : Logger) (step : Z) (local_only : bool) :
  local_only = true \/ (tensorboard self = false /\ wandb self = false) ->
  Forall (fun e => is_external e = false)
         (snd (fst (log self step local_only))).
Proof.
  intros Hquiet.
  assert (Htb : tensorboard self && negb local_only = false)
    by (destruct Hquiet as [->|[-> _]];
        [apply andb_false_r | reflexivity]).
  assert (Hwb : wandb self && negb local_only = false)
    by (destruct Hquiet as [->|[_ ->]];
        [apply andb_false_r | reflexivity]).
  destruct (log_state self step local_only) as [_ [_ ->]].
  apply (log_tags_keeps self step local_only
           (fun s => Forall (fun e => is_external e = false) (ls_events s))
           (fun _ => True)).
  - intros s [name scalar] _ HP. unfold log_scalar, track_best.
    rewrite Htb.
    destruct (dget name (best_stats_cfg self)) as [so|]; [|exact HP].
    destruct (match dget name (ls_best s) with
              | Some prev => improves so (val prev) scalar
              | None => true
              end); [|exact HP].
    destruct (save_fn self) as [f|]; [|exact HP].
    destruct (f _); cbn [fst ls_events emit];
      repeat apply Forall_snoc; auto.
  - intros s kv g Hw. rewrite Hwb in Hw. discriminate.
  - intros item _. exact I.
  - cbn [ls_events]. destruct (step <? last_log_step self)%Z;
      repeat constructor.
Qed.

Lemma log_local_only_is_local_witness :
  let self :=
    mkLogger true true 0 5 "runs/ppo/models"
             [("train"%string, [("loss"%string, Many [1; 2])])]
             [] [] [("train/loss_avg"%string, (-1)%Z)]
             (Some (fun _ => None)) in
  Forall (fun e => is_external e = false) (snd (fst (log self 3 true))).
Proof.
  apply (log_local_only_is_local
           (mkLogger true true 0 5 "runs/ppo/models"
              [("train"%string, [("loss"%string, Many [1; 2])])]
              [] [] [("train/loss_avg"%string, (-1)%Z)]
              (Some (fun _ => None))) 3 true).
  left. reflexivity.
Defined.

(** ** log: the best statistics *)

Lemma Rltb_true a b : Rltb a b = true <-> a < b.
Proof. unfold Rltb. destruct (Rlt_dec a b); split; auto; discriminate. Qed.

Lemma Rltb_false a b : Rltb a b = false <-> ~ a < b.
Proof.
  unfold Rltb. destruct (Rlt_dec a b); split; auto; try discriminate.
  intros H. contradiction.
Qed.

Lemma improves_irrefl so x : improves so x x = false.
Proof.
  unfold improves. assert (H : Rltb x x = false) by (apply Rltb_false; lra).
  rewrite H, !andb_false_r. reflexivity.
Qed.

(** A value that improves on [b] covers whatever [b] covered. *)
Lemma improves_covers so b s x :
  improves so b s = true -> improves so b x = false -> improves so s x = false.
Proof.
  unfold improves. intros Hi Hc.
  apply orb_false_iff in Hc. destruct Hc as [Hc1 Hc2].
  apply orb_false_iff.
  apply orb_true_iff in Hi. destruct Hi as [Hi|Hi];
    apply andb_true_iff in Hi; destruct Hi as [Ho Hlt];
    rewrite Ho in *; cbn [andb] in *; apply Rltb_true in Hlt.
  - apply Rltb_false in Hc1. split.
    + apply Rltb_false. lra.
    + apply Z.eqb_eq in Ho. subst so. reflexivity.
  - apply Rltb_false in Hc2. split.
    + apply Z.eqb_eq in Ho. subst so. reflexivity.
    + apply Rltb_false. lra.
Qed.

Section TrackBest.

Variables (self : Logger) (step : Z).

Lemma track_best_stats s name scalar :
  ls_stats (fst (track_best self step s name scalar)) = ls_stats s.
Proof.
  unfold track_best.
  destruct (dget name (best_stats_cfg self)) as [so|]; [|reflexivity].
  destruct (match dget name (ls_best s) with
            | Some prev => improves so (val prev) scalar
            | None => true
            end); [|reflexivity].
  destruct (save_fn self) as [f|]; [|reflexivity].
  destruct (f _); reflexivity.
Qed.

(** Either the best statistics are untouched, or the tracked [name] got
    [scalar], which improves on what was recorded for it. *)
Lemma track_best_best s name scalar :
  ls_best (fst (track_best self step s name scalar)) = ls_best s
  \/ exists so,
       dget name (best_stats_cfg self) = Some so
       /\ ls_best (fst (track_best self step s name scalar))
          = dset name (mkBestStat scalar step) (ls_best s)
       /\ forall prev, dget name (ls_best s) = Some prev ->
            improves so (val prev) scalar = true.
Proof.
  unfold track_best.
  destruct (dget name (best_stats_cfg self)) as [so|]; [|left; reflexivity].
  destruct (dget name (ls_best s)) as [prev|] eqn:Hprev.
  - destruct (improves so (val prev) scalar) eqn:Himp; [|left; reflexivity].
    right. exists so. split; [reflexivity|]. split.
    + destruct (save_fn self) as [f|]; [|reflexivity].
      destruct (f _); reflexivity.
    + intros p E. injection E as <-. exact Himp.
  - right. exists so. split; [reflexivity|]. split.
    + destruct (save_fn self) as [f|]; [|reflexivity].
      destruct (f _); reflexivity.
    + intros p E. discriminate.
Qed.

(** What a recorded best covered stays covered. *)
Lemma track_best_keeps_cover s name scalar name' so' b x :
  dget name' (best_stats_cfg self) = Some so' ->
  dget name' (ls_best s) = Some b ->
  covers_value so' b x ->
  exists b',
    dget name' (ls_best (fst (track_best self step s name scalar))) = Some b'
    /\ covers_value so' b' x.
Proof.
  intros Hcfg Hb Hcov.
  destruct (track_best_best s name scalar) as [->|[so [Hso [-> Himp]]]].
  - exists b. auto.
  - destruct (String.eqb_spec name name') as [->|Hne].
    + rewrite dget_dset_same. eexists. split; [reflexivity|].
      assert (so = so') by congruence. subst so'.
      unfold covers_value in *. cbn [val].
      apply (improves_covers so (val b)); [apply Himp, Hb | exact Hcov].
    + rewrite dget_dset_other by exact Hne. exists b. auto.
Qed.

(** When the call returns, the recorded best covers [scalar]. *)
Lemma track_best_covers_scalar s name scalar so :
  dget name (best_stats_cfg self) = Some so ->
  snd (track_best self step s name scalar) = Returned tt ->
  exists b,
    dget name (ls_best (fst (track_best self step s name scalar))) = Some b
    /\ covers_value so b scalar.
Proof.
  intros Hso. unfold track_best. rewrite Hso.
  destruct (dget name (ls_best s)) as [prev|] eqn:Hprev.
  - destruct (improves so (val prev) scalar) eqn:Himp.
    + destruct (save_fn self) as [f|]; [|discriminate].
      destruct (f _); [discriminate|]. intros _. cbn [fst ls_best emit].
      rewrite dget_dset_same. eexists. split; [reflexivity|].
      apply improves_irrefl.
    + intros _. cbn [fst]. exists prev. auto.
  - destruct (save_fn self) as [f|]; [|discriminate].
    destruct (f _); [discriminate|]. intros _. cbn [fst ls_best emit].
    rewrite dget_dset_same. eexists. split; [reflexivity|].
    apply improves_irrefl.
Qed.

End TrackBest.

Lemma log_scalar_split self step local_only s name scalar :
  let t := track_best self step s name scalar in
  (snd t <> Returned tt
   /\ ls_best (fst (log_scalar self step local_only s (name, scalar)))
      = ls_best (fst t)
   /\ ls_stats (fst (log_scalar self step local_only s (name, scalar)))
      = ls_stats s
   /\ snd (log_scalar self step local_only s (name, scalar)) = snd t)
  \/ (snd t = Returned tt
      /\ ls_best (fst (log_scalar self step local_only s (name, scalar)))
         = ls_best (fst t)
      /\ ls_stats (fst (log_scalar self step local_only s (name, scalar)))
         = dset name scalar (ls_stats s)
      /\ snd (log_scalar self step local_only s (name, scalar)) = Returned tt).
Proof.
  intros t. unfold log_scalar. fold t.
  pose proof (track_best_stats self step s name scalar) as Hst. fold t in Hst.
  destruct t as [s1 [[]|e]]; cbn [fst snd] in *.
  - right. destruct (tensorboard self && negb local_only);
      cbn [fst snd ls_best ls_stats emit]; rewrite Hst; auto.
  - left. split; [discriminate | auto].
Qed.

(** X15. [log] keeps the best statistics consistent. A recorded best never
    gets worse (for the order of [best_stats_cfg]: 1 keeps the largest value,
    -1 the smallest), and if every tracked statistic in [stats] is covered by
    its recorded best before the call, then so it is after, whether the
    call returns or raises. *)
Theorem log_keeps_best_stats (self : Logger) (step : Z) (local_only : bool) :
  let self' := fst (fst (log self step local_only)) in
  (forall name so b,
      dget name (best_stats_cfg self) = Some so ->
      dget name (best_stats self) = Some b ->
      exists b',
        dget name (best_stats self') = Some b'
        /\ covers_value so b' (val b))
  /\ (best_covers_stats (best_stats_cfg self) (best_stats self) (stats self) ->
      best_covers_stats (best_stats_cfg self) (best_stats self') (stats self')).
Proof.
  intros self'. subst self'.
  destruct (log_state self step local_only) as [-> [-> _]].
  set (s0 := mkLogState (best_stats self) (stats self) _).
  split.
  - intros name so b Hso Hb.
    apply (log_tags_keeps self step local_only
             (fun s => exists b', dget name (ls_best s) = Some b'
                                  /\ covers_value so b' (val b))
             (fun _ => True)).
    + intros s [n x] _ [b' [Hb' Hcov]].
      destruct (log_scalar_split self step local_only s n x)
        as [[_ [-> _]]|[_ [-> _]]];
        apply (track_best_keeps_cover self step s n x name so b');
        assumption.
    + intros s kv g _ H. exact H.
    + intros item _. exact I.
    + exists b. split; [exact Hb | apply improves_irrefl].
  - intros Hinv.
    apply (log_tags_keeps self step local_only
             (fun s => best_covers_stats (best_stats_cfg self)
                         (ls_best s) (ls_stats s))
             (fun _ => True)).
    + intros s [n x] _ HP name so y Hso Hy.
      destruct (log_scalar_split self step local_only s n x)
        as [[_ [Eb [Es _]]]|[Hret [Eb [Es _]]]];
        rewrite Eb; rewrite Es in Hy.
      * destruct (HP name so y Hso Hy) as [b [Hb Hcov]].
        apply (track_best_keeps_cover self step s n x name so b);
          assumption.
      * destruct (String.eqb_spec n name) as [->|Hne].
        -- rewrite dget_dset_same in Hy. injection Hy as <-.
           apply track_best_covers_scalar; assumption.
        -- rewrite dget_dset_other in Hy by exact Hne.
           destruct (HP name so y Hso Hy) as [b [Hb Hcov]].
           apply (track_best_keeps_cover self step s n x name so b);
             assumption.
    + intros s kv g _ H. exact H.
    + intros item _. exact I.
    + exact Hinv.
Qed.

(** A logger that has logged the loss 3, its best so far in the order -1
    (lower is better), and now holds the loss 2: after [log] the recorded
    best still covers the earlier 3, and it covers what [stats] holds. *)
Lemma log_keeps_best_stats_witness :
  let self :=
    mkLogger false true 0 0 "runs/ppo/models"
             [("train"%string, [("loss"%string, One 2)])]
             [("train/loss"%string, 3)]
             [("train/loss"%string, mkBestStat 3 0)]
             [("train/loss"%string, (-1)%Z)]
             (Some (fun _ => None)) in
  let self' := fst (fst (log self 1 false)) in
  (exists b',
      dget "train/loss" (best_stats self') = Some b'
      /\ covers_value (-1) b' 3)
  /\ best_covers_stats (best_stats_cfg self) (best_stats self') (stats self').
Proof.
  intros self self'.
  destruct (log_keeps_best_stats self 1 false) as [Hbest Hcover].
  split.
  - apply (Hbest "train/loss"%string (-1)%Z (mkBestStat 3 0));
      reflexivity.
  - apply Hcover. intros name so x Hso Hx. subst self.
    cbn [best_stats_cfg stats best_stats dget] in *.
    destruct (String.eqb name "train/loss"); [|discriminate].
    injection Hso as <-. injection Hx as <-.
    eexists. split; [reflexivity|]. apply improves_irrefl.
Defined.

(** ** log: when it returns *)

Lemma key_vals_of_returns tag k v :
  v <> Many [] -> exists key_vals, key_vals_of tag k v = Returned key_vals.
Proof.
  intros Hv. destruct v as [[|x vals]|x]; [congruence | |];
    cbn [key_vals_of np_min np_max]; eauto.
Qed.

Lemma lists_nonempty_entries_ok d : lists_nonempty d -> entries_ok d.
Proof.
  intros Hd tag entries k v Ht Hk. apply key_vals_of_returns.
  intros ->. apply (Hd _ _ _ Ht Hk).
Qed.

Section LogReturns.

Variables (self : Logger) (step : Z) (local_only : bool).
Variable P : LogState -> Prop.
Variable ok : string * R -> Prop.

Hypothesis scalar_returns :
  forall s item, ok item -> P s ->
    snd (log_scalar self step local_only s item) = Returned tt
    /\ P (fst (log_scalar self step local_only s item)).
Hypothesis wandb_keeps :
  forall s key_vals global_step, P s -> P (emit s (WbLog key_vals global_step)).

Lemma log_scalars_returns : forall items s,
  (forall item, In item items -> ok item) -> P s ->
  snd (log_scalars self step local_only s items) = Returned tt
  /\ P (fst (log_scalars self step local_only s items)).
Proof.
  induction items as [|item items IH]; intros s Hok HP; [split; auto|].
  cbn [log_scalars].
  destruct (scalar_returns s item (Hok item (or_introl eq_refl)) HP)
    as [Hr H1].
  destruct (log_scalar self step local_only s item) as [s1 r];
    cbn [fst snd] in *. subst r.
  apply IH; [|exact H1]. intros i Hi. apply Hok. right. exact Hi.
Qed.

Lemma log_entries_returns tag : forall entries s,
  (forall k v, In (k, v) entries ->
     exists key_vals, key_vals_of tag k v = Returned key_vals) ->
  (forall item, In item (flat_map (items_of tag) entries) -> ok item) ->
  P s ->
  snd (log_entries self step local_only tag s entries) = Returned tt
  /\ P (fst (log_entries self step local_only tag s entries)).
Proof.
  induction entries as [|[k v] entries IH]; intros s Hkv Hok HP;
    [split; auto|].
  cbn [log_entries log_entry].
  destruct (Hkv k v (or_introl eq_refl)) as [key_vals Ekv].
  assert (Hitems : forall item, In item key_vals -> ok item).
  { intros i Hi. apply Hok. cbn [flat_map]. apply in_or_app. left.
    unfold items_of. cbn [fst snd]. rewrite Ekv. exact Hi. }
  rewrite Ekv.
  destruct (log_scalars_returns key_vals s Hitems HP) as [Hr H1].
  destruct (log_scalars self step local_only s key_vals) as [s1 r];
    cbn [fst snd] in *. subst r.
  apply IH.
  - intros k' v' Hin. apply Hkv. right. exact Hin.
  - intros i Hi. apply Hok. cbn [flat_map]. apply in_or_app. auto.
  - destruct (wandb self && negb local_only); [apply wandb_keeps|]; exact H1.
Qed.

Lemma log_tags_returns : forall d s,
  entries_ok d ->
  (forall item, In item (all_items d) -> ok item) ->
  P s ->
  snd (log_tags self step local_only s d) = Returned tt
  /\ P (fst (log_tags self step local_only s d)).
Proof.
  induction d as [|[tag entries] d IH]; intros s Hkv Hok HP; [split; auto|].
  cbn [log_tags].
  destruct (log_entries_returns tag entries s) as [Hr H1].
  - intros k v Hin. apply (Hkv tag entries k v); [left; reflexivity | exact Hin].
  - intros i Hi. apply Hok. unfold all_items. cbn [flat_map fst snd].
    apply in_or_app. auto.
  - exact HP.
  - destruct (log_entries self step local_only tag s entries) as [s1 r];
      cbn [fst snd] in *. subst r.
    apply IH; [| |exact H1].
    + intros t e k v Ht Hk. apply (Hkv t e k v); [right; exact Ht | exact Hk].
    + intros i Hi. apply Hok. unfold all_items. cbn [flat_map].
      apply in_or_app. right. exact Hi.
Qed.

End LogReturns.

Lemma log_outcome (self : Logger) step local_only :
  let t := log_tags self step local_only
             (mkLogState (best_stats self) (stats self)
                (if (step <? last_log_step self)%Z
                 then [Warned step (last_log_step self)] else []))
             (data self) in
  snd (log self step local_only)
  = match snd t with
    | Raised e => Raised e
    | Returned _ => Returned (ls_stats (fst t))
    end.
Proof.
  unfold log. destruct (log_tags self step local_only _ (data self)) as [s r].
  reflexivity.
Qed.

(** X16. [log] returns, with the statistics it has stored in [stats], when
    every stored list has an element and checkpoints can be saved: either
    no statistic is tracked, or [save_fn] is a callable that returns. *)
Theorem log_returns (self : Logger) (step : Z) (local_only : bool) :
  lists_nonempty (data self) ->
  (best_stats_cfg self = []
   \/ exists f, save_fn self = Some f /\ forall path, f path = None) ->
  snd (log self step local_only)
  = Returned (stats (fst (fst (log self step local_only)))).
Proof.
  intros Hne Hsave.
  destruct (log_state self step local_only) as [_ [-> _]].
  rewrite log_outcome.
  assert (Hstep : forall s item, True -> True ->
            snd (log_scalar self step local_only s item) = Returned tt
            /\ True).
  { intros s [name scalar] _ _. split; [|exact I].
    destruct (log_scalar_split self step local_only s name scalar)
      as [[Hbad [_ [_ ->]]]|[_ [_ [_ ->]]]]; [|reflexivity].
    exfalso. apply Hbad. unfold track_best.
    destruct Hsave as [Hcfg|[f [Hf Hret]]].
    - rewrite Hcfg. reflexivity.
    - destruct (dget name (best_stats_cfg self)) as [so|]; [|reflexivity].
      destruct (match dget name (ls_best s) with
                | Some prev => improves so (val prev) scalar
                | None => true
                end); [|reflexivity].
      rewrite Hf, Hret. reflexivity. }
  destruct (log_tags_returns self step local_only (fun _ => True)
              (fun _ => True) Hstep (fun _ _ _ _ => I) (data self)
              (mkLogState (best_stats self) (stats self)
                 (if (step <? last_log_step self)%Z
                  then [Warned step (last_log_step self)] else []))
              (lists_nonempty_entries_ok _ Hne) (fun _ _ => I) I)
    as [-> _].
  reflexivity.
Qed.

Lemma log_returns_witness :
  let self :=
    mkLogger true true 0 5 "runs/ppo/models"
             [("train"%string, [("loss"%string, Many [1; 2])])]
             [] [] [("train/loss_avg"%string, (-1)%Z)]
             (Some (fun _ => None)) in
  snd (log self 3 false) = Returned (stats (fst (fst (log self 3 false)))).
Proof.
  apply (log_returns
           (mkLogger true true 0 5 "runs/ppo/models"
              [("train"%string, [("loss"%string, Many [1; 2])])]
              [] [] [("train/loss_avg"%string, (-1)%Z)]
              (Some (fun _ => None))) 3 false).
  - intros tag entries k [E|[]]. injection E as <- <-.
    intros [E'|[]]. discriminate.
  - right. eexists. split; [reflexivity | reflexivity].
Defined.

(** ** log: logging the same data again *)

Section Covered.

Variables (self : Logger) (step : Z) (local_only : bool).

Lemma covered_kept_scalar item s item' :
  covered (best_stats_cfg self) (ls_best s) item ->
  covered (best_stats_cfg self)
          (ls_best (fst (log_scalar self step local_only s item'))) item.
Proof.
  intros Hc so Hso. destruct (Hc so Hso) as [b [Hb Hcov]].
  destruct item' as [n x].
  destruct (log_scalar_split self step local_only s n x)
    as [[_ [-> _]]|[_ [-> _]]];
    apply (track_best_keeps_cover self step s n x (fst item) so b);
    assumption.
Qed.

Lemma log_scalars_cover : forall items s,
  snd (log_scalars self step local_only s items) = Returned tt ->
  forall item, In item items ->
    covered (best_stats_cfg self)
            (ls_best (fst (log_scalars self step local_only s items))) item.
Proof.
  induction items as [|[n x] items IH]; intros s Hret item Hin;
    [contradiction|].
  cbn [log_scalars] in *.
  destruct (log_scalar_split self step local_only s n x)
    as [[Hbad [_ [_ Er]]]|[Ht [Eb [_ Er]]]].
  - destruct (log_scalar self step local_only s (n, x)) as [s1 r1].
    cbn [snd] in Er. subst r1.
    destruct (snd (track_best self step s n x)) as [[]|e];
      [congruence | discriminate].
  - assert (Hhead : covered (best_stats_cfg self)
                      (ls_best (fst (log_scalar self step local_only s (n, x))))
                      (n, x)).
    { intros so Hso. rewrite Eb. cbn [fst snd].
      apply track_best_covers_scalar; assumption. }
    destruct (log_scalar self step local_only s (n, x)) as [s1 r1].
    cbn [fst snd] in *. subst r1. destruct Hin as [<-|Hin].
    + apply (log_scalars_keeps self step local_only
               (fun s => covered (best_stats_cfg self) (ls_best s) (n, x))
               (fun _ => True)).
      * intros s' i _ H. apply covered_kept_scalar. exact H.
      * intros i _. exact I.
      * exact Hhead.
    + apply IH; assumption.
Qed.

Lemma log_entries_cover tag : forall entries s,
  snd (log_entries self step local_only tag s entries) = Returned tt ->
  forall item, In item (flat_map (items_of tag) entries) ->
    covered (best_stats_cfg self)
            (ls_best (fst (log_entries self step local_only tag s entries)))
            item.
Proof.
  induction entries as [|[k v] entries IH]; intros s Hret item Hin;
    [contradiction|].
  cbn [log_entries log_entry flat_map] in *. unfold items_of in Hin.
  cbn [fst snd] in Hin.
  destruct (key_vals_of tag k v) as [key_vals|e]; [|discriminate].
  pose proof (log_scalars_cover key_vals s) as Hkv.
  destruct (log_scalars self step local_only s key_vals) as [s1 [[]|e]];
    [|discriminate].
  cbn [fst snd] in *. specialize (Hkv eq_refl).
  set (s2 := if wandb self && negb local_only
             then emit s1 (WbLog key_vals (start_step self + step)%Z)
             else s1) in *.
  assert (Hbest : ls_best s2 = ls_best s1)
    by (unfold s2; destruct (wandb self && negb local_only); reflexivity).
  apply in_app_or in Hin. destruct Hin as [Hin|Hin].
  - apply (log_entries_keeps self step local_only
             (fun s => covered (best_stats_cfg self) (ls_best s) item)
             (fun _ => True)).
    + intros s' i _ H. apply covered_kept_scalar. exact H.
    + intros s' kv g _ H. exact H.
    + intros i _. exact I.
    + rewrite Hbest. apply Hkv, Hin.
  - apply IH; assumption.
Qed.

Lemma log_tags_cover : forall d s,
  snd (log_tags self step local_only s d) = Returned tt ->
  forall item, In item (all_items d) ->
    covered (best_stats_cfg self)
            (ls_best (fst (log_tags self step local_only s d))) item.
Proof.
  induction d as [|[tag entries] d IH]; intros s Hret item Hin;
    [contradiction|].
  cbn [log_tags] in *. unfold all_items in Hin. cbn [flat_map fst snd] in Hin.
  pose proof (log_entries_cover tag entries s) as He.
  destruct (log_entries self step local_only tag s entries) as [s1 [[]|e]];
    [|discriminate].
  cbn [fst snd] in *. specialize (He eq_refl).
  apply in_app_or in Hin. destruct Hin as [Hin|Hin].
  - apply (log_tags_keeps self step local_only
             (fun s => covered (best_stats_cfg self) (ls_best s) item)
             (fun _ => True)).
    + intros s' i _ H. apply covered_kept_scalar. exact H.
    + intros s' kv g _ H. exact H.
    + intros i _. exact I.
    + apply He, Hin.
  - apply IH; assumption.
Qed.

Lemma log_entries_returned_ok tag : forall entries s,
  snd (log_entries self step local_only tag s entries) = Returned tt ->
  forall k v, In (k, v) entries ->
    exists key_vals, key_vals_of tag k v = Returned key_vals.
Proof.
  induction entries as [|[k0 v0] entries IH]; intros s Hret k v Hin;
    [contradiction|].
  cbn [log_entries log_entry] in Hret.
  destruct (key_vals_of tag k0 v0) as [key_vals|e] eqn:Ekv; [|discriminate].
  destruct (log_scalars self step local_only s key_vals) as [s1 [[]|e]];
    [|discriminate].
  destruct Hin as [E|Hin].
  - injection E as <- <-. eauto.
  - apply (IH _ Hret k v Hin).
Qed.

Lemma log_tags_returned_ok : forall d s,
  snd (log_tags self step local_only s d) = Returned tt -> entries_ok d.
Proof.
  induction d as [|[tag entries] d IH]; intros s Hret t e k v Ht Hk;
    [contradiction|].
  cbn [log_tags] in Hret.
  pose proof (log_entries_returned_ok tag entries s) as He.
  destruct (log_entries self step local_only tag s entries) as [s1 [[]|ex]];
    [|discriminate].
  destruct Ht as [E|Ht].
  - injection E as <- <-. apply (He eq_refl k v Hk).
  - apply (IH s1 Hret t e k v Ht Hk).
Qed.

End Covered.

Lemma track_best_covered self step s name scalar :
  covered (best_stats_cfg self) (ls_best s) (name, scalar) ->
  track_best self step s name scalar = (s, Returned tt).
Proof.
  intros Hc. unfold track_best.
  destruct (dget name (best_stats_cfg self)) as [so|] eqn:Hso; [|reflexivity].
  destruct (Hc so Hso) as [b [Hb Hcov]]. cbn [fst snd] in Hb, Hcov.
  rewrite Hb. unfold covers_value in Hcov. rewrite Hcov. reflexivity.
Qed.

Lemma log_fields self step local_only :
  data (fst (fst (log self step local_only))) = data self
  /\ best_stats_cfg (fst (fst (log self step local_only)))
     = best_stats_cfg self
  /\ save_fn (fst (fst (log self step local_only))) = save_fn self
  /\ last_log_step (fst (fst (log self step local_only))) = step.
Proof.
  unfold log. destruct (log_tags self step local_only _ (data self)) as [s r].
  cbn [fst data best_stats_cfg save_fn last_log_step]. auto.
Qed.

(** X17. Logging the same data a second time saves no checkpoint: if [log]
    has returned, a further call of [log] (at any step, before anything else
    is stored) calls [save_fn] never, leaves [best_stats] as they are, and
    returns. *)
Theorem log_again_saves_nothing (self : Logger) (step step2 : Z)
    (local_only local_only2 : bool) (logged : dict R) :
  snd (log self step local_only) = Returned logged ->
  let self1 := fst (fst (log self step local_only)) in
  best_stats (fst (fst (log self1 step2 local_only2))) = best_stats self1
  /\ Forall (fun e => is_save e = false)
            (snd (fst (log self1 step2 local_only2)))
  /\ exists logged2, snd (log self1 step2 local_only2) = Returned logged2.
Proof.
  intros Hret self1.
  destruct (log_fields self step local_only) as [Hdata [Hcfg [Hsave _]]].
  fold self1 in Hdata, Hcfg, Hsave.
  assert (Hfirst : entries_ok (data self)
                   /\ forall item, In item (all_items (data self)) ->
                        covered (best_stats_cfg self) (best_stats self1) item).
  { rewrite log_outcome in Hret. unfold self1.
    destruct (log_state self step local_only) as [-> _].
    set (s0 := mkLogState (best_stats self) (stats self) _) in *.
    assert (Ht : snd (log_tags self step local_only s0 (data self))
                 = Returned tt).
    { destruct (snd (log_tags self step local_only s0 (data self)))
        as [[]|e]; [reflexivity | discriminate]. }
    split.
    - apply (log_tags_returned_ok self step local_only _ s0 Ht).
    - apply (log_tags_cover self step local_only _ s0 Ht). }
  destruct Hfirst as [Hok Hcov].
  destruct (log_state self1 step2 local_only2) as [-> [_ ->]].
  rewrite (log_outcome self1 step2 local_only2).
  set (s1 := mkLogState (best_stats self1) (stats self1) _).
  destruct (log_tags_returns self1 step2 local_only2
              (fun s => ls_best s = best_stats self1
                        /\ Forall (fun e => is_save e = false) (ls_events s))
              (fun item => covered (best_stats_cfg self) (best_stats self1) item))
    with (d := data self1) (s := s1) as [Hr [Hb He]].
  - intros s [name scalar] Hitem [Hbest Hev]. unfold log_scalar.
    rewrite track_best_covered by (rewrite Hcfg, Hbest; exact Hitem).
    destruct (tensorboard self1 && negb local_only2);
      cbn [fst snd ls_best ls_events emit]; split; try reflexivity;
      split; try exact Hbest; try exact Hev.
    apply Forall_snoc; [exact Hev | reflexivity].
  - intros s kv g [Hbest Hev]. cbn [emit ls_best ls_events]. split;
      [exact Hbest | apply Forall_snoc; [exact Hev | reflexivity]].
  - rewrite Hdata. exact Hok.
  - rewrite Hdata. exact Hcov.
  - unfold s1. cbn [ls_best ls_events]. split; [reflexivity|].
    destruct (step2 <? last_log_step self1)%Z; repeat constructor.
  - split; [exact Hb|]. split; [exact He|]. rewrite Hr. eauto.
Qed.

Lemma log_again_saves_nothing_witness :
  let self :=
    mkLogger true true 0 5 "runs/ppo/models"
             [("train"%string, [("loss"%string, Many [1; 2])])]
             [] [] [("train/loss_avg"%string, (-1)%Z)]
             (Some (fun _ => None)) in
  let self1 := fst (fst (log self 3 false)) in
  best_stats (fst (fst (log self1 4 false))) = best_stats self1
  /\ Forall (fun e => is_save e = false) (snd (fst (log self1 4 false)))
  /\ exists logged2, snd (log self1 4 false) = Returned logged2.
Proof.
  apply (log_again_saves_nothing
           (mkLogger true true 0 5 "runs/ppo/models"
              [("train"%string, [("loss"%string, Many [1; 2])])]
              [] [] [("train/loss_avg"%string, (-1)%Z)]
              (Some (fun _ => None)))
           3 4 false false
           (stats (fst (fst (log
              (mkLogger true true 0 5 "runs/ppo/models"
                 [("train"%string, [("loss"%string, Many [1; 2])])]
                 [] [] [("train/loss_avg"%string, (-1)%Z)]
                 (Some (fun _ => None))) 3 false))))).
  reflexivity.
Defined.

(** ** log: without a callable to save checkpoints *)

Section NoSaveFn.

Variables (self : Logger) (step : Z) (local_only : bool).

Hypothesis no_save_fn : save_fn self = None.

Lemma log_scalars_no_save_fn : forall items s,
  ls_best s = [] ->
  if existsb (tracked (best_stats_cfg self)) items
  then snd (log_scalars self step local_only s items) = Raised TypeError
       /\ recorded step (fst (log_scalars self step local_only s items)) items
  else snd (log_scalars self step local_only s items) = Returned tt
       /\ ls_best (fst (log_scalars self step local_only s items)) = [].
Proof.
  induction items as [|[n x] items IH]; intros s Hs; [split; auto|].
  cbn [existsb log_scalars]. unfold tracked at 1. cbn [fst].
  unfold log_scalar, track_best. rewrite Hs, no_save_fn. cbn [dget].
  destruct (dget n (best_stats_cfg self)) as [so|]; cbn [orb].
  - cbn [fst snd ls_best]. split; [reflexivity|].
    exists n, x. split; [left; reflexivity|].
    apply dget_dset_same.
  - set (s1 := mkLogState _ _ _).
    specialize (IH s1). unfold s1 at 1 in IH.
    assert (Hs1 : ls_best s1 = [])
      by (unfold s1; destruct (tensorboard self && negb local_only);
          cbn [ls_best emit]; exact Hs).
    specialize (IH Hs1).
    destruct (existsb (tracked (best_stats_cfg self)) items).
    + destruct IH as [Hr [n' [x' [Hin Hrec]]]]. split; [exact Hr|].
      exists n', x'. split; [right; exact Hin | exact Hrec].
    + exact IH.
Qed.

Lemma log_entries_no_save_fn tag : forall entries s,
  (forall k v, In (k, v) entries ->
     exists key_vals, key_vals_of tag k v = Returned key_vals) ->
  ls_best s = [] ->
  if existsb (tracked (best_stats_cfg self)) (flat_map (items_of tag) entries)
  then snd (log_entries self step local_only tag s entries) = Raised TypeError
       /\ recorded step (fst (log_entries self step local_only tag s entries))
            (flat_map (items_of tag) entries)
  else snd (log_entries self step local_only tag s entries) = Returned tt
       /\ ls_best (fst (log_entries self step local_only tag s entries)) = [].
Proof.
  induction entries as [|[k v] entries IH]; intros s Hkv Hs; [split; auto|].
  cbn [flat_map log_entries log_entry]. rewrite existsb_app.
  destruct (Hkv k v (or_introl eq_refl)) as [key_vals Ekv].
  unfold items_of at 1 3. cbn [fst snd]. rewrite Ekv.
  pose proof (log_scalars_no_save_fn key_vals s Hs) as H1.
  destruct (existsb (tracked (best_stats_cfg self)) key_vals); cbn [orb].
  - destruct H1 as [Hr [n [x [Hin Hrec]]]].
    destruct (log_scalars self step local_only s key_vals) as [s1 r1].
    cbn [fst snd] in *. subst r1. cbn [fst snd]. split; [reflexivity|].
    exists n, x. split; [apply in_or_app; left; exact Hin | exact Hrec].
  - destruct H1 as [Hr Hb].
    destruct (log_scalars self step local_only s key_vals) as [s1 r1].
    cbn [fst snd] in *. subst r1.
    set (s2 := if wandb self && negb local_only then _ else s1).
    assert (Hs2 : ls_best s2 = [])
      by (unfold s2; destruct (wandb self && negb local_only);
          cbn [ls_best emit]; exact Hb).
    specialize (IH s2 (fun k' v' Hin => Hkv k' v' (or_intror Hin)) Hs2).
    destruct (existsb (tracked (best_stats_cfg self))
                (flat_map (items_of tag) entries)).
    + destruct IH as [Hr [n [x [Hin Hrec]]]]. split; [exact Hr|].
      exists n, x. split; [apply in_or_app; right; exact Hin | exact Hrec].
    + exact IH.
Qed.

Lemma log_tags_no_save_fn : forall d s,
  entries_ok d ->
  ls_best s = [] ->
  if existsb (tracked (best_stats_cfg self)) (all_items d)
  then snd (log_tags self step local_only s d) = Raised TypeError
       /\ recorded step (fst (log_tags self step local_only s d)) (all_items d)
  else snd (log_tags self step local_only s d) = Returned tt
       /\ ls_best (fst (log_tags self step local_only s d)) = [].
Proof.
  induction d as [|[tag entries] d IH]; intros s Hok Hs; [split; auto|].
  unfold all_items. cbn [flat_map log_tags fst snd]. rewrite existsb_app.
  fold (all_items d).
  pose proof (log_entries_no_save_fn tag entries s
                (fun k v Hin => Hok tag entries k v (or_introl eq_refl) Hin)
                Hs) as H1.
  destruct (existsb (tracked (best_stats_cfg self))
              (flat_map (items_of tag) entries)); cbn [orb].
  - destruct H1 as [Hr [n [x [Hin Hrec]]]].
    destruct (log_entries self step local_only tag s entries) as [s1 r1].
    cbn [fst snd] in *. subst r1. cbn [fst snd]. split; [reflexivity|].
    exists n, x. split; [apply in_or_app; left; exact Hin | exact Hrec].
  - destruct H1 as [Hr Hb].
    destruct (log_entries self step local_only tag s entries) as [s1 r1].
    cbn [fst snd] in *. subst r1.
    specialize (IH s1 (fun t e k v Ht Hk => Hok t e k v (or_intror Ht) Hk) Hb).
    destruct (existsb (tracked (best_stats_cfg self)) (all_items d)).
    + destruct IH as [Hr [n [x [Hin Hrec]]]]. split; [exact Hr|].
      exists n, x. split; [apply in_or_app; right; exact Hin | exact Hrec].
    + exact IH.
Qed.

End NoSaveFn.

(** X18. With [save_fn] left at [None], the first [log] of a tracked
    statistic raises [TypeError], and it does so after the value has been
    recorded in [best_stats]: the best is kept although no checkpoint was
    written. *)
Theorem log_without_save_fn_raises (self : Logger) (step : Z)
    (local_only : bool) :
  save_fn self = None ->
  best_stats self = [] ->
  lists_nonempty (data self) ->
  existsb (tracked (best_stats_cfg self)) (all_items (data self)) = true ->
  snd (log self step local_only) = Raised TypeError
  /\ exists name x,
       In (name, x) (all_items (data self))
       /\ dget name (best_stats (fst (fst (log self step local_only))))
          = Some (mkBestStat x step).
Proof.
  intros Hsave Hbest Hne Htracked.
  destruct (log_state self step local_only) as [-> _].
  rewrite log_outcome.
  set (s0 := mkLogState (best_stats self) (stats self) _).
  pose proof (log_tags_no_save_fn self step local_only Hsave (data self) s0
                (lists_nonempty_entries_ok _ Hne) Hbest) as H.
  rewrite Htracked in H. destruct H as [Hr Hrec].
  rewrite Hr. split; [reflexivity | exact Hrec].
Qed.

Lemma log_without_save_fn_raises_witness :
  let self :=
    mkLogger false true 0 0 "runs/ppo/models"
             [("train"%string, [("loss"%string, Many [1; 2])])]
             [] [] [("train/loss_avg"%string, (-1)%Z)] None in
  snd (log self 3 false) = Raised TypeError
  /\ exists name x,
       In (name, x) (all_items (data self))
       /\ dget name (best_stats (fst (fst (log self 3 false))))
          = Some (mkBestStat x 3).
Proof.
  apply (log_without_save_fn_raises
           (mkLogger false true 0 0 "runs/ppo/models"
              [("train"%string, [("loss"%string, Many [1; 2])])]
              [] [] [("train/loss_avg"%string, (-1)%Z)] None) 3 false).
  - reflexivity.
  - reflexivity.
  - intros tag entries k [E|[]]. injection E as <- <-.
    intros [E'|[]]. discriminate.
  - reflexivity.
Defined.

(** ** _state_dict and load *)

(** X20. [load] restores what [_state_dict] saved: loading the state
    dictionary of one logger into another returns, gives it the
    [best_stats] and [last_log_step] of the first, so that its own state
    dictionary is the one loaded, and leaves its data, statistics and
    configuration alone. But [load] is not atomic: given a dictionary
    without [last_log_step] it raises [KeyError] after it has replaced
    [best_stats]. *)
Theorem load_state_dict_round_trip (self other : Logger) :
  let loaded := fst (load other (_state_dict self)) in
  (snd (load other (_state_dict self)) = Returned tt
   /\ _state_dict loaded = _state_dict self
   /\ (best_stats loaded = best_stats self
       /\ last_log_step loaded = last_log_step self)
   /\ (data loaded = data other /\ stats loaded = stats other
       /\ best_stats_cfg loaded = best_stats_cfg other
       /\ save_fn loaded = save_fn other))
  /\ (forall best,
        let partial := load other (mkStateDict (Some best) None) in
        snd partial = Raised KeyError
        /\ best_stats (fst partial) = best
        /\ last_log_step (fst partial) = last_log_step other).
Proof.
  cbn. repeat split.
Qed.

(** ** log: the statistics it returns *)

Lemma write_items_app a b st :
  write_items (a ++ b) st = write_items b (write_items a st).
Proof. unfold write_items. apply fold_left_app. Qed.

Lemma write_items_other : forall items st name,
  ~ In name (keys items) -> dget name (write_items items st) = dget name st.
Proof.
  induction items as [|[n x] items IH]; intros st name Hn; [reflexivity|].
  cbn [write_items fold_left fst snd]. fold (write_items items (dset n x st)).
  rewrite IH.
  - apply dget_dset_other. intros ->. apply Hn. left. reflexivity.
  - intros Hin. apply Hn. right. exact Hin.
Qed.

(** The last item of a name is the one that stays. *)
Lemma write_items_last : forall items st name,
  In name (keys items) ->
  exists before x after,
    items = before ++ (name, x) :: after
    /\ ~ In name (keys after)
    /\ dget name (write_items items st) = Some x.
Proof.
  induction items as [|[n x] items IH]; intros st name Hin; [contradiction|].
  cbn [write_items fold_left fst snd]. fold (write_items items (dset n x st)).
  destruct (in_dec String.string_dec name (keys items)) as [Hlater|Hlast].
  - destruct (IH (dset n x st) name Hlater)
      as [before [y [after [-> [Hafter Hget]]]]].
    exists ((n, x) :: before), y, after. auto.
  - destruct Hin as [E|Hin]; [|contradiction]. cbn [fst] in E. subst n.
    exists [], x, items. split; [reflexivity|]. split; [exact Hlast|].
    rewrite write_items_other by exact Hlast. apply dget_dset_same.
Qed.

Section LogStats.

Variables (self : Logger) (step : Z) (local_only : bool).

Lemma log_scalars_stats : forall items s,
  snd (log_scalars self step local_only s items) = Returned tt ->
  ls_stats (fst (log_scalars self step local_only s items))
  = write_items items (ls_stats s).
Proof.
  induction items as [|[name scalar] items IH]; intros s Hret; [reflexivity|].
  cbn [log_scalars] in *.
  destruct (log_scalar_split self step local_only s name scalar)
    as [[Hbad [_ [_ Hr]]]|[_ [_ [Hst Hr]]]].
  - exfalso. destruct (log_scalar self step local_only s (name, scalar))
      as [s1 [[]|e]]; cbn [snd] in *; [|discriminate].
    apply Hbad. symmetry. exact Hr.
  - destruct (log_scalar self step local_only s (name, scalar)) as [s1 r];
      cbn [fst snd] in *. subst r.
    rewrite (IH s1 Hret), Hst. reflexivity.
Qed.

Lemma log_entries_stats tag : forall entries s,
  snd (log_entries self step local_only tag s entries) = Returned tt ->
  ls_stats (fst (log_entries self step local_only tag s entries))
  = write_items (flat_map (items_of tag) entries) (ls_stats s).
Proof.
  induction entries as [|[k v] entries IH]; intros s Hret; [reflexivity|].
  cbn [log_entries log_entry flat_map] in *. rewrite write_items_app.
  destruct (key_vals_of tag k v) as [key_vals|e] eqn:Ekv; [|discriminate].
  assert (Hitems : items_of tag (k, v) = key_vals).
  { unfold items_of. cbn [fst snd]. rewrite Ekv. reflexivity. }
  rewrite Hitems.
  pose proof (log_scalars_stats key_vals s) as Hst.
  destruct (log_scalars self step local_only s key_vals) as [s1 [[]|e]];
    cbn [fst snd] in *; [|discriminate].
  destruct (wandb self && negb local_only); rewrite (IH _ Hret);
    cbn [emit ls_stats]; rewrite (Hst eq_refl); reflexivity.
Qed.

Lemma log_tags_stats : forall d s,
  snd (log_tags self step local_only s d) = Returned tt ->
  ls_stats (fst (log_tags self step local_only s d))
  = write_items (all_items d) (ls_stats s).
Proof.
  induction d as [|[tag entries] d IH]; intros s Hret; [reflexivity|].
  unfold all_items. cbn [log_tags flat_map fst snd] in *.
  rewrite write_items_app. fold (all_items d).
  pose proof (log_entries_stats tag entries s) as Hst.
  destruct (log_entries self step local_only tag s entries) as [s1 [[]|e]];
    cbn [fst snd] in *; [|discriminate].
  rewrite (IH _ Hret), <- (Hst eq_refl). reflexivity.
Qed.

End LogStats.

Lemma log_returned_stats self step local_only logged :
  snd (log self step local_only) = Returned logged ->
  logged = write_items (all_items (data self)) (stats self).
Proof.
  rewrite log_outcome. intros Hret.
  pose proof (log_tags_stats self step local_only (data self)
                (mkLogState (best_stats self) (stats self)
                   (if (step <? last_log_step self)%Z
                    then [Warned step (last_log_step self)] else [])))
    as Hst.
  destruct (log_tags self step local_only _ (data self)) as [s [[]|e]];
    cbn [fst snd ls_stats] in *; [|discriminate].
  injection Hret as <-. apply Hst. reflexivity.
Qed.

(** X21. What [log] returns: the statistics it had, with every named scalar
    of the data written over them in order. A name the data produces holds
    the scalar of its last item, and a statistic of an earlier [log] whose
    name the data does not produce is still there with its old value. *)
Theorem log_reports_items (self : Logger) (step : Z) (local_only : bool)
    (logged : dict R) :
  snd (log self step local_only) = Returned logged ->
  logged = write_items (all_items (data self)) (stats self)
  /\ (forall name, In name (keys (all_items (data self))) ->
        exists before x after,
          all_items (data self) = before ++ (name, x) :: after
          /\ ~ In name (keys after)
          /\ dget name logged = Some x)
  /\ (forall name, ~ In name (keys (all_items (data self))) ->
        dget name logged = dget name (stats self)).
Proof.
  intros Hret. pose proof (log_returned_stats _ _ _ _ Hret) as Hlogged.
  split; [exact Hlogged|]. subst logged. split.
  - intros name Hin. apply write_items_last. exact Hin.
  - intros name Hout. apply write_items_other. exact Hout.
Qed.

Lemma log_reports_items_witness :
  let self :=
    mkLogger false false 0 0 "runs/ppo/models"
             [("train"%string, [("loss"%string, One 2)])]
             [("test/ep_ret"%string, 7)] [] [] None in
  let logged := [("test/ep_ret"%string, 7); ("train/loss"%string, 2)] in
  logged = write_items (all_items (data self)) (stats self)
  /\ (forall name, In name (keys (all_items (data self))) ->
        exists before x after,
          all_items (data self) = before ++ (name, x) :: after
          /\ ~ In name (keys after)
          /\ dget name logged = Some x)
  /\ (forall name, ~ In name (keys (all_items (data self))) ->
        dget name logged = dget name (stats self)).
Proof.
  apply (log_reports_items
           (mkLogger false false 0 0 "runs/ppo/models"
              [("train"%string, [("loss"%string, One 2)])]
              [("test/ep_ret"%string, 7)] [] [] None) 1 false).
  reflexivity.
Defined.

(** ** reset, store and log together *)

Lemma dset_fresh {V : Type} k (v : V) d :
  ~ In k (keys d) -> dset k v d = d ++ [(k, v)].
Proof.
  induction d as [|[k0 v0] d IH]; intros Hk; [reflexivity|].
  cbn [dset app]. destruct (String.eqb_spec k k0) as [->|Hne].
  - exfalso. apply Hk. left. reflexivity.
  - rewrite IH; [reflexivity|]. intros Hin. apply Hk. right. exact Hin.
Qed.

Lemma store_items_fresh tag : forall kwargs entries,
  NoDup (map fst kwargs) ->
  (forall k, In k (map fst kwargs) -> ~ In k (keys entries)) ->
  store_items tag true kwargs [(tag, entries)]
  = ([(tag, entries ++ map (fun kv => (fst kv, Many [snd kv])) kwargs)],
     Returned tt).
Proof.
  induction kwargs as [|[k v] rest IH]; intros entries Hnd Hfresh.
  - cbn [store_items map]. rewrite app_nil_r. reflexivity.
  - inversion Hnd as [|? ? Hnotin Hnd']; subst.
    assert (Hk : ~ In k (keys entries)) by (apply Hfresh; left; reflexivity).
    cbn [store_items]. unfold touch. cbn [dget]. rewrite String.eqb_refl.
    apply dget_None_keys in Hk as Hget. rewrite Hget.
    cbn [dset]. rewrite String.eqb_refl. rewrite (dset_fresh k _ entries Hk).
    rewrite IH.
    + cbn [map fst snd]. rewrite <- app_assoc. reflexivity.
    + exact Hnd'.
    + intros k' Hin. unfold keys. rewrite map_app, in_app_iff.
      intros [Hold|[E|[]]].
      * apply (Hfresh k'); [right; exact Hin | exact Hold].
      * cbn [fst] in E. subst k'. contradiction.
Qed.

Lemma key_vals_of_once tag k v :
  key_vals_of tag k (Many [v]) = Returned (once_stats tag (k, v)).
Proof.
  unfold key_vals_of, once_stats, np_min, np_max.
  cbn [List.length fold_left fst snd].
  assert (Havg : Jnp.sum [v] / INR 1 = v).
  { unfold Jnp.sum. simpl. field. }
  rewrite Havg.
  assert (Hstd : sqrt (Jnp.sum (map (fun x => (x - v) ^ 2) [v]) / INR 1) = 0).
  { replace (Jnp.sum (map (fun x => (x - v) ^ 2) [v]) / INR 1) with 0.
    - apply sqrt_0.
    - unfold Jnp.sum. simpl. field. }
  rewrite Hstd. reflexivity.
Qed.

Lemma items_of_once tag : forall kwargs : list (string * R),
  flat_map (items_of tag) (map (fun kv => (fst kv, Many [snd kv])) kwargs)
  = flat_map (once_stats tag) kwargs.
Proof.
  induction kwargs as [|[k v] l IHl]; [reflexivity|].
  cbn [map flat_map fst snd]. rewrite IHl. f_equal.
  unfold items_of. cbn [fst snd]. rewrite key_vals_of_once. reflexivity.
Qed.

(** X22. A value stored once after [reset] is its own average, minimum and
    maximum, with standard deviation 0: after [reset], [store] of [kwargs]
    under one tag and then [log] returns exactly these four statistics for
    each key, in the order of [kwargs], and nothing of what was logged
    before [reset]. *)
Theorem reset_store_log_reports_values (self : Logger) (tag : string)
    (kwargs : list (string * R)) (step : Z) (local_only : bool) :
  NoDup (map fst kwargs) ->
  (best_stats_cfg self = []
   \/ exists f, save_fn self = Some f /\ forall path, f path = None) ->
  snd (store (reset self) tag true kwargs) = Returned tt
  /\ snd (log (fst (store (reset self) tag true kwargs)) step local_only)
     = Returned (write_items (flat_map (once_stats tag) kwargs) []).
Proof.
  intros Hnd Hsave.
  assert (Hdata : store_items tag true kwargs []
                  = (match kwargs with
                     | [] => []
                     | _ => [(tag, map (fun kv => (fst kv, Many [snd kv]))
                                       kwargs)]
                     end, Returned tt)).
  { destruct kwargs as [|[k v] rest]; [reflexivity|].
    inversion Hnd as [|? ? Hnotin Hnd']; subst.
    cbn [store_items touch dget dset]. rewrite String.eqb_refl.
    cbn [dset].
    apply (store_items_fresh tag rest [(k, Many [v])] Hnd').
    intros k' Hin [E|[]]. cbn [fst] in E. subst k'. contradiction. }
  unfold store. cbn [reset data]. rewrite Hdata. cbn [fst snd].
  split; [reflexivity|].
  set (self1 := with_data (reset self) _).
  assert (Hitems : all_items (data self1) = flat_map (once_stats tag) kwargs).
  { unfold self1. cbn [with_data data]. unfold all_items.
    destruct kwargs as [|kv0 rest0]; [reflexivity|].
    rewrite <- (items_of_once tag (kv0 :: rest0)).
    generalize (map (fun kv : string * R => (fst kv, Many [snd kv]))
                    (kv0 :: rest0)).
    intros entries. cbn [flat_map fst snd]. apply app_nil_r. }
  assert (Hne : lists_nonempty (data self1)).
  { unfold self1. cbn [with_data data]. intros t entries k Ht Hk.
    destruct kwargs as [|kv0 rest0]; [contradiction|].
    destruct Ht as [E|[]]. injection E as <- <-.
    change (In (k, Many [])
              (map (fun kv : string * R => (fst kv, Many [snd kv]))
                   (kv0 :: rest0))) in Hk.
    apply in_map_iff in Hk. destruct Hk as [kv [E _]]. discriminate. }
  assert (Hret : exists logged,
             snd (log self1 step local_only) = Returned logged).
  { rewrite log_outcome.
    assert (Hstep : forall s item, True -> True ->
              snd (log_scalar self1 step local_only s item) = Returned tt
              /\ True).
    { intros s [name scalar] _ _. split; [|exact I].
      destruct (log_scalar_split self1 step local_only s name scalar)
        as [[Hbad [_ [_ ->]]]|[_ [_ [_ ->]]]]; [|reflexivity].
      exfalso. apply Hbad. unfold track_best, self1.
      cbn [with_data reset best_stats_cfg save_fn model_path].
      destruct Hsave as [Hcfg|[f [Hf Hsaved]]].
      - rewrite Hcfg. reflexivity.
      - destruct (dget name (best_stats_cfg self)) as [so|]; [|reflexivity].
        destruct (match dget name (ls_best s) with
                  | Some prev => improves so (val prev) scalar
                  | None => true
                  end); [|reflexivity].
        rewrite Hf, Hsaved. reflexivity. }
    destruct (log_tags_returns self1 step local_only (fun _ => True)
                (fun _ => True) Hstep (fun _ _ _ _ => I) (data self1)
                (mkLogState (best_stats self1) (stats self1)
                   (if (step <? last_log_step self1)%Z
                    then [Warned step (last_log_step self1)] else []))
                (lists_nonempty_entries_ok _ Hne) (fun _ _ => I) I)
      as [-> _].
    eauto. }
  destruct Hret as [logged Hret]. rewrite Hret.
  rewrite (log_returned_stats _ _ _ _ Hret), Hitems. reflexivity.
Qed.

Lemma reset_store_log_reports_values_witness :
  let self :=
    mkLogger false true 0 4 "runs/ppo/models"
             [("train"%string, [("loss"%string, Many [1; 2])])]
             [("train/loss_avg"%string, 1.5)] [] [] None in
  snd (store (reset self) "test" true [("ep_ret"%string, 3)]) = Returned tt
  /\ snd (log (fst (store (reset self) "test" true [("ep_ret"%string, 3)]))
              5 false)
     = Returned (write_items
                   (flat_map (once_stats "test") [("ep_ret"%string, 3)]) []).
Proof.
  apply (reset_store_log_reports_values
           (mkLogger false true 0 4 "runs/ppo/models"
              [("train"%string, [("loss"%string, Many [1; 2])])]
              [("train/loss_avg"%string, 1.5)] [] [] None)
           "test" [("ep_ret"%string, 3)] 5 false).
  - repeat constructor. intros [].
  - left. reflexivity.
Defined.

End LoggerFacts.
